(** * BodyLine: kinematic chain, walk planner and snowball flight

    A shallow embedding of the C++ sources of the BodyLine repository.

    Number model.  The projectile code (SnowballStrategy, Vector2D's
    scalar division) only uses [+ - * /], comparisons and [std::sqrt],
    which IEEE 754 binary64 fixes bit for bit: it is embedded over
    Rocq's primitive floats (module [Ieee]), so NaN, infinities and
    signed zeros are those of the machine.  The kinematic chain
    (Segment, Body, WalkerStrategy) goes through libm's [cos], [sin],
    [atan2] and [fmod]; it is embedded over the real numbers (module
    [Kin]): [double] is read as [R], [M_PI] as [PI], and rounding is
    outside that model.

    Containers.  [std::map<std::string, T>] is an association list
    kept in key order (the iteration order of std::map), [std::vector]
    and [std::deque] are lists.  Recursion that the C++ code does not
    bound ([Body::updateChildSegments], the angle-normalising [while]
    loops) takes a fuel argument and returns [None] when it runs out.

    Modules.  [Ieee] holds SnowballStrategy and what it reads of the
    Body and the target; [Prelim] the first Snowball class with the
    ballistics of Circle, over binary64 as well; [Kin] the vectors,
    the circles, Segment, Body, its builder ([Kin.Builder]) and
    WalkerStrategy; [Sim] the update loop of Simulation, which drives
    either strategy through the interface of MovementStrategy.  The
    theorems follow, part by part. *)

From Stdlib Require Import Bool List String Ascii ZArith Lia.
From Stdlib Require Import Floats.
From Stdlib Require Import Reals Lra.

#[local] Set Warnings "-inexact-float".

Import ListNotations.

(* ================================================================== *)
(** * Part I.  The projectile, over binary64                           *)
(* ================================================================== *)

Module Ieee.

Local Open Scope float_scope.

(** ** Vector2D (Vector2D.cpp) *)

Record Vector2D : Set := mkVector2D { x : float; y : float }.

(** [Vector2D::operator-]. *)
Definition minus (a v : Vector2D) : Vector2D :=
  mkVector2D (x a - x v) (y a - y v).

(** [Vector2D::operator/]: [if (scalar == 0) return *this;]. *)
Definition div (v : Vector2D) (scalar : float) : Vector2D :=
  if scalar =? 0 then v
  else mkVector2D (x v / scalar) (y v / scalar).

(** [Vector2D::operator/=]: [if (scalar != 0) { x /= scalar; y /= scalar; }]. *)
Definition div_assign (v : Vector2D) (scalar : float) : Vector2D :=
  if negb (scalar =? 0) then mkVector2D (x v / scalar) (y v / scalar)
  else v.

(** [Vector2D::length]. *)
Definition length (v : Vector2D) : float :=
  PrimFloat.sqrt (x v * x v + y v * y v).

(** Modelled from the spec: [Vector2D::magnitude] has no body under
    src/; Vector2D.h declares it as the alias of [length]. *)
Definition magnitude (v : Vector2D) : float := length v.

(** A component is finite when it is neither NaN nor an infinity. *)
Definition finite (f : float) : bool :=
  negb (is_nan f) && negb (is_infinity f).

Definition finiteV (v : Vector2D) : bool := finite (x v) && finite (y v).

(** ** What the strategy reads through its two shared pointers *)

(** [Body::getBasePosition] and [Body::getGroundLevel]. *)
Record Body : Set := mkBody {
  getBasePosition : Vector2D;
  getGroundLevel : float
}.

(** [Circle::getCenter] and [Circle::getRadius]. *)
Record Circle : Set := mkCircle {
  getCenter : Vector2D;
  getRadius : float
}.

(** ** SnowballStrategy (SnowballStrategy.cpp)

    [body] and [target] are [shared_ptr]s and may be null; the logger
    only prints and is left out. *)

Record SnowballStrategy : Set := mkSnowball {
  body : option Body;
  target : option Circle;
  active : bool;
  position : Vector2D;
  velocity : Vector2D;
  gravity : float;
  radius : float;
  hitTarget : bool;
  hitGround : bool
}.

(** The constructor. *)
Definition create (b : option Body) (t : option Circle)
    (snowballRadius g : float) : SnowballStrategy :=
  mkSnowball b t false (mkVector2D 0 0) (mkVector2D 0 0) g snowballRadius
             false false.

(** [MovementStrategy::setTarget]. *)
Definition setTarget (t : option Circle) (s : SnowballStrategy)
    : SnowballStrategy :=
  mkSnowball (body s) t (active s) (position s) (velocity s) (gravity s)
             (radius s) (hitTarget s) (hitGround s).

(** The Body behind the shared pointer is owned by the driver, which
    may move it between two calls of the strategy. *)
Definition setBody (b : option Body) (s : SnowballStrategy)
    : SnowballStrategy :=
  mkSnowball b (target s) (active s) (position s) (velocity s) (gravity s)
             (radius s) (hitTarget s) (hitGround s).

Definition reset (s : SnowballStrategy) : SnowballStrategy :=
  mkSnowball (body s) (target s) false (mkVector2D 0 0) (mkVector2D 0 0)
             (gravity s) (radius s) false false.

Definition planSequence (s : SnowballStrategy) : SnowballStrategy := reset s.

Definition prepareThrow (p v : Vector2D) (s : SnowballStrategy)
    : SnowballStrategy :=
  mkSnowball (body s) (target s) false p v (gravity s) (radius s) false false.

Definition throwSnowball (s : SnowballStrategy) : SnowballStrategy :=
  if active s then s
  else mkSnowball (body s) (target s) true (position s) (velocity s)
                  (gravity s) (radius s) false false.

(** The aim computation inside [executeNextMove]: launch point 50 above
    the base, [time = sqrt(2 * dx / gravity)], then the velocity.  Both
    pointers are dereferenced without a null test. *)
Definition aim (s : SnowballStrategy) : option SnowballStrategy :=
  match body s, target s with
  | Some b, Some t =>
      let bodyPos := getBasePosition b in
      let targetPos := getCenter t in
      let position' := mkVector2D (x bodyPos) (y bodyPos - 50) in
      let dx := x targetPos - x position' in
      let dy := y targetPos - y position' in
      let time := PrimFloat.sqrt (2 * dx / gravity s) in
      let velocity' :=
        mkVector2D (dx / time) ((- gravity s) * time / 2 + dy / time) in
      Some (mkSnowball (body s) (target s) (active s) position' velocity'
                       (gravity s) (radius s) (hitTarget s) (hitGround s))
  | _, _ => None
  end.

(** [executeNextMove]; [None] is the null dereference. *)
Definition executeNextMove (s : SnowballStrategy)
    : option (bool * SnowballStrategy) :=
  if negb (active s) && negb (hitTarget s) && negb (hitGround s) then
    if (x (position s) =? 0) && (y (position s) =? 0) then
      match aim s with
      | Some s' => Some (true, throwSnowball s')
      | None => None
      end
    else Some (true, throwSnowball s)
  else Some (false, s).

Definition isSequenceComplete (s : SnowballStrategy) : bool :=
  hitTarget s || hitGround s || negb (active s).

(** [updatePhysics]: gravity on the vertical velocity first, then the
    position with the new velocity. *)
Definition updatePhysics (deltaTime : float) (s : SnowballStrategy)
    : SnowballStrategy :=
  let vy := y (velocity s) + gravity s * deltaTime in
  let px := x (position s) + x (velocity s) * deltaTime in
  let py := y (position s) + vy * deltaTime in
  mkSnowball (body s) (target s) (active s) (mkVector2D px py)
             (mkVector2D (x (velocity s)) vy) (gravity s) (radius s)
             (hitTarget s) (hitGround s).

(** [position.y + radius >= body->getGroundLevel()]. *)
Definition checkGroundCollision (s : SnowballStrategy) : bool :=
  match body s with
  | None => false
  | Some b => getGroundLevel b <=? y (position s) + radius s
  end.

(** [distance <= radius + target->getRadius()]. *)
Definition checkTargetCollision (s : SnowballStrategy) : bool :=
  match target s with
  | None => false
  | Some t =>
      magnitude (minus (position s) (getCenter t)) <=? radius s + getRadius t
  end.

Definition checkCollisions (s : SnowballStrategy) : SnowballStrategy :=
  if checkGroundCollision s then
    mkSnowball (body s) (target s) false (position s) (velocity s)
               (gravity s) (radius s) (hitTarget s) true
  else if checkTargetCollision s then
    mkSnowball (body s) (target s) false (position s) (velocity s)
               (gravity s) (radius s) true (hitGround s)
  else s.

Definition update (deltaTime : float) (s : SnowballStrategy)
    : SnowballStrategy :=
  if negb (active s) then s
  else checkCollisions (updatePhysics deltaTime s).

(** [n] ticks of [update] with the same step. *)
Fixpoint run (n : nat) (deltaTime : float) (s : SnowballStrategy)
    : SnowballStrategy :=
  match n with
  | O => s
  | S k => run k deltaTime (update deltaTime s)
  end.

(** The states a driver can bring a strategy to through its public
    interface, from the constructor on. *)
Inductive reachable : SnowballStrategy -> Prop :=
| reach_create b t r g : reachable (create b t r g)
| reach_setTarget t s : reachable s -> reachable (setTarget t s)
| reach_setBody b s : reachable s -> reachable (setBody b s)
| reach_planSequence s : reachable s -> reachable (planSequence s)
| reach_reset s : reachable s -> reachable (reset s)
| reach_prepareThrow p v s : reachable s -> reachable (prepareThrow p v s)
| reach_throwSnowball s : reachable s -> reachable (throwSnowball s)
| reach_executeNextMove s ok s' :
    reachable s -> executeNextMove s = Some (ok, s') -> reachable s'
| reach_update dt s : reachable s -> reachable (update dt s).

End Ieee.

(* ================================================================== *)
(** * Part I bis.  The first snowball, over binary64                   *)
(* ================================================================== *)

Module Prelim.

Import Ieee.
Local Open Scope float_scope.

(** ** Circle with its ballistics (Circle.cpp) *)

Record Circle : Set := mkCircle {
  center : Vector2D;
  radius : float;
  velocity : Vector2D;
  gravity : float;
  hasPhysics : bool
}.

(** The constructor: no velocity, no gravity, no physics. *)
Definition Circle_new (c : Vector2D) (r : float) : Circle :=
  mkCircle c r (mkVector2D 0 0) 0 false.

Definition setCenter (newCenter : Vector2D) (c : Circle) : Circle :=
  mkCircle newCenter (radius c) (velocity c) (gravity c) (hasPhysics c).

Definition setBallistics (initialVelocity : Vector2D) (gravityValue : float)
    (c : Circle) : Circle :=
  mkCircle (center c) (radius c) initialVelocity gravityValue true.

(** [updatePosition]: the position moves with the old velocity, then
    gravity acts on the vertical velocity. *)
Definition updatePosition (timeStep : float) (c : Circle) : Circle :=
  if negb (hasPhysics c) then c
  else
    mkCircle
      (mkVector2D (x (center c) + x (velocity c) * timeStep)
                  (y (center c) + y (velocity c) * timeStep))
      (radius c)
      (mkVector2D (x (velocity c)) (y (velocity c) + gravity c * timeStep))
      (gravity c) true.

Definition distanceSquared (a v : Vector2D) : float :=
  (x a - x v) * (x a - x v) + (y a - y v) * (y a - y v).

Definition intersects (c other : Circle) : bool :=
  let sumRadii := radius c + radius other in
  distanceSquared (center c) (center other) <=? sumRadii * sumRadii.

Definition isOnGround (c : Circle) (groundLevel : float) : bool :=
  groundLevel <=? y (center c) + radius c.

(** ** Snowball (Snowball.cpp)

    [target] is what [lock()] gives on the weak pointer to the
    target; the weak pointer to the thrower is only read by
    [setThrower]; the logger only prints. *)
Record Snowball : Set := mkSnowball {
  snowball : Circle;
  snowballGravity : float;
  active : bool;
  hitTarget : bool;
  hitGround : bool;
  groundLevel : float;
  target : option Circle
}.

Definition Snowball_new (r gravityValue : float) : Snowball :=
  mkSnowball (Circle_new (mkVector2D 0 0) r) gravityValue
             false false false 400 None.

(** [setThrower]: the ground level is read from a thrower that is
    still alive. *)
Definition setThrower (body : option Body) (s : Snowball) : Snowball :=
  match body with
  | Some b =>
      mkSnowball (snowball s) (snowballGravity s) (active s) (hitTarget s)
                 (hitGround s) (getGroundLevel b) (target s)
  | None => s
  end.

Definition setTarget (newTarget : option Circle) (s : Snowball) : Snowball :=
  mkSnowball (snowball s) (snowballGravity s) (active s) (hitTarget s)
             (hitGround s) (groundLevel s) newTarget.

Definition prepareThrow (initialPosition initialVelocity : Vector2D)
    (s : Snowball) : Snowball :=
  mkSnowball
    (setBallistics initialVelocity (snowballGravity s)
       (setCenter initialPosition (snowball s)))
    (snowballGravity s) false false false (groundLevel s) (target s).

(** [throwSnowball] only sets [active]. *)
Definition throwSnowball (s : Snowball) : Snowball :=
  mkSnowball (snowball s) (snowballGravity s) true (hitTarget s)
             (hitGround s) (groundLevel s) (target s).

(** [checkTargetHit]: the result and the snowball after the call. *)
Definition checkTargetHit (s : Snowball) : bool * Snowball :=
  if negb (active s) || hitTarget s || hitGround s then (false, s)
  else
    match target s with
    | Some t =>
        if intersects (snowball s) t then
          (true,
           mkSnowball (snowball s) (snowballGravity s) false true
                      (hitGround s) (groundLevel s) (target s))
        else (false, s)
    | None => (false, s)
    end.

Definition update (timeStep : float) (s : Snowball) : Snowball :=
  if negb (active s) then s
  else
    let moved := updatePosition timeStep (snowball s) in
    let s1 :=
      if isOnGround moved (groundLevel s) then
        mkSnowball moved (snowballGravity s) false (hitTarget s) true
                   (groundLevel s) (target s)
      else
        mkSnowball moved (snowballGravity s) (active s) (hitTarget s)
                   (hitGround s) (groundLevel s) (target s) in
    snd (checkTargetHit s1).

Definition reset (s : Snowball) : Snowball :=
  mkSnowball
    (setBallistics (mkVector2D 0 0) (snowballGravity s)
       (setCenter (mkVector2D 0 0) (snowball s)))
    (snowballGravity s) false false false (groundLevel s) (target s).

(** What a driver can do to a snowball without preparing a new
    throw: throw it, let time pass, change the target or the
    thrower. *)
Inductive flies : Snowball -> Snowball -> Prop :=
| flies_here s : flies s s
| flies_throw s s' : flies s s' -> flies s (throwSnowball s')
| flies_update dt s s' : flies s s' -> flies s (update dt s')
| flies_setTarget t s s' : flies s s' -> flies s (setTarget t s')
| flies_setThrower b s s' : flies s s' -> flies s (setThrower b s').

End Prelim.

(* ================================================================== *)
(** * Part II.  The kinematic chain and the walker, over the reals     *)
(* ================================================================== *)

Module Kin.

Local Open Scope string_scope.
Local Open Scope list_scope.
Local Open Scope R_scope.

(** ** Comparisons of [double] as booleans *)

Definition ltb (a b : R) : bool := if Rlt_dec a b then true else false.
Definition leb (a b : R) : bool := if Rle_dec a b then true else false.
Definition eqb (a b : R) : bool := if Req_dec_T a b then true else false.

(** [std::max(a, b)] is [(a < b) ? b : a] and [std::min(a, b)] is
    [(b < a) ? b : a]. *)
Definition std_max (a b : R) : R := if ltb a b then b else a.
Definition std_min (a b : R) : R := if ltb b a then b else a.

(** Conversion of a [double] to [int]: the fractional part is dropped
    (values outside the range of [int] are undefined in C++ and not
    modelled). *)
Definition trunc (r : R) : Z :=
  if leb 0 r then Int_part r else (- Int_part (- r))%Z.

(** [std::fmod(a, b)]: [a - n * b] with [n] the quotient [a / b]
    rounded toward zero. *)
Definition fmod (a b : R) : R := a - IZR (trunc (a / b)) * b.

(** [std::atan2(y, x)], by quadrant. *)
Definition atan2 (y x : R) : R :=
  if ltb 0 x then atan (y / x)
  else if ltb x 0 then
    (if leb 0 y then atan (y / x) + PI else atan (y / x) - PI)
  else if ltb 0 y then PI / 2
  else if ltb y 0 then - (PI / 2)
  else 0.

Definition M_PI : R := PI.

(** ** Vector2D (Vector2D.cpp) *)

Record Vector2D : Type := mkVector2D { x : R; y : R }.

Module Vec.

Definition plus (a v : Vector2D) : Vector2D :=
  mkVector2D (x a + x v) (y a + y v).

Definition minus (a v : Vector2D) : Vector2D :=
  mkVector2D (x a - x v) (y a - y v).

Definition times (a : Vector2D) (scalar : R) : Vector2D :=
  mkVector2D (x a * scalar) (y a * scalar).

Definition EPSILON : R := 1 / 1000000.

(** [operator==]: both components closer than [EPSILON]. *)
Definition equal (a v : Vector2D) : bool :=
  ltb (Rabs (x a - x v)) EPSILON && ltb (Rabs (y a - y v)) EPSILON.

Definition length (a : Vector2D) : R := sqrt (x a * x a + y a * y a).

(** Modelled from the spec: [Vector2D::magnitude] has no body under
    src/; Vector2D.h declares it as the alias of [length]. *)
Definition magnitude (a : Vector2D) : R := length a.

Definition lengthSquared (a : Vector2D) : R := x a * x a + y a * y a.

Definition distance (a v : Vector2D) : R := length (minus a v).

Definition distanceSquared (a v : Vector2D) : R := lengthSquared (minus a v).

(** Modelled from the spec: the [normalize] that returns a vector has
    no body under src/.  It is the [void normalize] of Vector2D.cpp
    (divide by the length unless it is zero), returning the vector as
    Vector2D.h declares. *)
Definition normalize (a : Vector2D) : Vector2D :=
  let len := length a in
  if negb (eqb len 0) then mkVector2D (x a / len) (y a / len) else a.

Definition dot (a v : Vector2D) : R := x a * x v + y a * y v.

(** [operator!=]. *)
Definition notEqual (a v : Vector2D) : bool := negb (equal a v).

(** [normalized]: the zero vector when the length is zero. *)
Definition normalized (a : Vector2D) : Vector2D :=
  let len := length a in
  if eqb len 0 then mkVector2D 0 0 else mkVector2D (x a / len) (y a / len).

Definition cross (a v : Vector2D) : R := x a * y v - y a * x v.

Definition rotate (a : Vector2D) (angle : R) : Vector2D :=
  let cosA := cos angle in
  let sinA := sin angle in
  mkVector2D (x a * cosA - y a * sinA) (x a * sinA + y a * cosA).

Definition angle (a : Vector2D) : R := atan2 (y a) (x a).

Definition angleBetween (a v : Vector2D) : R := atan2 (cross a v) (dot a v).

End Vec.

(** ** Circle (Circle.cpp) *)

Record Circle : Type := mkCircle { getCenter : Vector2D; getRadius : R }.

(** [Circle::contains]. *)
Definition contains (c : Circle) (point : Vector2D) : bool :=
  leb (Vec.distanceSquared (getCenter c) point) (getRadius c * getRadius c).

Definition getArea (c : Circle) : R := M_PI * getRadius c * getRadius c.

Definition getCircumference (c : Circle) : R := 2 * M_PI * getRadius c.

Definition setCenter (newCenter : Vector2D) (c : Circle) : Circle :=
  mkCircle newCenter (getRadius c).


(** [Circle::move]. *)
Definition moveCircle (displacement : Vector2D) (c : Circle) : Circle :=
  mkCircle (Vec.plus (getCenter c) displacement) (getRadius c).

Definition intersects (c other : Circle) : bool :=
  let distanceSquared := Vec.distanceSquared (getCenter c) (getCenter other) in
  let sumRadii := getRadius c + getRadius other in
  leb distanceSquared (sumRadii * sumRadii).

Definition isOnGround (c : Circle) (groundLevel : R) : bool :=
  leb groundLevel (y (getCenter c) + getRadius c).



(** ** Segment (Segment.cpp)

    The fields carry the names of their getters.  The weak pointer to
    the parent is never set by [Body] and is left out. *)

Record Segment : Type := mkSegment {
  getId : string;
  getStart : Vector2D;
  getLength : R;
  getAngle : R;
  getMinAngle : R;
  getMaxAngle : R
}.

(** [Segment::clampAngle], with the two limits it reads from [this]
    made explicit. *)
Definition clampBetween (minAngle maxAngle angleToClamp : R) : R :=
  let normalizedAngle := fmod angleToClamp (2 * M_PI) in
  let normalizedAngle :=
    if ltb normalizedAngle 0 then normalizedAngle + 2 * M_PI
    else normalizedAngle in
  if leb minAngle maxAngle then
    std_min (std_max normalizedAngle minAngle) maxAngle
  else if leb minAngle normalizedAngle || leb normalizedAngle maxAngle then
    normalizedAngle
  else
    let distToMin :=
      std_min (Rabs (normalizedAngle - minAngle))
              (Rabs (normalizedAngle - (minAngle - 2 * M_PI))) in
    let distToMax :=
      std_min (Rabs (normalizedAngle - maxAngle))
              (Rabs (normalizedAngle - (maxAngle + 2 * M_PI))) in
    if leb distToMin distToMax then minAngle else maxAngle.

Definition clampAngle (s : Segment) (angleToClamp : R) : R :=
  clampBetween (getMinAngle s) (getMaxAngle s) angleToClamp.

(** The constructor.  Members are initialised in declaration order
    ([angle] before [minAngle] and [maxAngle]), so the [clampAngle]
    of the initialiser list reads the two limits before they are set:
    the values it sees are indeterminate and are the pair [junk]. *)
Definition Segment_new (junk : R * R) (id : string) (start : Vector2D)
    (length angle minAngle maxAngle : R) : Segment :=
  mkSegment id start (std_max (1 / 10) length)
            (clampBetween (fst junk) (snd junk) angle) minAngle maxAngle.

Definition getEnd (s : Segment) : Vector2D :=
  mkVector2D (x (getStart s) + getLength s * cos (getAngle s))
             (y (getStart s) + getLength s * sin (getAngle s)).

Definition setStart (newStart : Vector2D) (s : Segment) : Segment :=
  mkSegment (getId s) newStart (getLength s) (getAngle s)
            (getMinAngle s) (getMaxAngle s).


(** [rotateTo]: the flag is [clampedAngle == targetAngle]; the angle
    is overwritten either way. *)
Definition rotateTo (targetAngle : R) (s : Segment) : bool * Segment :=
  let clampedAngle := clampAngle s targetAngle in
  let wasConstrained := negb (eqb clampedAngle targetAngle) in
  (negb wasConstrained,
   mkSegment (getId s) (getStart s) (getLength s) clampedAngle
             (getMinAngle s) (getMaxAngle s)).

Definition rotate (deltaAngle : R) (s : Segment) : bool * Segment :=
  rotateTo (getAngle s + deltaAngle) s.


(** [move]: [start += displacement]. *)
Definition move (displacement : Vector2D) (s : Segment) : Segment :=
  setStart (Vec.plus (getStart s) displacement) s.

Definition closestPointTo (s : Segment) (point : Vector2D) : Vector2D :=
  let segmentStart := getStart s in
  let segmentEnd := getEnd s in
  let segmentVec := Vec.minus segmentEnd segmentStart in
  let pointVec := Vec.minus point segmentStart in
  let projection := Vec.dot pointVec segmentVec / Vec.lengthSquared segmentVec in
  let projection := std_max 0 (std_min 1 projection) in
  Vec.plus segmentStart (Vec.times segmentVec projection).

Definition distanceToPoint (s : Segment) (point : Vector2D) : R :=
  Vec.distance point (closestPointTo s point).


(** The ground tests, with the header's default threshold 1.0. *)
Definition isStartContactingGround (s : Segment) (groundLevel : R) : bool :=
  leb (Rabs (y (getStart s) - groundLevel)) 1.

Definition isEndContactingGround (s : Segment) (groundLevel : R) : bool :=
  leb (Rabs (y (getEnd s) - groundLevel)) 1.

(** ** std::map with string keys, in key order *)

Section StringMap.
Context {A : Type}.

Fixpoint find (k : string) (m : list (string * A)) : option A :=
  match m with
  | [] => None
  | (k', v) :: m' => if String.eqb k k' then Some v else find k m'
  end.

(** [m[k] = v]. *)
Fixpoint insert (k : string) (v : A) (m : list (string * A))
    : list (string * A) :=
  match m with
  | [] => [(k, v)]
  | (k', v') :: m' =>
      match String.compare k k' with
      | Lt => (k, v) :: m
      | Eq => (k, v) :: m'
      | Gt => (k', v') :: insert k v m'
      end
  end.

(** Writing through the pointer stored under [k]. *)
Fixpoint adjust (f : A -> A) (k : string) (m : list (string * A))
    : list (string * A) :=
  match m with
  | [] => []
  | (k', v) :: m' =>
      if String.eqb k k' then (k', f v) :: m' else (k', v) :: adjust f k m'
  end.
End StringMap.

(** ** Body (Body.cpp) *)

Record Body : Type := mkBody {
  getBasePosition : Vector2D;
  getGroundLevel : R;
  segments : list (string * Segment);
  connections : list (string * list string)
}.

Definition getSegment (b : Body) (name : string) : option Segment :=
  find name (segments b).

(** [getSegmentNames] and [getSegmentCount]: the keys of the map, in
    its order, and its size. *)
Definition getSegmentNames (b : Body) : list string := map fst (segments b).

Definition getSegmentCount (b : Body) : nat := List.length (segments b).

(** A write through the [Segment*] that [getSegment] returned. *)
Definition setSegment (name : string) (f : Segment -> Segment) (b : Body)
    : Body :=
  mkBody (getBasePosition b) (getGroundLevel b)
         (adjust f name (segments b)) (connections b).

(** [addSegment]: a name already present is reported and skipped. *)
Definition addSegment (junk : R * R) (name : string)
    (length angle minAngle maxAngle : R) (b : Body) : Body :=
  match find name (segments b) with
  | Some _ => b
  | None =>
      mkBody (getBasePosition b) (getGroundLevel b)
             (insert name
                (Segment_new junk name (getBasePosition b) length angle
                             minAngle maxAngle)
                (segments b))
             (connections b)
  end.

(** [connectSegment]: [connections[parentName].push_back(childName)],
    then the child starts where the parent ends. *)
Definition connectSegment (parentName childName : string) (b : Body) : Body :=
  match getSegment b parentName, getSegment b childName with
  | Some parent, Some _ =>
      let children :=
        match find parentName (connections b) with
        | Some cs => cs
        | None => []
        end in
      let b1 :=
        mkBody (getBasePosition b) (getGroundLevel b) (segments b)
               (insert parentName (children ++ [childName]) (connections b)) in
      setSegment childName (setStart (getEnd parent)) b1
  | _, _ => b
  end.

(** The loop of [updateChildSegments] over the children of
    [parentName]; [rec] is the recursive call.  The parent is read
    through its pointer at every iteration. *)
Fixpoint updateChildren (rec : string -> Body -> option Body)
    (parentName : string) (children : list string) (b : Body)
    : option Body :=
  match children with
  | [] => Some b
  | childName :: rest =>
      match getSegment b childName, getSegment b parentName with
      | Some _, Some parentSegment =>
          match rec childName
                  (setSegment childName (setStart (getEnd parentSegment)) b)
          with
          | Some b' => updateChildren rec parentName rest b'
          | None => None
          end
      | _, _ => updateChildren rec parentName rest b
      end
  end.

(** [updateChildSegments]; [fuel] bounds the depth of the recursion. *)
Fixpoint updateChildSegments (fuel : nat) (parentName : string) (b : Body)
    : option Body :=
  match fuel with
  | O => None
  | S fuel' =>
      match find parentName (connections b) with
      | None => Some b
      | Some children =>
          match getSegment b parentName with
          | None => Some b
          | Some _ =>
              updateChildren (updateChildSegments fuel') parentName children b
          end
      end
  end.

(** [rotateSegment] and [rotateSegmentTo]: the children are updated
    only when the segment reports success. *)
Definition rotateSegment (fuel : nat) (name : string) (deltaAngle : R)
    (b : Body) : option (bool * Body) :=
  match getSegment b name with
  | None => Some (false, b)
  | Some segment =>
      let success := fst (rotate deltaAngle segment) in
      let b1 := setSegment name (fun s => snd (rotate deltaAngle s)) b in
      if success then
        match updateChildSegments fuel name b1 with
        | Some b2 => Some (true, b2)
        | None => None
        end
      else Some (false, b1)
  end.

Definition rotateSegmentTo (fuel : nat) (name : string) (targetAngle : R)
    (b : Body) : option (bool * Body) :=
  match getSegment b name with
  | None => Some (false, b)
  | Some segment =>
      let success := fst (rotateTo targetAngle segment) in
      let b1 := setSegment name (fun s => snd (rotateTo targetAngle s)) b in
      if success then
        match updateChildSegments fuel name b1 with
        | Some b2 => Some (true, b2)
        | None => None
        end
      else Some (false, b1)
  end.

(** A segment is a child when some child list names it. *)
Definition isChild (b : Body) (name : string) : bool :=
  existsb (fun conn => existsb (String.eqb name) (snd conn)) (connections b).

(** The loop of [moveBaseTo] over the map of segments. *)
Fixpoint moveRoots (fuel : nat) (displacement : Vector2D)
    (names : list string) (b : Body) : option Body :=
  match names with
  | [] => Some b
  | name :: rest =>
      if negb (isChild b name) then
        match updateChildSegments fuel name
                (setSegment name
                   (fun s => setStart (Vec.plus (getStart s) displacement) s) b)
        with
        | Some b' => moveRoots fuel displacement rest b'
        | None => None
        end
      else moveRoots fuel displacement rest b
  end.

Definition moveBaseTo (fuel : nat) (newBase : Vector2D) (b : Body)
    : option Body :=
  let displacement := Vec.minus newBase (getBasePosition b) in
  let b1 := mkBody newBase (getGroundLevel b) (segments b) (connections b) in
  moveRoots fuel displacement (map fst (segments b1)) b1.

(** [countGroundContacts]: start and end of every segment. *)
Definition countGroundContacts (b : Body) : Z :=
  fold_left
    (fun count (pair : string * Segment) =>
       let count :=
         if isStartContactingGround (snd pair) (getGroundLevel b)
         then (count + 1)%Z else count in
       if isEndContactingGround (snd pair) (getGroundLevel b)
       then (count + 1)%Z else count)
    (segments b) 0%Z.

Definition hasMinimumGroundContacts (b : Body) (minContacts : Z) : bool :=
  (minContacts <=? countGroundContacts b)%Z.

(** [getSegmentsContactingGround]: the segments with an end on the
    ground. *)
Definition getSegmentsContactingGround (b : Body) : list string :=
  map fst
    (filter (fun pair : string * Segment =>
               isStartContactingGround (snd pair) (getGroundLevel b)
               || isEndContactingGround (snd pair) (getGroundLevel b))
            (segments b)).

(** [isEndPoint]: the name is not a key of [connections]. *)
Definition isEndPoint (b : Body) (segmentName : string) : bool :=
  match find segmentName (connections b) with
  | None => true
  | Some _ => false
  end.

(** The test [getSegmentsTouchingObject] applies to an end point. *)
Definition touches (segment : Segment) (object : Circle) : bool :=
  contains object (getEnd segment)
  || leb (distanceToPoint segment (getCenter object)) (getRadius object).

Definition getSegmentsTouchingObject (b : Body) (object : Circle)
    : list string :=
  map fst
    (filter (fun pair : string * Segment =>
               isEndPoint b (fst pair) && touches (snd pair) object)
            (segments b)).

(** [static_cast<size_t>] of an [int], on a 64-bit target. *)
Definition to_size_t (n : Z) : Z := (n mod 2 ^ 64)%Z.

Definition canReachObject (b : Body) (object : Circle)
    (minTouchingPoints : Z) : bool :=
  (to_size_t minTouchingPoints
   <=? Z.of_nat (List.length (getSegmentsTouchingObject b object)))%Z.

(** The loop of [updateSegments] over the roots it collected. *)
Fixpoint layoutRoots (fuel : nat) (rootSegments : list string) (b : Body)
    : option Body :=
  match rootSegments with
  | [] => Some b
  | rootName :: rest =>
      match updateChildSegments fuel rootName
              (setSegment rootName (setStart (getBasePosition b)) b)
      with
      | Some b' => layoutRoots fuel rest b'
      | None => None
      end
  end.

Definition updateSegments (fuel : nat) (b : Body) : option Body :=
  let rootSegments :=
    filter (fun name => negb (isChild b name)) (map fst (segments b)) in
  layoutRoots fuel rootSegments b.

Definition getSegmentLines (b : Body) : list (Vector2D * Vector2D) :=
  map (fun pair : string * Segment => (getStart (snd pair), getEnd (snd pair)))
      (segments b).

(** The segments and connections the constructor of [Body] adds: a
    humanoid of fourteen segments.  [junk name] is the pair of
    indeterminate limits the constructor of segment [name] reads. *)
Definition humanoid (junk : string -> R * R) (basePosition : Vector2D)
    (groundLevel : R) : Body :=
  let add name length angle lo hi :=
    addSegment (junk name) name length angle lo hi in
  let b := mkBody basePosition groundLevel [] [] in
  let b := add "torso" 60 (- M_PI / 2) (- M_PI) M_PI b in
  let b := add "head" 30 (- M_PI / 2) (- M_PI / 4) (M_PI / 4) b in
  let b := connectSegment "torso" "head" b in
  let b := add "left_upper_arm" 40 (- M_PI) (- M_PI) 0 b in
  let b := connectSegment "torso" "left_upper_arm" b in
  let b := add "left_lower_arm" 40 (- M_PI) (- M_PI) 0 b in
  let b := connectSegment "left_upper_arm" "left_lower_arm" b in
  let b := add "left_hand" 20 (- M_PI) (- M_PI / 2) (M_PI / 2) b in
  let b := connectSegment "left_lower_arm" "left_hand" b in
  let b := add "right_upper_arm" 40 0 0 M_PI b in
  let b := connectSegment "torso" "right_upper_arm" b in
  let b := add "right_lower_arm" 40 0 0 M_PI b in
  let b := connectSegment "right_upper_arm" "right_lower_arm" b in
  let b := add "right_hand" 20 0 (- M_PI / 2) (M_PI / 2) b in
  let b := connectSegment "right_lower_arm" "right_hand" b in
  let b := add "left_upper_leg" 50 (M_PI / 2) 0 M_PI b in
  let b := connectSegment "torso" "left_upper_leg" b in
  let b := add "left_lower_leg" 50 (M_PI / 2) 0 M_PI b in
  let b := connectSegment "left_upper_leg" "left_lower_leg" b in
  let b := add "left_foot" 30 0 (- M_PI / 4) (M_PI / 4) b in
  let b := connectSegment "left_lower_leg" "left_foot" b in
  let b := add "right_upper_leg" 50 (M_PI / 2) 0 M_PI b in
  let b := connectSegment "torso" "right_upper_leg" b in
  let b := add "right_lower_leg" 50 (M_PI / 2) 0 M_PI b in
  let b := connectSegment "right_upper_leg" "right_lower_leg" b in
  let b := add "right_foot" 30 0 (- M_PI / 4) (M_PI / 4) b in
  connectSegment "right_lower_leg" "right_foot" b.

(** The constructor: the humanoid, then one layout pass. *)
Definition Body_new (junk : string -> R * R) (fuel : nat)
    (basePosition : Vector2D) (groundLevel : R) : option Body :=
  updateSegments fuel (humanoid junk basePosition groundLevel).

(** The connection invariant of the specification: along every
    recorded edge the child starts where its parent ends, up to the
    tolerance of [Vector2D::operator==]. *)
Definition edgeHolds (b : Body) (parentName childName : string) : Prop :=
  forall parent child,
    getSegment b parentName = Some parent ->
    getSegment b childName = Some child ->
    Vec.equal (getStart child) (getEnd parent) = true.

Definition connected (b : Body) : Prop :=
  forall parentName children childName,
    find parentName (connections b) = Some children ->
    In childName children ->
    edgeHolds b parentName childName.

(** ** WalkerStrategy (WalkerStrategy.cpp) *)

(** [Move]: the tag with the fields a move of that type sets. *)
Inductive Move : Type :=
| WALK (position : Vector2D)
| REACH (segmentName : string) (position : Vector2D) (rotationAmount : R)
| GRAB.


(** The strategy's own fields; [logger] tells whether a logger is
    attached (what it prints is not modelled). *)
Record WalkerStrategy : Type := mkWalker {
  logger : bool;
  walkSpeed : R;
  plannedMoves : list Move;
  objectCaught : bool;
  currentMoveIndex : Z;
  minGroundContacts : Z;
  minObjectContacts : Z
}.

Definition WalkerStrategy_new (speed : R) : WalkerStrategy :=
  mkWalker false speed [] false 0 2 3.

Definition isSequenceComplete (w : WalkerStrategy) : bool :=
  match plannedMoves w with [] => true | _ => false end.

(** [addWalkingSequence]: the moves it pushes. *)
Definition addWalkingSequence (w : WalkerStrategy) (b : Body)
    (targetPos : Vector2D) : list Move :=
  let startPos := getBasePosition b in
  let distance := Vec.magnitude (Vec.minus targetPos startPos) in
  let reachDistance := 50 in
  let walkingDistance := distance - reachDistance in
  if leb walkingDistance 0 then []
  else
    let numWalkingSteps := trunc (walkingDistance / walkSpeed w) in
    let stepVector :=
      Vec.times (Vec.normalize (Vec.minus targetPos startPos)) (walkSpeed w) in
    map (fun i : nat =>
           WALK (Vec.plus startPos (Vec.times stepVector (INR (i + 1)))))
        (seq 0 (Z.to_nat numWalkingSteps)).

(** [while (r > M_PI) r -= 2 * M_PI;] *)
Fixpoint wrapAbove (fuel : nat) (r : R) : option R :=
  match fuel with
  | O => None
  | S fuel' => if ltb M_PI r then wrapAbove fuel' (r - 2 * M_PI) else Some r
  end.

(** [while (r < -M_PI) r += 2 * M_PI;] *)
Fixpoint wrapBelow (fuel : nat) (r : R) : option R :=
  match fuel with
  | O => None
  | S fuel' => if ltb r (- M_PI) then wrapBelow fuel' (r + 2 * M_PI) else Some r
  end.

Definition reachingSegments : list string :=
  ["left_lower_arm"; "right_lower_arm"; "left_hand"; "right_hand"].

(** The loop of [addReachingSequence] over the four arm segments. *)
Fixpoint addReachMoves (fuel : nat) (b : Body) (targetPos : Vector2D)
    (names : list string) : option (list Move) :=
  match names with
  | [] => Some []
  | segmentName :: rest =>
      match getSegment b segmentName with
      | None => addReachMoves fuel b targetPos rest
      | Some segment =>
          let toTarget := Vec.minus targetPos (getStart segment) in
          let targetAngle := atan2 (y toTarget) (x toTarget) in
          match wrapAbove fuel (targetAngle - getAngle segment) with
          | None => None
          | Some r1 =>
              match wrapBelow fuel r1, addReachMoves fuel b targetPos rest with
              | Some r2, Some moves =>
                  Some (REACH segmentName targetPos r2 :: moves)
              | _, _ => None
              end
          end
      end
  end.

Definition addReachingSequence (fuel : nat) (b : Body) (targetPos : Vector2D)
    : option (list Move) :=
  match addReachMoves fuel b targetPos reachingSegments with
  | Some moves => Some (moves ++ [GRAB])
  | None => None
  end.

(** [planSequence(objectPosition)]. *)
Definition planSequenceAt (fuel : nat) (objectPosition : Vector2D)
    (w : WalkerStrategy) (b : Body) : option WalkerStrategy :=
  match addReachingSequence fuel b objectPosition with
  | Some reach =>
      Some (mkWalker (logger w) (walkSpeed w)
              (addWalkingSequence w b objectPosition ++ reach)
              false 0 (minGroundContacts w) (minObjectContacts w))
  | None => None
  end.

(** [planSequence()]: nothing is planned without a target. *)
Definition planSequence (fuel : nat) (w : WalkerStrategy) (b : Body)
    (target : option Circle) : option WalkerStrategy :=
  match target with
  | None => Some w
  | Some t => planSequenceAt fuel (getCenter t) w b
  end.

Definition executeWalkMove (fuel : nat) (w : WalkerStrategy)
    (position : Vector2D) (b : Body) : option (bool * Body) :=
  if negb (hasMinimumGroundContacts b (minGroundContacts w)) then
    Some (false, b)
  else
    match moveBaseTo fuel position b with
    | Some b' => Some (true, b')
    | None => None
    end.

Definition executeReachMove (fuel : nat) (w : WalkerStrategy)
    (segmentName : string) (rotationAmount : R) (b : Body)
    : option (bool * Body) :=
  if negb (hasMinimumGroundContacts b (minGroundContacts w)) then
    Some (false, b)
  else
    match getSegment b segmentName with
    | None => Some (false, b)
    | Some _ => rotateSegment fuel segmentName rotationAmount b
    end.

(** [executeNextMove]: the result, the strategy and the shared Body
    after the call.  [None] stands for a call that does not return
    (unbounded recursion over a cyclic body, or the dereference of a
    null target by a grab). *)
Definition executeNextMove (fuel : nat) (w : WalkerStrategy) (b : Body)
    (target : option Circle) : option (bool * WalkerStrategy * Body) :=
  match plannedMoves w with
  | [] => Some (false, w, b)
  | currentMove :: rest =>
      let bump (i : Z) := if logger w then (i + 1)%Z else i in
      let popped caught :=
        mkWalker (logger w) (walkSpeed w) rest caught
                 (bump (currentMoveIndex w))
                 (minGroundContacts w) (minObjectContacts w) in
      match currentMove with
      | WALK position =>
          match executeWalkMove fuel w position b with
          | Some (success, b') => Some (success, popped (objectCaught w), b')
          | None => None
          end
      | REACH segmentName _ rotationAmount =>
          match executeReachMove fuel w segmentName rotationAmount b with
          | Some (success, b') => Some (success, popped (objectCaught w), b')
          | None => None
          end
      | GRAB =>
          match target with
          | None => None
          | Some t =>
              if canReachObject b t (minObjectContacts w)
              then Some (true, popped true, b)
              else Some (false, popped (objectCaught w), b)
          end
      end
  end.

(** ** BodyBuilder (BodyBuilder.cpp) *)

Module Builder.

(** [SegmentSpec] and the builder: the specifications are a
    [std::map], kept in key order, the connections a [std::vector]. *)
Record SegmentSpec : Type := mkSegmentSpec {
  length : R;
  angle : R;
  minAngle : R;
  maxAngle : R
}.

Record BodyBuilder : Type := mkBodyBuilder {
  basePosition : Vector2D;
  groundLevel : R;
  segmentSpecs : list (string * SegmentSpec);
  connections : list (string * string)
}.

(** The constructor. *)
Definition create : BodyBuilder :=
  mkBodyBuilder (mkVector2D 100 400) 400 [] [].

Definition setBasePosition (position : Vector2D) (bd : BodyBuilder)
    : BodyBuilder :=
  mkBodyBuilder position (groundLevel bd) (segmentSpecs bd) (connections bd).

Definition setGroundLevel (level : R) (bd : BodyBuilder) : BodyBuilder :=
  mkBodyBuilder (basePosition bd) level (segmentSpecs bd) (connections bd).

(** [segmentSpecs[name] = spec]. *)
Definition addSegment (name : string) (length angle minAngle maxAngle : R)
    (bd : BodyBuilder) : BodyBuilder :=
  mkBodyBuilder (basePosition bd) (groundLevel bd)
    (insert name (mkSegmentSpec length angle minAngle maxAngle)
            (segmentSpecs bd))
    (connections bd).

Definition connectSegments (parentName childName : string) (bd : BodyBuilder)
    : BodyBuilder :=
  mkBodyBuilder (basePosition bd) (groundLevel bd) (segmentSpecs bd)
    (connections bd ++ [(parentName, childName)]).

(** [reset] keeps the base position and the ground level. *)
Definition reset (bd : BodyBuilder) : BodyBuilder :=
  mkBodyBuilder (basePosition bd) (groundLevel bd) [] [].

Definition buildHumanoidBody (bd : BodyBuilder) : BodyBuilder :=
  let bd := reset bd in
  let bd := addSegment "torso" 60 (- M_PI / 2) (- M_PI) M_PI bd in
  let bd := addSegment "head" 30 (- M_PI / 2) (- M_PI / 4) (M_PI / 4) bd in
  let bd := connectSegments "torso" "head" bd in
  let bd := addSegment "left_upper_arm" 40 (- M_PI) (- M_PI) 0 bd in
  let bd := connectSegments "torso" "left_upper_arm" bd in
  let bd := addSegment "left_lower_arm" 40 (- M_PI) (- M_PI) 0 bd in
  let bd := connectSegments "left_upper_arm" "left_lower_arm" bd in
  let bd := addSegment "left_hand" 20 (- M_PI) (- M_PI / 2) (M_PI / 2) bd in
  let bd := connectSegments "left_lower_arm" "left_hand" bd in
  let bd := addSegment "right_upper_arm" 40 0 0 M_PI bd in
  let bd := connectSegments "torso" "right_upper_arm" bd in
  let bd := addSegment "right_lower_arm" 40 0 0 M_PI bd in
  let bd := connectSegments "right_upper_arm" "right_lower_arm" bd in
  let bd := addSegment "right_hand" 20 0 (- M_PI / 2) (M_PI / 2) bd in
  let bd := connectSegments "right_lower_arm" "right_hand" bd in
  let bd := addSegment "left_upper_leg" 50 (M_PI / 2) 0 M_PI bd in
  let bd := connectSegments "torso" "left_upper_leg" bd in
  let bd := addSegment "left_lower_leg" 50 (M_PI / 2) 0 M_PI bd in
  let bd := connectSegments "left_upper_leg" "left_lower_leg" bd in
  let bd := addSegment "left_foot" 30 0 (- M_PI / 4) (M_PI / 4) bd in
  let bd := connectSegments "left_lower_leg" "left_foot" bd in
  let bd := addSegment "right_upper_leg" 50 (M_PI / 2) 0 M_PI bd in
  let bd := connectSegments "torso" "right_upper_leg" bd in
  let bd := addSegment "right_lower_leg" 50 (M_PI / 2) 0 M_PI bd in
  let bd := connectSegments "right_upper_leg" "right_lower_leg" bd in
  let bd := addSegment "right_foot" 30 0 (- M_PI / 4) (M_PI / 4) bd in
  connectSegments "right_lower_leg" "right_foot" bd.

Definition buildSimpleBody (bd : BodyBuilder) : BodyBuilder :=
  let bd := reset bd in
  let bd := addSegment "torso" 50 (- M_PI / 2) (- M_PI) M_PI bd in
  let bd := addSegment "left_arm" 40 (- 3 * M_PI / 4) (- M_PI) 0 bd in
  let bd := connectSegments "torso" "left_arm" bd in
  let bd := addSegment "right_arm" 40 (- M_PI / 4) 0 M_PI bd in
  let bd := connectSegments "torso" "right_arm" bd in
  let bd := addSegment "left_leg" 50 (M_PI / 2) 0 M_PI bd in
  let bd := connectSegments "torso" "left_leg" bd in
  let bd := addSegment "right_leg" 50 (M_PI / 2) 0 M_PI bd in
  connectSegments "torso" "right_leg" bd.

(** The two loops of [build] over the specifications and over the
    connections. *)
Definition addSegments (junk : string -> R * R)
    (specs : list (string * SegmentSpec)) (body : Body) : Body :=
  fold_left
    (fun body (pair : string * SegmentSpec) =>
       Kin.addSegment (junk (fst pair)) (fst pair)
         (length (snd pair)) (angle (snd pair))
         (minAngle (snd pair)) (maxAngle (snd pair)) body)
    specs body.

Definition connectAll (conns : list (string * string)) (body : Body) : Body :=
  fold_left
    (fun body (conn : string * string) =>
       connectSegment (fst conn) (snd conn) body)
    conns body.

(** [build]: the Body is made by its constructor, which has already
    added the humanoid; then the segments and the connections of the
    builder are added, and the Body is laid out. *)
Definition build (junk : string -> R * R) (fuel : nat) (bd : BodyBuilder)
    : option Body :=
  match Body_new junk fuel (basePosition bd) (groundLevel bd) with
  | None => None
  | Some body =>
      updateSegments fuel
        (connectAll (connections bd)
           (addSegments junk (segmentSpecs bd) body))
  end.

End Builder.

End Kin.

(* ================================================================== *)
(** * Part II bis.  The simulation that drives the strategies          *)
(* ================================================================== *)

Module Sim.

(** ** Simulation (Simulation.cpp)

    What [Simulation] keeps to drive a strategy: the mode, the
    completion flag and the strategy behind [currentStrategy], a
    pointer to [MovementStrategy].  A walker comes with the Body and
    the target it shares with the simulation; the two shared pointers
    of a snowball strategy are fields of its record.  The window, the
    drawing and the logger are left out. *)

Inductive Mode : Set := WALKER | SNOWBALL.

Inductive Strategy : Type :=
| Walker (w : Kin.WalkerStrategy) (body : Kin.Body) (target : option Kin.Circle)
| Snowball (s : Ieee.SnowballStrategy).

Record Simulation : Type := mkSimulation {
  currentMode : Mode;
  simulationComplete : bool;
  currentStrategy : option Strategy
}.

(** The two virtual calls [Simulation::update] makes. *)
Definition isSequenceComplete (st : Strategy) : bool :=
  match st with
  | Walker w _ _ => Kin.isSequenceComplete w
  | Snowball s => Ieee.isSequenceComplete s
  end.

(** The result of the move is dropped by the caller. *)
Definition executeNextMove (fuel : nat) (st : Strategy) : option Strategy :=
  match st with
  | Walker w b t =>
      match Kin.executeNextMove fuel w b t with
      | Some (_, w', b') => Some (Walker w' b' t)
      | None => None
      end
  | Snowball s =>
      match Ieee.executeNextMove s with
      | Some (_, s') => Some (Snowball s')
      | None => None
      end
  end.

(** [initializeWalkerMode] and [initializeSnowballMode]: the strategy
    is constructed with its defaults (walk speed 5.0; radius 10.0 and
    gravity 9.8), given the logger, and asked to plan. *)
Definition initializeWalkerMode (fuel : nat) (body : Kin.Body)
    (target : Kin.Circle) : option Strategy :=
  let w := Kin.WalkerStrategy_new 5 in
  let w := Kin.mkWalker true (Kin.walkSpeed w) (Kin.plannedMoves w)
             (Kin.objectCaught w) (Kin.currentMoveIndex w)
             (Kin.minGroundContacts w) (Kin.minObjectContacts w) in
  match Kin.planSequenceAt fuel (Kin.getCenter target) w body with
  | Some w' => Some (Walker w' body (Some target))
  | None => None
  end.

Definition initializeSnowballMode (body : option Ieee.Body)
    (target : option Ieee.Circle) : Strategy :=
  Snowball (Ieee.planSequence (Ieee.create body target 10 9.8)).

(** [update]: nothing once the simulation is complete; otherwise one
    move of a strategy that is not complete, or the completion flag;
    then, in snowball mode, a tick of the snowball if it is active. *)
Definition update (fuel : nat) (deltaTime : float) (sim : Simulation)
    : option Simulation :=
  if simulationComplete sim then Some sim
  else
    let moved :=
      match currentStrategy sim with
      | Some st =>
          if negb (isSequenceComplete st) then
            match executeNextMove fuel st with
            | Some st' => Some (mkSimulation (currentMode sim) false (Some st'))
            | None => None
            end
          else Some (mkSimulation (currentMode sim) true (Some st))
      | None => Some sim
      end in
    match moved with
    | Some sim1 =>
        match currentMode sim1, currentStrategy sim1 with
        | SNOWBALL, Some (Snowball s) =>
            if Ieee.active s then
              Some (mkSimulation SNOWBALL (simulationComplete sim1)
                      (Some (Snowball (Ieee.update deltaTime s))))
            else Some sim1
        | _, _ => Some sim1
        end
    | None => None
    end.

Definition isComplete (sim : Simulation) : bool := simulationComplete sim.

(** One call of [update] for each time step of the list. *)
Fixpoint updates (fuel : nat) (deltaTimes : list float) (sim : Simulation)
    : option Simulation :=
  match deltaTimes with
  | [] => Some sim
  | deltaTime :: rest =>
      match update fuel deltaTime sim with
      | Some sim' => updates fuel rest sim'
      | None => None
      end
  end.

End Sim.

(* ================================================================== *)
(** * Part III.  The projectile: division by zero, aim, collisions     *)
(* ================================================================== *)

Section Projectile.

Import Ieee.
Local Open Scope float_scope.

(** ** Vector2D: scalar division *)

(** C10.  Dividing a vector by a scalar that compares equal to zero
    (either signed zero) returns the vector as it is, for [operator/]
    and for [operator/=]: no component changes, so a finite vector
    stays finite and no NaN or infinity is produced. *)
Theorem div_by_zero_unchanged :
  forall (v : Vector2D) (scalar : float),
    (scalar =? 0) = true ->
    div v scalar = v /\ div_assign v scalar = v /\
    (finiteV v = true ->
     finiteV (div v scalar) = true /\ finiteV (div_assign v scalar) = true).
Proof.
  intros v scalar Hz.
  assert (Hd : div v scalar = v) by (unfold div; now rewrite Hz).
  assert (Ha : div_assign v scalar = v) by (unfold div_assign; now rewrite Hz).
  rewrite Hd, Ha. auto.
Qed.

Lemma div_by_zero_unchanged_witness :
  (div (mkVector2D 3 4) 0 = mkVector2D 3 4
   /\ div_assign (mkVector2D 3 4) 0 = mkVector2D 3 4
   /\ (finiteV (mkVector2D 3 4) = true ->
       finiteV (div (mkVector2D 3 4) 0) = true
       /\ finiteV (div_assign (mkVector2D 3 4) 0) = true))
  /\ div (mkVector2D 3 4) (-0) = mkVector2D 3 4.
Proof.
  split.
  - apply (div_by_zero_unchanged (mkVector2D 3 4) 0). reflexivity.
  - apply (div_by_zero_unchanged (mkVector2D 3 4) (-0)). reflexivity.
Defined.

(** ** SnowballStrategy: the aim computation *)

(** An idle strategy whose two pointers are set always throws:
    [executeNextMove] has no test on the argument of the square
    root, nor on the velocity it stores. *)
Lemma idle_strategy_always_throws :
  forall s b t,
    body s = Some b -> target s = Some t ->
    active s = false -> hitTarget s = false -> hitGround s = false ->
    exists s', executeNextMove s = Some (true, s') /\ active s' = true.
Proof.
  intros s b t Hb Ht Ha Hh Hg. unfold executeNextMove, aim.
  rewrite Hb, Ht, Ha, Hh, Hg. cbn [negb andb].
  destruct ((x (position s) =? 0) && (y (position s) =? 0));
    eexists; (split; [reflexivity | ]);
    unfold throwSnowball; cbn [active]; try rewrite Ha; reflexivity.
Qed.

(** The body stands at (500, 400) and the target at (100, 350), behind
    it: [dx = -400]. *)
Definition thrower_behind : SnowballStrategy :=
  create (Some (mkBody (mkVector2D 500 400) 400))
         (Some (mkCircle (mkVector2D 100 350) 20))
         10 9.8.

(** C2.  With the target behind the body ([dx / gravity < 0]) the
    throw is not rejected: [executeNextMove] returns [true], the
    strategy becomes active, and both components of the stored
    velocity are NaN. *)
Theorem degenerate_aim_is_thrown :
  ((100 - 500) / 9.8 <=? 0) = true /\
  match executeNextMove thrower_behind with
  | Some (ok, s') =>
      ok = true /\ active s' = true /\
      is_nan (x (velocity s')) = true /\ is_nan (y (velocity s')) = true
  | None => False
  end.
Proof. vm_compute. repeat split; reflexivity. Qed.

(** ** SnowballStrategy: the collision tests of a tick *)

(** In flight neither flag is set, and the two flags exclude each
    other. *)
Definition flags_consistent (s : SnowballStrategy) : Prop :=
  (active s = true -> hitTarget s = false /\ hitGround s = false)
  /\ (hitGround s = true -> hitTarget s = false).

Lemma flags_consistent_update :
  forall dt s, flags_consistent s -> flags_consistent (update dt s).
Proof.
  intros dt s [Ha Hx]. unfold update.
  destruct (active s) eqn:Eact; cbn [negb]; [ | split; [rewrite Eact; discriminate | exact Hx] ].
  destruct (Ha eq_refl) as [Ht Hg].
  unfold checkCollisions.
  destruct (checkGroundCollision (updatePhysics dt s)).
  - split; cbn; [discriminate | intros _; exact Ht].
  - destruct (checkTargetCollision (updatePhysics dt s)).
    + split; cbn; [discriminate | rewrite Hg; discriminate].
    + split; cbn; [intros _; now split | rewrite Hg; discriminate].
Qed.

Lemma flags_consistent_throw :
  forall s, flags_consistent s -> flags_consistent (throwSnowball s).
Proof.
  intros s H. unfold throwSnowball.
  destruct (active s) eqn:E; [exact H | ].
  split; cbn; [now split | discriminate].
Qed.

Lemma reachable_flags_consistent :
  forall s, reachable s -> flags_consistent s.
Proof.
  induction 1 as [b t r g | t s _ IH | b s _ IH | s _ IH | s _ IH
                 | p v s _ IH | s _ IH | s ok s' _ IH Hex | dt s _ IH].
  - split; cbn; [discriminate | reflexivity].
  - exact IH.
  - exact IH.
  - split; cbn; [discriminate | reflexivity].
  - split; cbn; [discriminate | reflexivity].
  - split; cbn; [discriminate | reflexivity].
  - now apply flags_consistent_throw.
  - unfold executeNextMove in Hex.
    destruct (negb (active s) && negb (hitTarget s) && negb (hitGround s)).
    + destruct ((x (position s) =? 0) && (y (position s) =? 0)).
      * unfold aim in Hex.
        destruct (body s); [ | discriminate].
        destruct (target s); [ | discriminate].
        injection Hex as _ <-.
        apply flags_consistent_throw. exact IH.
      * injection Hex as _ <-. now apply flags_consistent_throw.
    + injection Hex as _ <-. exact IH.
  - now apply flags_consistent_update.
Qed.

(** C6.  In every reachable state the two terminal flags are never
    both set.  A tick of an active projectile integrates, then tests
    the ground before the target: when the ground test holds,
    [hitGround] is set, [active] is cleared and [hitTarget] stays
    false, whatever the target test says; when only the target test
    holds, [hitTarget] is set and [active] cleared; otherwise the
    tick is the integration alone. *)
Theorem ground_checked_before_target :
  forall s, reachable s ->
    ~ (hitGround s = true /\ hitTarget s = true) /\
    forall dt, active s = true ->
      let s1 := updatePhysics dt s in
      let s2 := update dt s in
      (checkGroundCollision s1 = true ->
         hitGround s2 = true /\ hitTarget s2 = false /\ active s2 = false) /\
      (checkGroundCollision s1 = false -> checkTargetCollision s1 = true ->
         hitTarget s2 = true /\ hitGround s2 = false /\ active s2 = false) /\
      (checkGroundCollision s1 = false -> checkTargetCollision s1 = false ->
         s2 = s1).
Proof.
  intros s Hr. destruct (reachable_flags_consistent s Hr) as [Ha Hx].
  split.
  - intros [Hg Ht]. rewrite (Hx Hg) in Ht. discriminate.
  - intros dt Hact s1 s2. destruct (Ha Hact) as [Ht Hg].
    subst s1 s2. unfold update, checkCollisions. rewrite Hact. cbn [negb].
    repeat split; intros; repeat match goal with
      | H : checkGroundCollision _ = _ |- _ => rewrite H
      | H : checkTargetCollision _ = _ |- _ => rewrite H
      end; cbn; auto.
Qed.

(** A snowball prepared at (100, 350) with no velocity, gravity 9.8,
    ground level 400, and a target lying on the ground below it. *)
Definition dropped_snowball : SnowballStrategy :=
  throwSnowball
    (prepareThrow (mkVector2D 100 350) (mkVector2D 0 0)
       (create (Some (mkBody (mkVector2D 100 400) 400))
               (Some (mkCircle (mkVector2D 100 440) 20))
               10 9.8)).

Lemma ground_checked_before_target_witness :
  checkTargetCollision (updatePhysics 3 dropped_snowball) = true /\
  hitGround (update 3 dropped_snowball) = true /\
  hitTarget (update 3 dropped_snowball) = false /\
  active (update 3 dropped_snowball) = false.
Proof.
  split; [vm_compute; reflexivity | ].
  assert (Hr : reachable dropped_snowball)
    by (apply reach_throwSnowball, reach_prepareThrow, reach_create).
  apply (proj2 (ground_checked_before_target dropped_snowball Hr) 3 eq_refl).
  vm_compute. reflexivity.
Defined.

(** The ground hit of the specification: dropped from (100, 350) with
    no velocity above ground level 400, far from the target, the
    snowball (radius 10) is still in flight after 28 ticks of 0.1 and
    has hit the ground, and not the target, after the 29th. *)
Definition far_drop : SnowballStrategy :=
  throwSnowball
    (prepareThrow (mkVector2D 100 350) (mkVector2D 0 0)
       (create (Some (mkBody (mkVector2D 100 400) 400))
               (Some (mkCircle (mkVector2D 500 350) 20))
               10 9.8)).

Example ballistic_ground_hit :
  active (run 28 0.1 far_drop) = true
  /\ hitGround (run 29 0.1 far_drop) = true
  /\ hitTarget (run 29 0.1 far_drop) = false
  /\ active (run 29 0.1 far_drop) = false
  /\ (400 <=? y (position (run 29 0.1 far_drop)) + 10) = true.
Proof. vm_compute. repeat split; reflexivity. Qed.

End Projectile.

(* ================================================================== *)
(** * Part IV.  Joint limits: clampAngle and rotateTo                  *)
(* ================================================================== *)

Section Kinematics.

Import Kin.
Local Open Scope string_scope.
Local Open Scope list_scope.
Local Open Scope R_scope.

(** Evaluation of the containers, with the arithmetic left alone. *)
Ltac run :=
  lazy -[IZR Rplus Rminus Rmult Rdiv Ropp Rinv cos sin PI M_PI Rabs sqrt atan
         Int_part Rlt_dec Rle_dec Req_dec_T clampBetween std_max std_min
         ltb leb eqb Vec.EPSILON].
Ltac run_in H :=
  lazy -[IZR Rplus Rminus Rmult Rdiv Ropp Rinv cos sin PI M_PI Rabs sqrt atan
         Int_part Rlt_dec Rle_dec Req_dec_T clampBetween std_max std_min
         ltb leb eqb Vec.EPSILON] in H.


(** The first three lines of [clampAngle]: the angle brought into
    the first turn. *)
Definition normalized (a : R) : R :=
  let n := fmod a (2 * M_PI) in if ltb n 0 then n + 2 * M_PI else n.

Lemma ltb_true a b : a < b -> ltb a b = true.
Proof. intros. unfold ltb. destruct (Rlt_dec a b); [reflexivity | contradiction]. Qed.
Lemma ltb_false a b : ~ a < b -> ltb a b = false.
Proof. intros. unfold ltb. destruct (Rlt_dec a b); [contradiction | reflexivity]. Qed.
Lemma leb_true a b : a <= b -> leb a b = true.
Proof. intros. unfold leb. destruct (Rle_dec a b); [reflexivity | contradiction]. Qed.
Lemma leb_false a b : ~ a <= b -> leb a b = false.
Proof. intros. unfold leb. destruct (Rle_dec a b); [contradiction | reflexivity]. Qed.

Lemma eqb_true a b : a = b -> eqb a b = true.
Proof. intros. unfold eqb. destruct (Req_dec_T a b); [reflexivity | contradiction]. Qed.
Lemma eqb_false a b : a <> b -> eqb a b = false.
Proof. intros. unfold eqb. destruct (Req_dec_T a b); [contradiction | reflexivity]. Qed.

(** What the library knows of [PI]: [3 < PI <= 4]. *)
Lemma two_pi_bounds : 6 < 2 * M_PI <= 8.
Proof. unfold M_PI. generalize PI2_3_2 PI_4. lra. Qed.

(** The normalised angle is the representative of [a] modulo a full
    turn that lies in the first turn. *)
Lemma normalized_spec (a : R) (k : Z) :
  0 <= a - IZR k * (2 * M_PI) < 2 * M_PI ->
  normalized a = a - IZR k * (2 * M_PI).
Proof.
  intros H. pose proof two_pi_bounds as Hb.
  set (b := 2 * M_PI) in *.
  assert (Hq : a = a / b * b) by (field; lra).
  assert (Hk : IZR k <= a / b < IZR k + 1).
  { split.
    - apply Rmult_le_reg_r with b; [lra | rewrite <- Hq; lra].
    - apply Rmult_lt_reg_r with b; [lra | rewrite <- Hq; lra]. }
  unfold normalized, fmod, trunc. fold b.
  destruct (Rle_dec 0 (a / b)) as [Hpos | Hneg].
  - rewrite leb_true by assumption.
    assert (Hi : k = Int_part (a / b)) by (apply Int_part_spec; lra).
    rewrite <- Hi. rewrite ltb_false by lra. reflexivity.
  - rewrite leb_false by assumption.
    destruct (Req_dec_T (a / b) (IZR k)) as [Heq | Hne].
    + assert (Hi : (- k)%Z = Int_part (- (a / b))).
      { apply Int_part_spec. rewrite opp_IZR. lra. }
      rewrite <- Hi, Z.opp_involutive.
      rewrite ltb_false by lra. reflexivity.
    + assert (Hi : (- k - 1)%Z = Int_part (- (a / b))).
      { apply Int_part_spec. rewrite minus_IZR, opp_IZR. lra. }
      rewrite <- Hi.
      replace (- (- k - 1))%Z with (k + 1)%Z by lia.
      rewrite plus_IZR.
      rewrite ltb_true; [lra | ].
      assert (a / b * b < (IZR k + 1) * b) by (apply Rmult_lt_compat_r; lra).
      lra.
Qed.

Lemma normalized_floor (a : R) :
  normalized a = a - IZR (Int_part (a / (2 * M_PI))) * (2 * M_PI).
Proof.
  apply normalized_spec. pose proof two_pi_bounds as Hb.
  set (b := 2 * M_PI) in *.
  destruct (base_Int_part (a / b)) as [H1 H2].
  assert (Hq : a = a / b * b) by (field; lra).
  set (k := IZR (Int_part (a / b))) in *.
  assert (k * b <= a / b * b) by (apply Rmult_le_compat_r; lra).
  assert (a / b * b < (k + 1) * b) by (apply Rmult_lt_compat_r; lra).
  lra.
Qed.

Lemma normalized_range (a : R) : 0 <= normalized a < 2 * M_PI.
Proof.
  rewrite normalized_floor. pose proof two_pi_bounds as Hb.
  set (b := 2 * M_PI) in *.
  destruct (base_Int_part (a / b)) as [H1 H2].
  assert (Hq : a = a / b * b) by (field; lra).
  set (k := IZR (Int_part (a / b))) in *.
  assert (k * b <= a / b * b) by (apply Rmult_le_compat_r; lra).
  assert (a / b * b < (k + 1) * b) by (apply Rmult_lt_compat_r; lra).
  lra.
Qed.

Lemma normalized_id (a : R) : 0 <= a < 2 * M_PI -> normalized a = a.
Proof.
  intros H. rewrite (normalized_spec a 0); lra.
Qed.

Lemma clampBetween_eq (lo hi a : R) :
  clampBetween lo hi a =
  let n := normalized a in
  if leb lo hi then std_min (std_max n lo) hi
  else if leb lo n || leb n hi then n
  else
    if leb (std_min (Rabs (n - lo)) (Rabs (n - (lo - 2 * M_PI))))
           (std_min (Rabs (n - hi)) (Rabs (n - (hi + 2 * M_PI))))
    then lo else hi.
Proof. reflexivity. Qed.

(** The three values a clamp can return. *)
Lemma clampBetween_cases (lo hi a : R) :
  clampBetween lo hi a = normalized a
  \/ clampBetween lo hi a = lo \/ clampBetween lo hi a = hi.
Proof.
  rewrite clampBetween_eq. cbv zeta. unfold std_min, std_max.
  repeat match goal with |- context [if ?c then _ else _] => destruct c end; auto.
Qed.

Lemma clip_spec (lo hi n : R) :
  lo <= hi ->
  (n < lo /\ std_min (std_max n lo) hi = lo)
  \/ (lo <= n <= hi /\ std_min (std_max n lo) hi = n)
  \/ (hi < n /\ std_min (std_max n lo) hi = hi).
Proof.
  intros Hle. unfold std_max, ltb.
  destruct (Rlt_dec n lo); unfold std_min, ltb.
  - destruct (Rlt_dec hi lo); [lra | left; split; [assumption | reflexivity]].
  - destruct (Rlt_dec hi n); [right; right; split; [assumption | reflexivity] | ].
    right; left. split; [lra | reflexivity].
Qed.










(** The normalised angle [n] lies in the joint range, wrapping or
    not. *)
Definition inRange (s : Segment) (n : R) : Prop :=
  (getMinAngle s <= getMaxAngle s /\ getMinAngle s <= n <= getMaxAngle s)
  \/ (getMaxAngle s < getMinAngle s /\ (getMinAngle s <= n \/ n <= getMaxAngle s)).

Lemma clampAngle_inRange (s : Segment) (t : R) :
  inRange s (normalized t) -> clampAngle s t = normalized t.
Proof.
  unfold clampAngle. rewrite clampBetween_eq. cbv zeta.
  intros [[Hle Hin] | [Hw Hin]].
  - rewrite leb_true by lra.
    destruct (clip_spec (getMinAngle s) (getMaxAngle s) (normalized t))
      as [[Hd ->] | [[Hd ->] | [Hd ->]]]; lra.
  - rewrite leb_false by lra.
    destruct Hin as [Hin | Hin].
    + rewrite (leb_true (getMinAngle s)) by assumption. reflexivity.
    + rewrite (leb_true _ (getMaxAngle s)) by assumption.
      now rewrite orb_true_r.
Qed.

(** C9 (amended).  For a target outside [[0, 2 pi)] the stored angle is
    the clamp of the target, and [rotateTo] reports a constrained
    rotation ([false]) unless the target is itself one of the two
    limits; in particular it reports [false], and stores the
    normalised angle, whenever the normalised target lies within
    the joint range. *)
Theorem rotateTo_outside_first_turn :
  forall (s : Segment) (targetAngle : R),
    ~ (0 <= targetAngle < 2 * M_PI) ->
    getAngle (snd (rotateTo targetAngle s)) = clampAngle s targetAngle
    /\ (targetAngle <> getMinAngle s -> targetAngle <> getMaxAngle s ->
        fst (rotateTo targetAngle s) = false)
    /\ (inRange s (normalized targetAngle) ->
        fst (rotateTo targetAngle s) = false
        /\ getAngle (snd (rotateTo targetAngle s)) = normalized targetAngle).
Proof.
  intros s t Hout. pose proof (normalized_range t) as Hn.
  assert (Hne : normalized t <> t) by (intros E; rewrite E in Hn; tauto).
  unfold rotateTo. cbn [fst snd getAngle]. rewrite negb_involutive.
  split; [reflexivity | split].
  - intros Hlo Hhi. unfold eqb.
    destruct (Req_dec_T (clampAngle s t) t) as [E | ]; [ | reflexivity].
    unfold clampAngle in E.
    destruct (clampBetween_cases (getMinAngle s) (getMaxAngle s) t)
      as [C | [C | C]]; rewrite C in E; congruence.
  - intros Hin. rewrite (clampAngle_inRange s t Hin).
    split; [ | reflexivity]. now apply eqb_false.
Qed.

Definition shoulder_joint : Segment :=
  mkSegment "right_upper_arm" (mkVector2D 0 0) 40 0 0 M_PI.

Lemma rotateTo_outside_first_turn_witness :
  fst (rotateTo (17 / 2) shoulder_joint) = false
  /\ getAngle (snd (rotateTo (17 / 2) shoulder_joint)) = 17 / 2 - 2 * M_PI.
Proof.
  pose proof two_pi_bounds as Hb.
  assert (Hout : ~ (0 <= 17 / 2 < 2 * M_PI)) by lra.
  destruct (rotateTo_outside_first_turn shoulder_joint (17 / 2) Hout)
    as [_ [_ Hin]].
  rewrite (normalized_spec (17 / 2) 1) in Hin by lra.
  destruct Hin as [Hf Ha];
    [left; cbn [getMinAngle getMaxAngle shoulder_joint]; lra | ].
  split; [exact Hf | rewrite Ha; lra].
Defined.

(** A joint whose two limits are negative. *)
Definition negative_joint : Segment :=
  mkSegment "joint" (mkVector2D 0 0) 40 (-1) (-2) (-1).

(** The target -1 is outside the first turn, is normalised to
    [2 pi - 1], clamped back to the upper limit -1, and so compares
    equal to the request: [rotateTo] reports success. *)
Lemma rotateTo_limit_reports_success :
  ~ (0 <= -1 < 2 * M_PI) /\ fst (rotateTo (-1) negative_joint) = true.
Proof.
  pose proof two_pi_bounds as Hb. split; [lra | ].
  unfold rotateTo. cbn [fst]. rewrite negb_involutive.
  apply eqb_true. unfold clampAngle, negative_joint.
  cbn [getMinAngle getMaxAngle]. rewrite clampBetween_eq. cbv zeta.
  rewrite leb_true by lra.
  rewrite (normalized_spec (-1) (-1)) by lra.
  destruct (clip_spec (-2) (-1) (-1 - -1 * (2 * M_PI)))
    as [[Hd ->] | [[Hd ->] | [Hd ->]]]; lra.
Qed.


(* ================================================================== *)
(** * Part V.  The connection invariant                                *)
(* ================================================================== *)

Lemma std_max_floor (l : R) : 1 / 10 < l -> std_max (1 / 10) l = l.
Proof. intros. unfold std_max. now rewrite ltb_true. Qed.

Lemma clamp_arm_zero : clampBetween 0 M_PI 0 = 0.
Proof.
  pose proof two_pi_bounds. rewrite clampBetween_eq. cbv zeta.
  rewrite leb_true by lra. rewrite normalized_id by lra.
  destruct (clip_spec 0 M_PI 0) as [[Hd ->] | [[Hd ->] | [Hd ->]]]; lra.
Qed.

Lemma clamp_arm_five : clampBetween 0 M_PI (0 + 5) = M_PI.
Proof.
  pose proof two_pi_bounds. rewrite clampBetween_eq. cbv zeta.
  rewrite leb_true by lra. rewrite normalized_id by lra.
  destruct (clip_spec 0 M_PI (0 + 5)) as [[Hd ->] | [[Hd ->] | [Hd ->]]]; lra.
Qed.

(** C1.  On the humanoid the constructor builds, whatever the
    indeterminate values it read: [rotateSegmentTo] brings the right
    upper arm to angle 0 and reports success, and the lower arm starts
    where the upper arm ends.  [rotateSegment] by 5 is then clamped
    to the limit [pi]: it reports [false], the angle has changed, the
    children were not updated, and the lower arm now starts 80 units
    from the end of its parent: the connection invariant is broken. *)
Theorem clamped_rotation_detaches_child :
  forall (junk : string -> R * R) (base : Vector2D) (ground : R),
  exists b0 b1 b2,
    Body_new junk 16 base ground = Some b0
    /\ rotateSegmentTo 16 "right_upper_arm" 0 b0 = Some (true, b1)
    /\ edgeHolds b1 "right_upper_arm" "right_lower_arm"
    /\ rotateSegment 16 "right_upper_arm" 5 b1 = Some (false, b2)
    /\ find "right_upper_arm" (connections b2) = Some ["right_lower_arm"]
    /\ ~ edgeHolds b2 "right_upper_arm" "right_lower_arm"
    /\ ~ connected b2.
Proof.
  intros junk base ground.
  eexists. eexists. eexists.
  split; [run; reflexivity | ].
  split.
  { unfold rotateSegmentTo. run.
    rewrite clamp_arm_zero, (eqb_true 0 0) by reflexivity.
    rewrite !std_max_floor by lra.
    cbn [negb]. reflexivity. }
  split.
  { intros parent child Hp Hc. run_in Hp. run_in Hc.
    injection Hp as <-. injection Hc as <-.
    run. rewrite ltb_true; [rewrite ltb_true; [reflexivity | ] | ].
    all: unfold Vec.EPSILON; rewrite Rabs_right; lra. }
  split.
  { unfold rotateSegment. run.
    rewrite clamp_arm_five.
    rewrite (eqb_false M_PI (0 + 5)) by (pose proof two_pi_bounds; lra).
    cbn [negb]. reflexivity. }
  split; [reflexivity | ].
  match goal with |- ~ edgeHolds ?b _ _ /\ _ =>
    assert (Hbroken : ~ edgeHolds b "right_upper_arm" "right_lower_arm") end.
  2: { split; [exact Hbroken | ].
       intros Hall. apply Hbroken.
       apply (Hall "right_upper_arm" ["right_lower_arm"] "right_lower_arm");
         [reflexivity | left; reflexivity]. }
  intros Hedge.
  specialize (Hedge _ _ eq_refl eq_refl). run_in Hedge.
  unfold M_PI in Hedge. rewrite cos_0, cos_PI in Hedge.
  apply andb_prop in Hedge. destruct Hedge as [Hx _].
  unfold ltb in Hx.
  match type of Hx with (if Rlt_dec ?a ?b then _ else _) = _ =>
    destruct (Rlt_dec a b) as [Hlt | ]; [ | discriminate] end.
  unfold Vec.EPSILON in Hlt. rewrite Rabs_right in Hlt; lra.
Qed.


(* ================================================================== *)
(** * Part VI.  The layout pass                                        *)
(* ================================================================== *)

(** The indeterminate limits of the constructor, for the examples. *)
Definition stand_junk (name : string) : R * R := (0, 0).

(** Two segments that differ at most in where they start. *)
Definition sameJoint (s s' : Segment) : Prop :=
  getId s = getId s' /\ getLength s = getLength s' /\ getAngle s = getAngle s'
  /\ getMinAngle s = getMinAngle s' /\ getMaxAngle s = getMaxAngle s'.

Lemma sameJoint_eq s s' :
  sameJoint s s' -> getStart s = getStart s' -> s = s'.
Proof.
  destruct s, s'. unfold sameJoint. cbn. intros (-> & -> & -> & -> & ->) ->.
  reflexivity.
Qed.

Lemma sameJoint_refl s : sameJoint s s.
Proof. repeat split. Qed.

Lemma sameJoint_setStart v s s' :
  sameJoint s s' -> sameJoint (setStart v s) (setStart v s').
Proof. unfold sameJoint, setStart. cbn. tauto. Qed.

(** [since e e' l l']: four lists of segments with the same keys
    and joints, where at each position [l] and [l'] are equal, or are
    still what [e] and [e'] were. *)
Inductive since :
  list (string * Segment) -> list (string * Segment) ->
  list (string * Segment) -> list (string * Segment) -> Prop :=
| since_nil : since [] [] [] []
| since_cons k se se' s s' e e' l l' :
    sameJoint se s -> sameJoint se' s' -> sameJoint s s' ->
    (s = s' \/ (s = se /\ s' = se')) ->
    since e e' l l' ->
    since ((k, se) :: e) ((k, se') :: e') ((k, s) :: l) ((k, s') :: l').

(** Same keys, same joints, position by position. *)
Inductive sameShape :
  list (string * Segment) -> list (string * Segment) -> Prop :=
| shape_nil : sameShape [] []
| shape_cons k s s' l l' :
    sameJoint s s' -> sameShape l l' -> sameShape ((k, s) :: l) ((k, s') :: l').

Lemma sameShape_refl l : sameShape l l.
Proof. induction l as [| [k s] l IH]; constructor; auto using sameJoint_refl. Qed.

Lemma sameShape_trans l1 l2 l3 :
  sameShape l1 l2 -> sameShape l2 l3 -> sameShape l1 l3.
Proof.
  intros H. revert l3. induction H; intros l3 H3; inversion H3; subst; constructor; auto.
  unfold sameJoint in *. intuition congruence.
Qed.

Lemma sameShape_adjust v k l : sameShape l (adjust (setStart v) k l).
Proof.
  induction l as [| [k' s] l IH]; cbn; [constructor | ].
  destruct (String.eqb k k'); constructor;
    auto using sameShape_refl, sameJoint_refl.
  repeat split.
Qed.

Lemma sameShape_keys l l' : sameShape l l' -> map fst l = map fst l'.
Proof. induction 1; cbn; congruence. Qed.

Lemma since_start l l' : sameShape l l' -> since l l' l l'.
Proof.
  induction 1; constructor; auto using sameJoint_refl.
Qed.

Lemma since_adjust v k e e' l l' :
  since e e' l l' ->
  since e e' (adjust (setStart v) k l) (adjust (setStart v) k l').
Proof.
  induction 1 as [| k' se se' s s' e e' l l' J1 J2 J3 Hor Hs IH]; cbn;
    [constructor | ].
  destruct (String.eqb k k').
  - constructor; auto.
    all: try (unfold sameJoint, setStart in *; cbn; tauto).
    left. apply sameJoint_eq; [now apply sameJoint_setStart | reflexivity].
  - constructor; auto.
Qed.

Lemma since_find k e e' l l' :
  since e e' l l' ->
  match find k l, find k l' with
  | Some s, Some s' => sameJoint s s'
  | None, None => True
  | _, _ => False
  end.
Proof.
  induction 1 as [| k' se se' s s' e e' l l' J1 J2 J3 Hor Hs IH]; cbn; [exact I | ].
  destruct (String.eqb k k'); assumption.
Qed.

(** Run on [e] twice: if the second run started from the result of
    the first, it changes nothing. *)
Lemma since_fixed e e' l l' : since e e' l l' -> e' = l -> l' = l.
Proof.
  induction 1 as [| k se se' s s' e e' l l' J1 J2 J3 Hor Hs IH]; intros E;
    [reflexivity | ].
  injection E as E1 E2. subst se'. f_equal.
  - f_equal. destruct Hor as [-> | [_ ->]]; reflexivity.
  - apply IH. exact E2.
Qed.

Lemma since_shape e e' l l' : since e e' l l' -> sameShape e l.
Proof. induction 1; constructor; auto. Qed.

Lemma find_adjust_same {A} (f : A -> A) k (l : list (string * A)) :
  find k (adjust f k l) = option_map f (find k l).
Proof.
  induction l as [| [k' v] l IH]; cbn; [reflexivity | ].
  destruct (String.eqb k k') eqn:E; cbn; rewrite E; [reflexivity | exact IH].
Qed.

Lemma find_adjust_other {A} (f : A -> A) k q (l : list (string * A)) :
  q <> k -> find q (adjust f k l) = find q l.
Proof.
  intros Hne. induction l as [| [k' v] l IH]; cbn; [reflexivity | ].
  destruct (String.eqb k k') eqn:E; cbn.
  - apply String.eqb_eq in E. subst k'.
    destruct (String.eqb q k) eqn:E'; [ | reflexivity].
    apply String.eqb_eq in E'. contradiction.
  - destruct (String.eqb q k'); [reflexivity | exact IH].
Qed.

(** The two runs see the same start for the segment named [k]. *)
Definition agreeAt (k : string) (b b' : Body) : Prop :=
  forall s s', getSegment b k = Some s -> getSegment b' k = Some s' ->
               getStart s = getStart s'.

(** The two bodies of a pair of runs started from [e] and [e']. *)
Definition paired (e e' : list (string * Segment)) (b b' : Body) : Prop :=
  getBasePosition b = getBasePosition b'
  /\ getGroundLevel b = getGroundLevel b'
  /\ connections b = connections b'
  /\ since e e' (segments b) (segments b').

(** Base, ground level and connections are those of [b]. *)
Definition sameFrame (b c : Body) : Prop :=
  getBasePosition c = getBasePosition b
  /\ getGroundLevel c = getGroundLevel b
  /\ connections c = connections b.

Lemma sameFrame_refl b : sameFrame b b.
Proof. repeat split. Qed.

Lemma sameFrame_trans b c d : sameFrame b c -> sameFrame c d -> sameFrame b d.
Proof. unfold sameFrame. intuition congruence. Qed.

Lemma sameFrame_setSegment k f b : sameFrame b (setSegment k f b).
Proof. repeat split. Qed.

(** What a step of the two runs keeps: both stop or both go on, the
    results are paired, the frame of each body is untouched, and
    starts that were equal stay equal. *)
Definition pairedResult (e e' : list (string * Segment)) (b b' : Body)
    (r r' : option Body) : Prop :=
  match r, r' with
  | Some c, Some c' =>
      paired e e' c c' /\ sameFrame b c
      /\ (forall q, agreeAt q b b' -> agreeAt q c c')
  | None, None => True
  | _, _ => False
  end.

Lemma paired_setSegment e e' b b' k v :
  paired e e' b b' ->
  paired e e' (setSegment k (setStart v) b) (setSegment k (setStart v) b').
Proof.
  intros (Hb & Hg & Hc & Hs). repeat split; cbn; auto.
  now apply since_adjust.
Qed.

Lemma agreeAt_setSegment b b' k v q :
  agreeAt q b b' ->
  agreeAt q (setSegment k (setStart v) b) (setSegment k (setStart v) b').
Proof.
  intros Hq s s'. unfold getSegment, setSegment. cbn.
  destruct (string_dec q k) as [-> | Hne].
  - rewrite !find_adjust_same.
    destruct (find k (segments b)), (find k (segments b')); cbn; try discriminate.
    intros [= <-] [= <-]. reflexivity.
  - rewrite !find_adjust_other by assumption. apply Hq.
Qed.

Lemma agreeAt_setSegment_same b b' k v :
  agreeAt k (setSegment k (setStart v) b) (setSegment k (setStart v) b').
Proof.
  intros s s'. unfold getSegment, setSegment. cbn.
  rewrite !find_adjust_same.
  destruct (find k (segments b)), (find k (segments b')); cbn; try discriminate.
  intros [= <-] [= <-]. reflexivity.
Qed.

Lemma paired_getSegment e e' b b' k :
  paired e e' b b' ->
  match getSegment b k, getSegment b' k with
  | Some s, Some s' => sameJoint s s'
  | None, None => True
  | _, _ => False
  end.
Proof. intros (_ & _ & _ & Hs). exact (since_find k _ _ _ _ Hs). Qed.

Lemma pairedResult_refl e e' b b' :
  paired e e' b b' -> pairedResult e e' b b' (Some b) (Some b').
Proof. intros H. cbn. auto using sameFrame_refl. Qed.

Lemma updateChildren_paired e e' rec parentName :
  (forall c b b', paired e e' b b' -> agreeAt c b b' ->
                  pairedResult e e' b b' (rec c b) (rec c b')) ->
  forall children b b',
    paired e e' b b' -> agreeAt parentName b b' ->
    pairedResult e e' b b'
      (updateChildren rec parentName children b)
      (updateChildren rec parentName children b').
Proof.
  intros Hrec. induction children as [| c rest IH]; intros b b' Hp Ha.
  - now apply (pairedResult_refl e e').
  - cbn [updateChildren].
    pose proof (paired_getSegment e e' b b' c Hp) as Hc.
    pose proof (paired_getSegment e e' b b' parentName Hp) as Hpar.
    destruct (getSegment b c) as [cs |] eqn:Ec,
             (getSegment b' c) as [cs' |] eqn:Ec'; try contradiction.
    2: { now apply IH. }
    destruct (getSegment b parentName) as [ps |] eqn:Epar,
             (getSegment b' parentName) as [ps' |] eqn:Epar'; try contradiction.
    2: { now apply IH. }
    assert (ps = ps') by (apply sameJoint_eq; [exact Hpar | now apply Ha]).
    subst ps'.
    set (b1 := setSegment c (setStart (getEnd ps)) b).
    set (b1' := setSegment c (setStart (getEnd ps)) b').
    assert (Hp1 : paired e e' b1 b1') by now apply paired_setSegment.
    assert (Hc1 : agreeAt c b1 b1') by apply agreeAt_setSegment_same.
    specialize (Hrec c b1 b1' Hp1 Hc1). unfold pairedResult in Hrec.
    destruct (rec c b1) as [b2 |], (rec c b1') as [b2' |]; try contradiction;
      [ | exact I].
    destruct Hrec as (Hp2 & Hf2 & Hm2).
    assert (Ha2 : agreeAt parentName b2 b2')
      by now apply Hm2, agreeAt_setSegment.
    specialize (IH b2 b2' Hp2 Ha2). unfold pairedResult in IH |- *.
    destruct (updateChildren rec parentName rest b2) as [b3 |],
             (updateChildren rec parentName rest b2') as [b3' |];
      try contradiction; [ | exact I].
    destruct IH as (Hp3 & Hf3 & Hm3).
    split; [exact Hp3 | split].
    + eapply sameFrame_trans; [ | exact Hf3].
      eapply sameFrame_trans; [apply sameFrame_setSegment | exact Hf2].
    + intros q Hq. now apply Hm3, Hm2, agreeAt_setSegment.
Qed.

Lemma updateChildSegments_paired e e' fuel :
  forall parentName b b',
    paired e e' b b' -> agreeAt parentName b b' ->
    pairedResult e e' b b'
      (updateChildSegments fuel parentName b)
      (updateChildSegments fuel parentName b').
Proof.
  induction fuel as [| fuel IH]; intros p b b' Hp Ha; [exact I | ].
  cbn [updateChildSegments].
  destruct Hp as (Hb & Hg & Hc & Hs) eqn:E. rewrite <- Hc.
  destruct (find p (connections b)) as [children |];
    [ | now apply (pairedResult_refl e e')].
  pose proof (paired_getSegment e e' b b' p Hp) as Hpar.
  destruct (getSegment b p), (getSegment b' p); try contradiction;
    [ | now apply (pairedResult_refl e e')].
  apply updateChildren_paired; assumption.
Qed.

Lemma layoutRoots_paired e e' fuel :
  forall roots b b',
    paired e e' b b' ->
    match layoutRoots fuel roots b, layoutRoots fuel roots b' with
    | Some c, Some c' => paired e e' c c' /\ sameFrame b c
    | None, None => True
    | _, _ => False
    end.
Proof.
  induction roots as [| r rest IH]; intros b b' Hp;
    [cbn; auto using sameFrame_refl | ].
  cbn [layoutRoots].
  assert (Hbase : getBasePosition b = getBasePosition b') by apply Hp.
  rewrite <- Hbase.
  set (b1 := setSegment r (setStart (getBasePosition b)) b).
  set (b1' := setSegment r (setStart (getBasePosition b)) b').
  assert (Hp1 : paired e e' b1 b1') by now apply paired_setSegment.
  pose proof (updateChildSegments_paired e e' fuel r b1 b1' Hp1
                (agreeAt_setSegment_same b b' r _)) as Hstep.
  unfold pairedResult in Hstep.
  destruct (updateChildSegments fuel r b1) as [b2 |],
           (updateChildSegments fuel r b1') as [b2' |]; try contradiction;
    [ | exact I].
  destruct Hstep as (Hp2 & Hf2 & _).
  specialize (IH b2 b2' Hp2).
  destruct (layoutRoots fuel rest b2) as [b3 |],
           (layoutRoots fuel rest b2') as [b3' |]; try contradiction;
    [ | exact I].
  destruct IH as (Hp3 & Hf3).
  split; [exact Hp3 | ].
  eapply sameFrame_trans; [ | exact Hf3].
  eapply sameFrame_trans; [apply sameFrame_setSegment | exact Hf2].
Qed.

Lemma isChild_frame b b' name :
  connections b = connections b' -> isChild b name = isChild b' name.
Proof. unfold isChild. now intros ->. Qed.

(** One layout pass keeps the keys, the joints, the base, the ground
    level and the connections. *)
Lemma updateSegments_frame fuel b b1 :
  updateSegments fuel b = Some b1 ->
  sameFrame b b1 /\ sameShape (segments b) (segments b1).
Proof.
  unfold updateSegments. intros H.
  assert (Hp : paired (segments b) (segments b) b b)
    by (repeat split; apply since_start, sameShape_refl).
  pose proof (layoutRoots_paired _ _ fuel
    (filter (fun name => negb (isChild b name)) (map fst (segments b)))
    b b Hp) as Hl.
  rewrite H in Hl. destruct Hl as ((_ & _ & _ & Hs) & Hf).
  split; [exact Hf | eapply since_shape; eassumption].
Qed.

(** ** Termination on acyclic bodies *)

(** [rank] decreases along every connection: the body has no cycle. *)
Definition ranked (rank : string -> nat) (b : Body) : Prop :=
  forall p cs c, find p (connections b) = Some cs -> In c cs ->
                 (rank c < rank p)%nat.

Lemma ranked_frame rank b c : sameFrame b c -> ranked rank b -> ranked rank c.
Proof. intros (_ & _ & Hc) H. unfold ranked. rewrite Hc. exact H. Qed.

Lemma updateChildren_returns rank rec parentName (bound : nat) :
  (forall c b, (rank c < bound)%nat -> ranked rank b ->
               exists b', rec c b = Some b' /\ sameFrame b b') ->
  forall children b,
    (forall c, In c children -> (rank c < bound)%nat) -> ranked rank b ->
    exists b', updateChildren rec parentName children b = Some b'
               /\ sameFrame b b'.
Proof.
  intros Hrec. induction children as [| c rest IH]; intros b Hin Hr.
  - exists b. split; [reflexivity | apply sameFrame_refl].
  - cbn [updateChildren].
    assert (Hrest : forall c', In c' rest -> (rank c' < bound)%nat)
      by (intros; apply Hin; now right).
    destruct (getSegment b c); [ | now apply IH].
    destruct (getSegment b parentName) as [ps |]; [ | now apply IH].
    set (b1 := setSegment c (setStart (getEnd ps)) b).
    assert (Hf1 : sameFrame b b1) by apply sameFrame_setSegment.
    destruct (Hrec c b1) as (b2 & -> & Hf2);
      [apply Hin; now left | now apply (ranked_frame rank b) | ].
    destruct (IH b2) as (b3 & -> & Hf3); [assumption | | ].
    + apply (ranked_frame rank b); [ | assumption].
      now apply (sameFrame_trans b b1 b2).
    + exists b3. split; [reflexivity | ].
      apply (sameFrame_trans b b2 b3); [ | assumption].
      now apply (sameFrame_trans b b1 b2).
Qed.

Lemma updateChildSegments_returns rank :
  forall fuel parentName b,
    (rank parentName < fuel)%nat -> ranked rank b ->
    exists b', updateChildSegments fuel parentName b = Some b'
               /\ sameFrame b b'.
Proof.
  induction fuel as [| fuel IH]; intros p b Hlt Hr; [lia | ].
  cbn [updateChildSegments].
  destruct (find p (connections b)) as [children |] eqn:E;
    [ | exists b; split; [reflexivity | apply sameFrame_refl]].
  destruct (getSegment b p);
    [ | exists b; split; [reflexivity | apply sameFrame_refl]].
  apply (updateChildren_returns rank _ p (rank p)); [ | | assumption].
  - intros c b0 Hc Hr0. apply IH; [lia | assumption].
  - intros c Hc. exact (Hr p children c E Hc).
Qed.

Lemma layoutRoots_returns rank fuel :
  (forall name, (rank name < fuel)%nat) ->
  forall roots b, ranked rank b -> exists b', layoutRoots fuel roots b = Some b'.
Proof.
  intros Hfuel. induction roots as [| r rest IH]; intros b Hr;
    [now exists b | ].
  cbn [layoutRoots].
  destruct (updateChildSegments_returns rank fuel r
              (setSegment r (setStart (getBasePosition b)) b))
    as (b1 & -> & Hf1); [apply Hfuel | exact Hr | ].
  apply IH. apply (ranked_frame rank b); [ | assumption].
  eapply sameFrame_trans; [apply sameFrame_setSegment | exact Hf1].
Qed.

(** On a body without cycles a layout pass returns once the fuel
    exceeds every rank. *)
Lemma updateSegments_returns rank fuel b :
  ranked rank b -> (forall name, (rank name < fuel)%nat) ->
  exists b1, updateSegments fuel b = Some b1.
Proof. intros Hr Hfuel. now apply (layoutRoots_returns rank). Qed.

Lemma moveRoots_returns rank fuel displacement :
  (forall name, (rank name < fuel)%nat) ->
  forall names b, ranked rank b ->
    exists b', moveRoots fuel displacement names b = Some b'.
Proof.
  intros Hfuel. induction names as [| n rest IH]; intros b Hr;
    [now exists b | ].
  cbn [moveRoots]. destruct (negb (isChild b n)); [ | now apply IH].
  match goal with |- context [updateChildSegments fuel n ?b0] =>
    destruct (updateChildSegments_returns rank fuel n b0)
      as (b1 & -> & Hf1); [apply Hfuel | exact Hr | ] end.
  apply IH. apply (ranked_frame rank b); [ | assumption].
  eapply sameFrame_trans; [apply sameFrame_setSegment | exact Hf1].
Qed.

Lemma moveBaseTo_returns rank fuel newBase b :
  ranked rank b -> (forall name, (rank name < fuel)%nat) ->
  exists b', moveBaseTo fuel newBase b = Some b'.
Proof.
  intros Hr Hfuel. unfold moveBaseTo.
  apply (moveRoots_returns rank); [assumption | exact Hr].
Qed.

Lemma rotateSegment_returns rank fuel name deltaAngle b :
  ranked rank b -> (forall name, (rank name < fuel)%nat) ->
  exists ok b', rotateSegment fuel name deltaAngle b = Some (ok, b').
Proof.
  intros Hr Hfuel. unfold rotateSegment.
  destruct (getSegment b name) as [s |]; [ | now exists false, b].
  destruct (fst (rotate deltaAngle s)); [ | eauto].
  match goal with |- context [updateChildSegments fuel name ?b0] =>
    destruct (updateChildSegments_returns rank fuel name b0)
      as (b1 & -> & _); [apply Hfuel | exact Hr | ] end.
  eauto.
Qed.

(** C8.  A layout pass that is run on the result of a layout pass
    returns, and returns that result unchanged: every segment has the
    same start and the same end after the second pass as after the
    first.  The first pass itself returns on every body without
    cycles, once the fuel exceeds every rank. *)
Theorem updateSegments_idempotent :
  forall (fuel : nat) (b : Body),
    (forall b1,
       updateSegments fuel b = Some b1 ->
       exists b2,
         updateSegments fuel b1 = Some b2
         /\ getSegmentLines b2 = getSegmentLines b1
         /\ b2 = b1)
    /\ (forall rank,
          ranked rank b -> (forall name, (rank name < fuel)%nat) ->
          exists b1, updateSegments fuel b = Some b1).
Proof.
  intros fuel b. split; [ | intros rank; apply updateSegments_returns].
  intros b1 H.
  destruct (updateSegments_frame fuel b b1 H) as ((Hb & Hg & Hc) & Hshape).
  assert (Hp : paired (segments b) (segments b1) b b1)
    by (repeat split; auto using since_start).
  assert (Hroots :
    filter (fun name => negb (isChild b1 name)) (map fst (segments b1))
    = filter (fun name => negb (isChild b name)) (map fst (segments b))).
  { rewrite <- (sameShape_keys _ _ Hshape).
    apply filter_ext. intros name. f_equal. now apply isChild_frame. }
  pose proof (layoutRoots_paired _ _ fuel
    (filter (fun name => negb (isChild b name)) (map fst (segments b)))
    b b1 Hp) as Hl.
  unfold updateSegments in H |- *. rewrite Hroots. rewrite H in Hl.
  destruct (layoutRoots fuel _ b1) as [b2 |]; [ | contradiction].
  destruct Hl as ((Hb2 & Hg2 & Hc2 & Hs2) & _).
  assert (E : b2 = b1).
  { apply since_fixed in Hs2; [ | reflexivity].
    destruct b1, b2. cbn in *. congruence. }
  exists b2. rewrite E. auto.
Qed.

(** The humanoid the constructor assembles, laid out once, is left
    as it is by a second pass. *)
Lemma updateSegments_idempotent_witness :
  exists b0,
    updateSegments 16 (humanoid stand_junk (mkVector2D 100 400) 400) = Some b0
    /\ exists b2, updateSegments 16 b0 = Some b2
                  /\ getSegmentLines b2 = getSegmentLines b0 /\ b2 = b0.
Proof.
  assert (H : exists b0,
    updateSegments 16 (humanoid stand_junk (mkVector2D 100 400) 400) = Some b0)
    by (eexists; run; reflexivity).
  destruct H as (b0 & H). exists b0. split; [exact H | ].
  exact (proj1 (updateSegments_idempotent 16 _) b0 H).
Defined.


(* ================================================================== *)
(** * Part VII.  The walker: execution and planning                    *)
(* ================================================================== *)


(** A torso hanging 400 above the ground, and a walker with one walk
    move and the grab left. *)
Definition hanging_body : Body :=
  mkBody (mkVector2D 0 0) 400
         [("torso", mkSegment "torso" (mkVector2D 0 0) 60 0 (- M_PI) M_PI)] [].

Definition late_walker : WalkerStrategy :=
  mkWalker false 5 [WALK (mkVector2D 5 0); GRAB] false 0 2 3.



(** ** The angle-normalising loops return *)








(** ** The walk of the specification's example *)





(* ================================================================== *)
(** * Part VIII.  Reaching the object                                  *)
(* ================================================================== *)

(** ** Leaves and childless segments *)

(** The children recorded for a segment. *)
Definition children (b : Body) (name : string) : list string :=
  match find name (connections b) with
  | Some cs => cs
  | None => []
  end.

Definition childless (b : Body) (name : string) : bool :=
  match children b name with
  | [] => true
  | _ :: _ => false
  end.

(** No key of [connections] holds an empty list: [connectSegment]
    creates a key only to push a child under it. *)
Definition wellConnected (b : Body) : Prop :=
  forall p cs, find p (connections b) = Some cs -> cs <> [].

Lemma find_insert {A} (q k : string) (v : A) (m : list (string * A)) :
  find q (insert k v m) = if String.eqb q k then Some v else find q m.
Proof.
  induction m as [| [k' v'] m IH]; cbn; [reflexivity | ].
  destruct (String.compare k k') eqn:E; cbn.
  - apply String.compare_eq_iff in E. subst k'.
    destruct (String.eqb q k); reflexivity.
  - reflexivity.
  - rewrite IH. destruct (String.eqb q k') eqn:Hq'; [ | reflexivity].
    apply String.eqb_eq in Hq'. subst k'.
    destruct (String.eqb q k) eqn:Hq; [ | reflexivity].
    apply String.eqb_eq in Hq. subst k.
    pose proof (String.compare_antisym q q) as Ha.
    rewrite E in Ha. discriminate.
Qed.

Lemma wellConnected_frame b c :
  sameFrame b c -> wellConnected b -> wellConnected c.
Proof. intros (_ & _ & Hc) H. unfold wellConnected. rewrite Hc. exact H. Qed.

Lemma wellConnected_addSegment junk name length angle lo hi b :
  wellConnected b ->
  wellConnected (addSegment junk name length angle lo hi b).
Proof.
  unfold addSegment. destruct (find name (segments b)); intros H; exact H.
Qed.

Lemma wellConnected_connectSegment parentName childName b :
  wellConnected b -> wellConnected (connectSegment parentName childName b).
Proof.
  intros H. unfold connectSegment.
  destruct (getSegment b parentName); [ | exact H].
  destruct (getSegment b childName); [ | exact H].
  intros p cs. cbn [setSegment connections]. rewrite find_insert.
  destruct (String.eqb p parentName).
  - intros [= <-]. now destruct (find parentName (connections b)) as [[| ? ?] |].
  - apply H.
Qed.

Lemma wellConnected_humanoid junk base ground :
  wellConnected (humanoid junk base ground).
Proof.
  unfold humanoid. cbv zeta.
  repeat lazymatch goal with
    | |- wellConnected (connectSegment _ _ _) =>
        apply wellConnected_connectSegment
    | |- wellConnected (addSegment _ _ _ _ _ _ _) =>
        apply wellConnected_addSegment
    end.
  intros p cs. discriminate.
Qed.

(** On such a body the end points are the childless segments. *)
Lemma isEndPoint_childless b name :
  wellConnected b -> isEndPoint b name = childless b name.
Proof.
  intros H. unfold isEndPoint, childless, children.
  destruct (find name (connections b)) as [cs |] eqn:E; [ | reflexivity].
  destruct cs; [now apply H in E | reflexivity].
Qed.

(** The end of the segment lies in the disc: its squared distance
    to the centre is at most the squared radius. *)
Definition endInside (segment : Segment) (object : Circle) : bool :=
  leb ((x (getCenter object) - x (getEnd segment))
       * (x (getCenter object) - x (getEnd segment))
       + (y (getCenter object) - y (getEnd segment))
         * (y (getCenter object) - y (getEnd segment)))
      (getRadius object * getRadius object).

(** The segments that count for a grab, as the specification words
    it: leaves whose end lies in the disc or that pass within a
    radius of its centre. *)
Definition leafTouches (b : Body) (object : Circle)
    (pair : string * Segment) : bool :=
  isEndPoint b (fst pair)
  && (endInside (snd pair) object
      || leb (distanceToPoint (snd pair) (getCenter object))
             (getRadius object)).

Definition countTouchingLeaves (b : Body) (object : Circle) : nat :=
  List.length (filter (leafTouches b object) (segments b)).

Lemma getSegmentsTouchingObject_length b object :
  List.length (getSegmentsTouchingObject b object)
  = countTouchingLeaves b object.
Proof.
  unfold getSegmentsTouchingObject, countTouchingLeaves.
  rewrite length_map. reflexivity.
Qed.

Lemma getSegmentsTouchingObject_leaves b object name :
  In name (getSegmentsTouchingObject b object) -> isEndPoint b name = true.
Proof.
  unfold getSegmentsTouchingObject. intros H.
  apply in_map_iff in H. destruct H as ([k s] & <- & H).
  apply filter_In in H. destruct H as [_ H].
  apply andb_prop in H. apply H.
Qed.

(** C5 (amended).  For a threshold that is a non-negative [int],
    [canReachObject] answers [true] exactly when at least that many
    leaves touch the circle: [false] below the threshold, [true] at
    it.  Only end points are ever listed as touching, and on a body
    whose connections were recorded by [connectSegment] the end
    points are the childless segments. *)
Theorem canReachObject_threshold :
  forall (b : Body) (object : Circle) (minTouchingPoints : Z),
    (0 <= minTouchingPoints < 2 ^ 31)%Z ->
    (canReachObject b object minTouchingPoints = true
     <-> (minTouchingPoints <= Z.of_nat (countTouchingLeaves b object))%Z)
    /\ (forall name, In name (getSegmentsTouchingObject b object) ->
                     isEndPoint b name = true)
    /\ (wellConnected b ->
        forall name, isEndPoint b name = childless b name).
Proof.
  intros b object m Hm. split; [ | split].
  - unfold canReachObject, to_size_t.
    rewrite getSegmentsTouchingObject_length.
    rewrite Z.mod_small by lia. apply Z.leb_le.
  - apply getSegmentsTouchingObject_leaves.
  - intros Hwell name. now apply isEndPoint_childless.
Qed.

Lemma canReachObject_negative b object :
  (Z.of_nat (List.length (segments b)) < 2 ^ 64 - 1)%Z ->
  canReachObject b object (-1) = false.
Proof.
  intros Hsize. unfold canReachObject.
  apply Z.leb_gt. change (to_size_t (-1)) with (2 ^ 64 - 1)%Z.
  rewrite getSegmentsTouchingObject_length. unfold countTouchingLeaves.
  pose proof (filter_length_le (leafTouches b object) (segments b)). lia.
Qed.

Definition snowman : Circle := mkCircle (mkVector2D 500 350) 20.

(** With the threshold -1 the cast to [size_t] gives [2^64 - 1]: the
    answer is [false] although at least -1 leaves touch. *)
Lemma canReachObject_minus_one :
  match Body_new stand_junk 16 (mkVector2D 100 400) 400 with
  | Some b =>
      canReachObject b snowman (-1) = false
      /\ (-1 <= Z.of_nat (countTouchingLeaves b snowman))%Z
  | None => False
  end.
Proof.
  assert (H : exists b, Body_new stand_junk 16 (mkVector2D 100 400) 400 = Some b
                        /\ List.length (segments b) = 14%nat).
  { eexists. split; [run; reflexivity | reflexivity]. }
  destruct H as (b & -> & Hlen). split; [ | lia].
  apply canReachObject_negative. rewrite Hlen. reflexivity.
Qed.

(** A palm with three fingers around a ball: the palm reaches the
    ball too, but has children. *)
Definition finger (name : string) : Segment :=
  mkSegment name (mkVector2D 1 0) 1 0 (- M_PI) M_PI.

Definition hand : Body :=
  mkBody (mkVector2D 0 0) 400
         [("index", finger "index"); ("middle", finger "middle");
          ("palm", mkSegment "palm" (mkVector2D 0 0) 1 0 (- M_PI) M_PI);
          ("ring", finger "ring")]
         [("palm", ["index"; "middle"; "ring"])].

Definition ball : Circle := mkCircle (mkVector2D 1 0) 1.

Lemma finger_touches name :
  isEndPoint hand name = true -> leafTouches hand ball (name, finger name) = true.
Proof.
  intros Hleaf. unfold leafTouches. cbn [fst snd]. rewrite Hleaf. cbn [andb].
  apply orb_true_iff. left. unfold endInside, getEnd, ball, finger.
  cbn [getCenter getRadius getStart getLength getAngle x y].
  rewrite cos_0, sin_0. apply leb_true. lra.
Qed.

Lemma hand_count : countTouchingLeaves hand ball = 3%nat.
Proof.
  unfold countTouchingLeaves. unfold hand at 2. cbn [segments filter].
  rewrite !finger_touches by reflexivity.
  assert (Hpalm : forall s, leafTouches hand ball ("palm", s) = false)
    by reflexivity.
  rewrite Hpalm. reflexivity.
Qed.

Lemma canReachObject_threshold_witness :
  canReachObject hand ball 3 = true /\ canReachObject hand ball 4 = false.
Proof.
  split.
  - apply (proj1 (canReachObject_threshold hand ball 3 ltac:(lia))).
    rewrite hand_count. lia.
  - apply not_true_is_false. intros H.
    apply (proj1 (canReachObject_threshold hand ball 4 ltac:(lia))) in H.
    rewrite hand_count in H. lia.
Defined.

End Kinematics.

(* ================================================================== *)
(** * Part IX.  The walk example in binary64                           *)
(* ================================================================== *)

Section Binary64.

Local Open Scope float_scope.

(** The number of walk steps of the example, before truncation, as
    the machine computes it: [(sqrt(400^2 + 50^2) - 50) / 5]. *)
Definition example_steps : float :=
  let d := Ieee.magnitude
             (Ieee.minus (Ieee.mkVector2D 500 350) (Ieee.mkVector2D 100 400)) in
  (d - 50) / 5.

(** It lies between 70 and 71: the conversion to [int] gives 70 in
    binary64 as it does over the reals. *)
Example example_steps_binary64 :
  (70 <=? example_steps) = true /\ (example_steps <? 71) = true.
Proof. vm_compute. split; reflexivity. Qed.

End Binary64.

(* ================================================================== *)
(** * Part X.  Segments: limits and nearest points                     *)
(* ================================================================== *)

Section Articulation.

Import Kin.
Local Open Scope string_scope.
Local Open Scope list_scope.
Local Open Scope R_scope.

(** Evaluation that leaves the arithmetic of the reals alone. *)
Ltac eval_body :=
  lazy -[IZR Rplus Rminus Rmult Rdiv Ropp Rinv cos sin PI M_PI Rabs sqrt atan
         Int_part Rlt_dec Rle_dec Req_dec_T clampBetween std_max std_min
         ltb leb eqb Vec.EPSILON].

Ltac eval_body_in H :=
  lazy -[IZR Rplus Rminus Rmult Rdiv Ropp Rinv cos sin PI M_PI Rabs sqrt atan
         Int_part Rlt_dec Rle_dec Req_dec_T clampBetween std_max std_min
         ltb leb eqb Vec.EPSILON] in H.

(** ** The angle of a joint *)




(** ** The nearest point of a segment *)









(* ================================================================== *)
(** * Part XI.  Bodies: adding, connecting, counting contacts          *)
(* ================================================================== *)

(** ** Adding and connecting segments *)

Lemma insert_length_new {A} k (v : A) m :
  find k m = None -> List.length (insert k v m) = S (List.length m).
Proof.
  induction m as [| [k' v'] m IH]; cbn; [reflexivity | ].
  destruct (String.eqb k k') eqn:E; [discriminate | ]. intros H.
  destruct (String.compare k k') eqn:C; cbn.
  - apply String.compare_eq_iff in C. apply String.eqb_neq in E. contradiction.
  - reflexivity.
  - now rewrite IH.
Qed.

(** X3.  [addSegment] leaves the connections, the base position and
    every segment of another name alone.  Under a name that is
    taken it changes nothing at all.  Under a new name the body has
    one segment more, and the new segment carries that name, starts
    at the base position, has the limits given and the length given,
    raised to 0.1 when it is smaller. *)
Theorem addSegment_lookup :
  forall (junk : R * R) (name : string) (length angle minAngle maxAngle : R)
         (b : Body),
    let b' := addSegment junk name length angle minAngle maxAngle b in
    connections b' = connections b
    /\ getBasePosition b' = getBasePosition b
    /\ (forall q, q <> name -> getSegment b' q = getSegment b q)
    /\ (forall s, getSegment b name = Some s ->
                  b' = b)
    /\ (getSegment b name = None ->
        getSegmentCount b' = S (getSegmentCount b)
        /\ exists s, getSegment b' name = Some s
           /\ getId s = name /\ getStart s = getBasePosition b
           /\ getLength s = std_max (1 / 10) length
           /\ 1 / 10 <= getLength s
           /\ getMinAngle s = minAngle /\ getMaxAngle s = maxAngle).
Proof.
  intros junk name len ang lo hi b b'. subst b'. unfold addSegment, getSegment.
  destruct (find name (segments b)) as [s0 |] eqn:E.
  - repeat split; intros; try reflexivity; discriminate.
  - cbn [connections getBasePosition segments]. repeat split.
    + intros q Hq. rewrite find_insert.
      apply String.eqb_neq in Hq. now rewrite Hq.
    + discriminate.
    + unfold getSegmentCount. cbn [segments]. now apply insert_length_new.
    + rewrite find_insert, String.eqb_refl. eexists. split; [reflexivity | ].
      cbn. repeat split; try reflexivity.
      unfold std_max, ltb. destruct (Rlt_dec (1 / 10) len); lra.
Qed.

Lemma Vec_equal_refl v : Vec.equal v v = true.
Proof.
  unfold Vec.equal, Vec.EPSILON.
  rewrite !ltb_true; [reflexivity | | ];
    (replace (_ - _) with 0 by ring); rewrite Rabs_R0; lra.
Qed.

(** X4.  [connectSegment] changes nothing when the parent or the
    child is missing.  Otherwise the child is appended to the
    children of the parent (once more if it was there already), no
    other list of children changes, the child is moved to the end of
    the parent, no other segment changes, and the new edge holds
    unless a segment is connected to itself. *)
Theorem connectSegment_attaches :
  forall (parentName childName : string) (b : Body),
    let b' := connectSegment parentName childName b in
    (getSegment b parentName = None \/ getSegment b childName = None ->
     b' = b)
    /\ (forall parent child,
          getSegment b parentName = Some parent ->
          getSegment b childName = Some child ->
          children b' parentName = children b parentName ++ [childName]
          /\ (forall q, q <> parentName -> children b' q = children b q)
          /\ getSegment b' childName = Some (setStart (getEnd parent) child)
          /\ (forall q, q <> childName -> getSegment b' q = getSegment b q)
          /\ (parentName <> childName -> edgeHolds b' parentName childName)).
Proof.
  intros p c b b'. subst b'. unfold connectSegment. split.
  - intros [-> | H]; [reflexivity | ].
    destruct (getSegment b p); rewrite ?H; reflexivity.
  - intros ps cs Hp Hc. rewrite Hp, Hc.
    assert (Hget : forall q,
      getSegment
        (setSegment c (setStart (getEnd ps))
           (mkBody (getBasePosition b) (getGroundLevel b) (segments b)
              (insert p
                 (match find p (connections b) with
                  | Some l => l | None => [] end ++ [c])
                 (connections b)))) q
      = if String.eqb q c then Some (setStart (getEnd ps) cs)
        else getSegment b q).
    { intros q. unfold getSegment, setSegment. cbn [segments].
      destruct (String.eqb q c) eqn:E.
      - apply String.eqb_eq in E. subst q. rewrite find_adjust_same.
        unfold getSegment in Hc. now rewrite Hc.
      - apply String.eqb_neq in E. now rewrite find_adjust_other. }
    repeat split.
    + unfold children. cbn [setSegment connections].
      now rewrite find_insert, String.eqb_refl.
    + intros q Hq. unfold children. cbn [setSegment connections].
      rewrite find_insert. apply String.eqb_neq in Hq. now rewrite Hq.
    + rewrite Hget. now rewrite String.eqb_refl.
    + intros q Hq. rewrite Hget. apply String.eqb_neq in Hq. now rewrite Hq.
    + intros Hne parent child. rewrite !Hget, String.eqb_refl.
      apply String.eqb_neq in Hne. rewrite Hne, Hp.
      intros [= <-] [= <-]. apply Vec_equal_refl.
Qed.

(** ** Ground contacts *)

(** The ends of [s] that are on the ground: 0, 1 or 2. *)
Definition contacts (ground : R) (s : Segment) : Z :=
  ((if isStartContactingGround s ground then 1 else 0)
   + (if isEndContactingGround s ground then 1 else 0))%Z.

Lemma countGroundContacts_sum b :
  countGroundContacts b
  = fold_right (fun pair n => (contacts (getGroundLevel b) (snd pair) + n)%Z)
               0%Z (segments b).
Proof.
  unfold countGroundContacts.
  assert (H : forall l acc,
    fold_left
      (fun count (pair : string * Segment) =>
         let count :=
           if isStartContactingGround (snd pair) (getGroundLevel b)
           then (count + 1)%Z else count in
         if isEndContactingGround (snd pair) (getGroundLevel b)
         then (count + 1)%Z else count) l acc
    = (acc + fold_right
               (fun pair n => (contacts (getGroundLevel b) (snd pair) + n)%Z)
               0%Z l)%Z).
  { induction l as [| p l IH]; intros acc; cbn [fold_left fold_right]; [lia | ].
    rewrite IH. unfold contacts.
    destruct (isStartContactingGround _ _), (isEndContactingGround _ _); lia. }
  rewrite H. lia.
Qed.

Lemma contacts_sum_bounds ground (l : list (string * Segment)) :
  let touching :=
    filter (fun pair : string * Segment =>
              isStartContactingGround (snd pair) ground
              || isEndContactingGround (snd pair) ground) l in
  let total :=
    fold_right (fun pair n => (contacts ground (snd pair) + n)%Z) 0%Z l in
  (Z.of_nat (List.length touching) <= total
   <= 2 * Z.of_nat (List.length touching))%Z
  /\ (total <= 2 * Z.of_nat (List.length l))%Z.
Proof.
  cbv zeta. induction l as [| p l IH]; cbn [fold_right filter List.length];
    [lia | ].
  destruct IH as [[IH1 IH2] IH3].
  set (total := fold_right _ 0%Z l) in *.
  set (touching := filter _ l) in *.
  unfold contacts.
  destruct (isStartContactingGround (snd p) ground),
           (isEndContactingGround (snd p) ground);
    cbn [orb List.length]; lia.
Qed.

(** X5.  [countGroundContacts] counts ends, not segments: it lies
    between the number of segments [getSegmentsContactingGround]
    lists and twice that number, and is at most twice the number of
    segments.  One contact at least is counted exactly when that
    list is not empty. *)
Theorem countGroundContacts_bounds :
  forall b : Body,
    (Z.of_nat (List.length (getSegmentsContactingGround b))
     <= countGroundContacts b
     <= 2 * Z.of_nat (List.length (getSegmentsContactingGround b)))%Z
    /\ (countGroundContacts b <= 2 * Z.of_nat (getSegmentCount b))%Z
    /\ (hasMinimumGroundContacts b 1 = true
        <-> getSegmentsContactingGround b <> []).
Proof.
  intros b.
  pose proof (contacts_sum_bounds (getGroundLevel b) (segments b)) as H.
  cbv zeta in H. rewrite <- countGroundContacts_sum in H.
  unfold getSegmentsContactingGround, getSegmentCount, hasMinimumGroundContacts.
  rewrite length_map. destruct H as [H1 H2].
  split; [exact H1 | split; [exact H2 | ]].
  rewrite Z.leb_le. split.
  - intros Hc E. apply (f_equal (@List.length _)) in E.
    rewrite length_map in E. cbn in E. lia.
  - intros Hne.
    destruct (filter _ (segments b)) as [| p l] eqn:E;
      [now contradiction Hne | ].
    cbn [List.length] in H1. lia.
Qed.

(* ================================================================== *)
(** * Part XII.  Forests: the connection invariant restored            *)
(* ================================================================== *)

(** ** Forests *)

(** [childName] is recorded as a child of [parentName]. *)
Definition isEdge (conns : list (string * list string))
    (parentName childName : string) : Prop :=
  exists cs, find parentName conns = Some cs /\ In childName cs.

(** [q] is a strict descendant of [p]. *)
Inductive reach (conns : list (string * list string)) : string -> string -> Prop :=
| reach_edge p c : isEdge conns p c -> reach conns p c
| reach_step p q c : reach conns p q -> isEdge conns q c -> reach conns p c.

(** [q] is [p] or a descendant of [p]. *)
Definition under (conns : list (string * list string)) (p q : string) : Prop :=
  q = p \/ reach conns p q.

(** A forest: ranks decrease along the edges (no cycle), a segment
    has one parent at most, and both ends of an edge exist. *)
Record forest (rank : string -> nat) (b : Body) : Prop := mkForest {
  forest_ranked : ranked rank b;
  forest_parent : forall p p' c,
    isEdge (connections b) p c -> isEdge (connections b) p' c -> p = p';
  forest_exists : forall p c,
    isEdge (connections b) p c ->
    In p (map fst (segments b)) /\ In c (map fst (segments b))
}.

(** The child starts exactly where the parent ends. *)
Definition attached (b : Body) (parentName childName : string) : Prop :=
  forall parent child,
    getSegment b parentName = Some parent ->
    getSegment b childName = Some child ->
    getStart child = getEnd parent.

Lemma attached_edgeHolds b p c : attached b p c -> edgeHolds b p c.
Proof.
  intros H parent child Hp Hc. rewrite (H parent child Hp Hc).
  apply Vec_equal_refl.
Qed.

Lemma isEdge_rank rank b p c :
  ranked rank b -> isEdge (connections b) p c -> (rank c < rank p)%nat.
Proof. intros Hr (cs & Hf & Hin). exact (Hr p cs c Hf Hin). Qed.

Lemma reach_rank rank b p q :
  ranked rank b -> reach (connections b) p q -> (rank q < rank p)%nat.
Proof.
  intros Hr H. induction H as [p c He | p q c _ IH He].
  - now apply (isEdge_rank rank b).
  - pose proof (isEdge_rank rank b q c Hr He). lia.
Qed.

Lemma under_rank rank b p q :
  ranked rank b -> under (connections b) p q -> (rank q <= rank p)%nat.
Proof.
  intros Hr [-> | H]; [lia | ]. pose proof (reach_rank rank b p q Hr H). lia.
Qed.

Lemma reach_first conns p c q :
  isEdge conns p c -> reach conns c q -> reach conns p q.
Proof.
  intros He H. induction H as [c q' He' | c q' r _ IH He'].
  - apply (reach_step conns p c q'); [apply reach_edge; exact He | exact He'].
  - apply (reach_step conns p q' r); [apply IH; exact He | exact He'].
Qed.

Lemma under_first conns p c q :
  isEdge conns p c -> under conns c q -> reach conns p q.
Proof.
  intros He [-> | H]; [now apply reach_edge | now apply (reach_first conns p c)].
Qed.

Lemma reach_last conns p q :
  reach conns p q -> exists q0, under conns p q0 /\ isEdge conns q0 q.
Proof.
  intros H. destruct H as [p c He | p q0 c H He].
  - exists p. split; [now left | exact He].
  - exists q0. split; [now right | exact He].
Qed.

Lemma under_step conns p q r :
  under conns p q -> isEdge conns q r -> reach conns p r.
Proof.
  intros [-> | H] He; [now apply reach_edge | now apply (reach_step conns p q)].
Qed.

(** The subtrees of two children of one parent are disjoint. *)
Lemma siblings_disjoint rank b p c c' q :
  forest rank b ->
  isEdge (connections b) p c -> isEdge (connections b) p c' -> c <> c' ->
  under (connections b) c q -> under (connections b) c' q -> False.
Proof.
  intros Hf Hc Hc' Hne Hq. revert c' Hc' Hne.
  assert (Hr := forest_ranked rank b Hf).
  assert (Hp : forall c0, isEdge (connections b) p c0 ->
                          under (connections b) c0 p -> False).
  { intros c0 He Hu. pose proof (isEdge_rank rank b p c0 Hr He).
    pose proof (under_rank rank b c0 p Hr Hu). lia. }
  assert (Hgen : forall q, under (connections b) c q ->
            forall c', isEdge (connections b) p c' -> c <> c' ->
                       under (connections b) c' q -> False).
  { clear q Hq. intros q [-> | H].
    - intros c' Hc' Hne [E | H']; [now apply Hne | ].
      apply reach_last in H'. destruct H' as (q0 & Hu & He).
      rewrite (forest_parent rank b Hf q0 p c He Hc) in Hu.
      exact (Hp c' Hc' Hu).
    - induction H as [c q He | c q0 q H IH He];
        intros c' Hc' Hne [E | H'].
      + subst q. rewrite (forest_parent rank b Hf c p c' He Hc') in Hc.
        pose proof (isEdge_rank rank b p p Hr Hc). lia.
      + apply reach_last in H'. destruct H' as (q0 & Hu & He').
        rewrite (forest_parent rank b Hf q0 c q He' He) in Hu.
        destruct Hu as [E | Hu]; [now apply Hne | ].
        apply reach_last in Hu. destruct Hu as (q1 & Hu & He1).
        rewrite (forest_parent rank b Hf q1 p c He1 Hc) in Hu.
        exact (Hp c' Hc' Hu).
      + subst q. rewrite (forest_parent rank b Hf q0 p c' He Hc') in H.
        apply (Hp c Hc). now right.
      + apply reach_last in H'. destruct H' as (q1 & Hu & He').
        rewrite (forest_parent rank b Hf q1 q0 q He' He) in Hu.
        destruct Hu as [E | Hu].
        * subst q0. apply (Hp c' Hc').
          (* c' reached from c, so its parent p is under c *)
          apply reach_last in H. destruct H as (q2 & Hu2 & He2).
          rewrite (forest_parent rank b Hf q2 p c' He2 Hc') in Hu2.
          exfalso. exact (Hp c Hc Hu2).
        * exact (IH Hc c' Hc' Hne (or_intror Hu)). }
  exact (Hgen q Hq).
Qed.

(** ** What a pass over the children establishes *)

Lemma adjust_keys {A} (f : A -> A) k (l : list (string * A)) :
  map fst (adjust f k l) = map fst l.
Proof.
  induction l as [| [k' v] l IH]; cbn; [reflexivity | ].
  destruct (String.eqb k k'); cbn; congruence.
Qed.

Lemma find_keys {A} k (l : list (string * A)) :
  In k (map fst l) -> exists v, find k l = Some v.
Proof.
  induction l as [| [k' v] l IH]; cbn; [contradiction | ].
  intros [E | H].
  - subst k'. rewrite String.eqb_refl. now exists v.
  - destruct (String.eqb k k'); [now exists v | now apply IH].
Qed.

(** Same frame and same names. *)
Definition sameNames (b c : Body) : Prop :=
  sameFrame b c /\ map fst (segments c) = map fst (segments b).

Lemma sameNames_refl b : sameNames b b.
Proof. split; [apply sameFrame_refl | reflexivity]. Qed.

Lemma sameNames_trans b c d : sameNames b c -> sameNames c d -> sameNames b d.
Proof.
  intros (Hf & Hk) (Hf' & Hk'). split;
    [now apply (sameFrame_trans b c d) | congruence].
Qed.

Lemma sameNames_setSegment k f b : sameNames b (setSegment k f b).
Proof. split; [apply sameFrame_setSegment | apply adjust_keys]. Qed.

Lemma forest_sameNames rank b c : sameNames b c -> forest rank b -> forest rank c.
Proof.
  intros ((_ & _ & Hc) & Hk) [Hr Hp He].
  split; unfold ranked; rewrite Hc; try rewrite Hk; assumption.
Qed.

Lemma attached_same b c p q :
  getSegment c p = getSegment b p -> getSegment c q = getSegment b q ->
  attached b p q -> attached c p q.
Proof. intros Hp Hq H parent child. rewrite Hp, Hq. apply H. Qed.

Lemma reach_has_first conns p q :
  reach conns p q -> exists c, isEdge conns p c /\ under conns c q.
Proof.
  intros H. induction H as [p c He | p q0 q _ (c & Hc & Hu) He].
  - exists c. split; [exact He | now left].
  - exists c. split; [exact Hc | right; now apply (under_step conns c q0)].
Qed.

(** The result [b'] of laying out the subtree of [p] from [b]:
    nothing but the strict descendants of [p] is written, and every
    edge below [p] is exact. *)
Definition laidOut (b b' : Body) (p : string) : Prop :=
  sameNames b b'
  /\ (forall q, reach (connections b) p q \/ getSegment b' q = getSegment b q)
  /\ (forall q r, under (connections b) p q -> isEdge (connections b) q r ->
                  attached b' q r).

Definition laidOutList (b b' : Body) (p : string) (cs : list string) : Prop :=
  sameNames b b'
  /\ (forall q, (exists c, In c cs /\ under (connections b) c q)
                \/ getSegment b' q = getSegment b q)
  /\ (forall c q r, In c cs ->
        (q = p /\ r = c) \/ (under (connections b) c q /\ isEdge (connections b) q r) ->
        attached b' q r).

Lemma getSegment_setSegment_same k f b :
  getSegment (setSegment k f b) k = option_map f (getSegment b k).
Proof. apply find_adjust_same. Qed.

Lemma getSegment_setSegment_other k f b q :
  q <> k -> getSegment (setSegment k f b) q = getSegment b q.
Proof. apply find_adjust_other. Qed.

Lemma updateChildren_laidOut rank rec p :
  (forall c b0 b0', forest rank b0 -> rec c b0 = Some b0' -> laidOut b0 b0' c) ->
  forall cs b b',
    forest rank b ->
    (forall c, In c cs -> isEdge (connections b) p c) ->
    updateChildren rec p cs b = Some b' ->
    laidOutList b b' p cs.
Proof.
  intros Hrec. induction cs as [| c rest IH]; intros b b' Hf Hcs H.
  - cbn in H. injection H as <-. split; [apply sameNames_refl | ].
    split; [now right | intros c q r []].
  - cbn [updateChildren] in H.
    assert (Hr := forest_ranked rank b Hf).
    assert (Hpc : isEdge (connections b) p c) by (apply Hcs; now left).
    destruct (forest_exists rank b Hf p c Hpc) as (Hinp & Hinc).
    destruct (find_keys p _ Hinp) as (ps & Eps).
    destruct (find_keys c _ Hinc) as (cseg & Ecs).
    fold (getSegment b p) in Eps. fold (getSegment b c) in Ecs.
    rewrite Ecs, Eps in H.
    set (b1 := setSegment c (setStart (getEnd ps)) b) in *.
    assert (Hn1 : sameNames b b1) by apply sameNames_setSegment.
    assert (Hf1 : forest rank b1) by now apply (forest_sameNames rank b).
    destruct (rec c b1) as [b2 |] eqn:E2; [ | discriminate].
    destruct (Hrec c b1 b2 Hf1 E2) as (Hn2 & HD2 & HA2).
    assert (Hc1 : connections b1 = connections b) by reflexivity.
    rewrite Hc1 in HD2, HA2.
    assert (HF2 : forall q, ~ reach (connections b) c q ->
                            getSegment b2 q = getSegment b1 q)
      by (intros q Hq; destruct (HD2 q); [contradiction | assumption]).
    assert (Hf2 : forest rank b2) by now apply (forest_sameNames rank b1).
    assert (Hc2 : connections b2 = connections b)
      by (destruct Hn2 as ((_ & _ & ->) & _); exact Hc1).
    assert (Hrest : forall c', In c' rest -> isEdge (connections b2) p c')
      by (intros c' Hc'; rewrite Hc2; apply Hcs; now right).
    destruct (IH b2 b' Hf2 Hrest H) as (Hn3 & HD3 & HA3).
    rewrite Hc2 in HA3.
    assert (HD3' : forall q, (exists c, In c rest /\ under (connections b) c q)
                             \/ getSegment b' q = getSegment b2 q)
      by (intros q; rewrite <- Hc2; apply HD3).
    clear HD3.
    assert (HF3 : forall q, (forall c, In c rest -> ~ under (connections b) c q) ->
                            getSegment b' q = getSegment b2 q).
    { intros q Hq. destruct (HD3' q) as [(c' & Hc' & Hu) | Hx]; [ | exact Hx].
      now destruct (Hq c' Hc'). }
    assert (Hcc : ~ reach (connections b) c c)
      by (intros Hx; pose proof (reach_rank rank b c c Hr Hx); lia).
    assert (Hcp : ~ reach (connections b) c p).
    { intros Hx. pose proof (reach_rank rank b c p Hr Hx).
      pose proof (isEdge_rank rank b p c Hr Hpc). lia. }
    assert (Hpne : p <> c).
    { intros ->. pose proof (isEdge_rank rank b c c Hr Hpc). lia. }
    split; [ | split].
    + apply (sameNames_trans b b2 b'); [ | assumption].
      now apply (sameNames_trans b b1 b2).
    + intros q.
      destruct (HD3' q) as [(c' & Hc' & Hu) | E3];
        [left; exists c'; split; [now right | exact Hu] | ].
      destruct (HD2 q) as [Hx | E2'];
        [left; exists c; split; [now left | now right] | ].
      destruct (string_dec q c) as [-> | Hne];
        [left; exists c; split; now left | ].
      right. rewrite E3, E2'. now apply getSegment_setSegment_other.
    + intros c0 q r Hin Hcase.
      destruct (in_dec string_dec c0 rest) as [Hin' | Hnin];
        [exact (HA3 c0 q r Hin' Hcase) | ].
      destruct Hin as [<- | Hin]; [ | contradiction].
      (* what the rest of the loop leaves alone *)
      assert (Hkeep : forall x, x = p \/ under (connections b) c x ->
                                getSegment b' x = getSegment b2 x).
      { intros x Hx. apply HF3. intros c' Hc' Hu.
        assert (Hpc' : isEdge (connections b) p c') by (apply Hcs; now right).
        destruct Hx as [-> | Hx].
        - pose proof (under_rank rank b c' p Hr Hu).
          pose proof (isEdge_rank rank b p c' Hr Hpc'). lia.
        - apply (siblings_disjoint rank b p c c' x Hf Hpc Hpc'); auto.
          intros ->. contradiction. }
      destruct Hcase as [(-> & ->) | (Hu & He)].
      * intros parent child.
        rewrite (Hkeep p (or_introl eq_refl)).
        rewrite (Hkeep c (or_intror (or_introl eq_refl))).
        rewrite (HF2 p Hcp), (HF2 c Hcc).
        unfold b1. rewrite getSegment_setSegment_same.
        rewrite (getSegment_setSegment_other c _ b p Hpne).
        rewrite Eps, Ecs. cbn. intros [= <-] [= <-]. reflexivity.
      * apply (attached_same b2).
        -- apply Hkeep. now right.
        -- apply Hkeep. right. right. now apply (under_step _ c q).
        -- now apply HA2.
Qed.

Lemma isEdge_find conns p cs c :
  find p conns = Some cs -> isEdge conns p c -> In c cs.
Proof. intros Hf (cs' & Hf' & Hin). congruence. Qed.

Lemma updateChildSegments_laidOut rank :
  forall fuel p b b',
    forest rank b -> updateChildSegments fuel p b = Some b' -> laidOut b b' p.
Proof.
  induction fuel as [| fuel IH]; intros p b b' Hf H; [discriminate | ].
  cbn [updateChildSegments] in H.
  assert (Hnone : (forall r, ~ isEdge (connections b) p r) -> laidOut b b p).
  { intros Hno. split; [apply sameNames_refl | ]. split; [now right | ].
    intros q r [-> | Hx] He; [now destruct (Hno r) | ].
    apply reach_has_first in Hx. destruct Hx as (c & Hc & _).
    now destruct (Hno c). }
  destruct (find p (connections b)) as [children |] eqn:E.
  2: { injection H as <-. apply Hnone. intros r (cs & Hcs & _). congruence. }
  destruct (getSegment b p) as [ps |] eqn:Eps.
  2: { injection H as <-. apply Hnone. intros r He.
       destruct (forest_exists rank b Hf p r He) as (Hin & _).
       destruct (find_keys p _ Hin) as (v & Hv).
       unfold getSegment in Eps. congruence. }
  assert (Hcs : forall c, In c children -> isEdge (connections b) p c)
    by (intros c Hc; now exists children).
  destruct (updateChildren_laidOut rank (updateChildSegments fuel) p
              (fun c b0 b0' => IH c b0 b0') children b b' Hf Hcs H)
    as (Hn & HD & HA).
  split; [exact Hn | ]. split.
  - intros q. destruct (HD q) as [(c & Hc & Hu) | Hx]; [left | now right].
    apply (under_first _ p c q); auto.
  - intros q r [-> | Hx] He.
    + apply (HA r p r); [exact (isEdge_find _ p children r E He) | now left].
    + apply reach_has_first in Hx. destruct Hx as (c & Hc & Hu).
      apply (HA c q r); [exact (isEdge_find _ p children c E Hc) | now right].
Qed.

(** ** Rotating a segment of a forest *)

(** Writing [f] into [name] and laying out what hangs below it: the
    edges that held still hold, provided [f] leaves the start alone. *)
Lemma relay_connected rank fuel name (f : Segment -> Segment) b b' :
  forest rank b -> connected b ->
  (forall s, getStart (f s) = getStart s) ->
  updateChildSegments fuel name (setSegment name f b) = Some b' ->
  connected b'
  /\ sameNames b b'
  /\ (forall q, under (connections b) name q \/ getSegment b' q = getSegment b q).
Proof.
  intros Hf Hconn Hstart H.
  set (b1 := setSegment name f b) in *.
  assert (Hr := forest_ranked rank b Hf).
  assert (Hn1 : sameNames b b1) by apply sameNames_setSegment.
  assert (Hf1 : forest rank b1) by now apply (forest_sameNames rank b).
  destruct (updateChildSegments_laidOut rank fuel name b1 b' Hf1 H)
    as (Hn & HD & HA).
  assert (Hc1 : connections b1 = connections b) by reflexivity.
  rewrite Hc1 in HD, HA.
  assert (Hc' : connections b' = connections b)
    by (destruct Hn as ((_ & _ & ->) & _); exact Hc1).
  assert (Hframe : forall q, under (connections b) name q
                             \/ getSegment b' q = getSegment b q).
  { intros q. destruct (string_dec q name) as [-> | Hne]; [left; now left | ].
    destruct (HD q) as [Hx | Hx]; [left; now right | right].
    rewrite Hx. now apply getSegment_setSegment_other. }
  split; [ | split; [now apply (sameNames_trans b b1 b') | exact Hframe]].
  intros p children c Hfind Hin. rewrite Hc' in Hfind.
  assert (He : isEdge (connections b) p c) by now exists children.
  destruct (Hframe p) as [Hu | Ep];
    [apply attached_edgeHolds; now apply HA | ].
  destruct (string_dec c name) as [-> | Hne].
  - destruct (HD name) as [Hx | En].
    { pose proof (reach_rank rank b name name Hr Hx). lia. }
    intros parent child. rewrite Ep, En. unfold b1.
    rewrite getSegment_setSegment_same.
    destruct (getSegment b name) as [s |] eqn:Es; [ | discriminate].
    cbn. intros Hp [= <-]. rewrite Hstart.
    exact (Hconn p children name Hfind Hin parent s Hp Es).
  - destruct (HD c) as [Hx | Ec].
    + apply reach_last in Hx. destruct Hx as (q0 & Hu & He0).
      rewrite (forest_parent rank b Hf q0 p c He0 He) in Hu.
      apply attached_edgeHolds. now apply HA.
    + intros parent child. rewrite Ep, Ec. unfold b1.
      rewrite (getSegment_setSegment_other name f b c Hne).
      exact (Hconn p children c Hfind Hin parent child).
Qed.

Lemma rotateTo_start a s : getStart (snd (rotateTo a s)) = getStart s.
Proof. reflexivity. Qed.

Lemma rotate_start a s : getStart (snd (rotate a s)) = getStart s.
Proof. reflexivity. Qed.

(** X7.  On a forest whose edges all hold, a rotation that reports
    success leaves every edge holding, keeps the names, the base, the
    ground level and the connections, and writes nothing outside the
    subtree of the rotated segment. *)
Theorem successful_rotation_keeps_connected :
  forall (rank : string -> nat) (fuel : nat) (name : string) (angle : R)
         (b b' : Body),
    forest rank b -> connected b ->
    rotateSegment fuel name angle b = Some (true, b')
    \/ rotateSegmentTo fuel name angle b = Some (true, b') ->
    connected b'
    /\ sameNames b b'
    /\ (forall q, under (connections b) name q
                  \/ getSegment b' q = getSegment b q).
Proof.
  intros rank fuel name angle b b' Hf Hconn [H | H].
  - unfold rotateSegment in H.
    destruct (getSegment b name) as [s |]; [ | discriminate].
    cbv zeta in H. destruct (fst (rotate angle s)); [ | discriminate].
    destruct (updateChildSegments fuel name _) as [b2 |] eqn:E; [ | discriminate].
    injection H as <-.
    apply (relay_connected rank fuel name _ b b2 Hf Hconn (rotate_start angle) E).
  - unfold rotateSegmentTo in H.
    destruct (getSegment b name) as [s |]; [ | discriminate].
    cbv zeta in H. destruct (fst (rotateTo angle s)); [ | discriminate].
    destruct (updateChildSegments fuel name _) as [b2 |] eqn:E; [ | discriminate].
    injection H as <-.
    apply (relay_connected rank fuel name _ b b2 Hf Hconn (rotateTo_start angle) E).
Qed.

(** ** Roots *)

Lemma find_In {A} k (v : A) (l : list (string * A)) :
  find k l = Some v -> In (k, v) l.
Proof.
  induction l as [| [k' v'] l IH]; cbn; [discriminate | ].
  destruct (String.eqb k k') eqn:E.
  - apply String.eqb_eq in E. subst k'. intros [= ->]. now left.
  - intros H. right. now apply IH.
Qed.

Lemma find_NoDup {A} k (v : A) (l : list (string * A)) :
  NoDup (map fst l) -> In (k, v) l -> find k l = Some v.
Proof.
  induction l as [| [k' v'] l IH]; cbn; [contradiction | ].
  intros Hnd [E | Hin].
  - injection E as -> ->. now rewrite String.eqb_refl.
  - inversion Hnd as [| ? ? Hnotin Hnd']; subst.
    destruct (String.eqb k k') eqn:E; [ | now apply IH].
    apply String.eqb_eq in E. subst k'. exfalso. apply Hnotin.
    change k with (fst (k, v)). now apply in_map.
Qed.

Lemma find_some_keys {A} k (v : A) (l : list (string * A)) :
  find k l = Some v -> In k (map fst l).
Proof.
  intros H. apply find_In in H. change k with (fst (k, v)). now apply in_map.
Qed.

(** A segment some edge leads to is seen as a child. *)
Lemma isChild_edge b p c : isEdge (connections b) p c -> isChild b c = true.
Proof.
  intros (cs & Hf & Hin). unfold isChild. apply existsb_exists.
  exists (p, cs). split; [now apply find_In | ].
  cbn. apply existsb_exists. exists c. split; [exact Hin | apply String.eqb_refl].
Qed.

(** With unique keys, a segment seen as a child has a parent. *)
Lemma isChild_parent b c :
  NoDup (map fst (connections b)) -> isChild b c = true ->
  exists p, isEdge (connections b) p c.
Proof.
  intros Hnd H. unfold isChild in H. apply existsb_exists in H.
  destruct H as ([p cs] & Hin & Hc). cbn in Hc.
  apply existsb_exists in Hc. destruct Hc as (c' & Hc' & E).
  apply String.eqb_eq in E. subst c'.
  exists p, cs. split; [now apply find_NoDup | exact Hc'].
Qed.

(** The trees of two roots are disjoint. *)
Lemma roots_disjoint rank b r r' q :
  forest rank b ->
  (forall p, ~ isEdge (connections b) p r) ->
  (forall p, ~ isEdge (connections b) p r') -> r <> r' ->
  under (connections b) r q -> under (connections b) r' q -> False.
Proof.
  intros Hf Hr Hr' Hne Hq. revert Hne.
  assert (Hgen : forall q, under (connections b) r q ->
                           under (connections b) r' q -> r = r').
  { clear q Hq. intros q [-> | H].
    - intros [E | H']; [now symmetry | ].
      apply reach_last in H'. destruct H' as (q0 & _ & He). now destruct (Hr q0).
    - induction H as [r q He | r q0 q H IH He]; intros [E | H'].
      + subst q. now destruct (Hr' r).
      + apply reach_last in H'. destruct H' as (q0 & Hu & He').
        rewrite (forest_parent rank b Hf q0 r q He' He) in Hu.
        destruct Hu as [E | Hu]; [now symmetry | ].
        apply reach_last in Hu. destruct Hu as (q1 & _ & He1).
        now destruct (Hr q1).
      + subst q. now destruct (Hr' q0).
      + apply reach_last in H'. destruct H' as (q1 & Hu & He').
        rewrite (forest_parent rank b Hf q1 q0 q He' He) in Hu.
        destruct Hu as [E | Hu].
        * subst q0. apply reach_last in H. destruct H as (q2 & _ & He2).
          now destruct (Hr' q2).
        * exact (IH Hr (or_intror Hu)). }
  intros Hne Hq'. apply Hne. exact (Hgen q Hq Hq').
Qed.

(** Every segment hangs below a root. *)
Lemma has_root rank (bound : nat) b :
  forest rank b -> NoDup (map fst (connections b)) ->
  (forall name, (rank name < bound)%nat) ->
  forall q, In q (map fst (segments b)) ->
    exists r, In r (map fst (segments b)) /\ isChild b r = false
              /\ under (connections b) r q.
Proof.
  intros Hf Hnd Hb.
  assert (Hr := forest_ranked rank b Hf).
  assert (Hgen : forall n q, (bound - rank q <= n)%nat ->
            In q (map fst (segments b)) ->
            exists r, In r (map fst (segments b)) /\ isChild b r = false
                      /\ under (connections b) r q).
  { induction n as [| n IH]; intros q Hn Hq.
    - specialize (Hb q). lia.
    - destruct (isChild b q) eqn:E.
      + destruct (isChild_parent b q Hnd E) as (p & He).
        pose proof (isEdge_rank rank b p q Hr He).
        destruct (forest_exists rank b Hf p q He) as (Hp & _).
        destruct (IH p) as (r & Hin & Hroot & Hu);
          [specialize (Hb p); lia | exact Hp | ].
        exists r. repeat split; auto. right. now apply (under_step _ r p).
      + exists q. repeat split; auto. now left. }
  intros q. now apply (Hgen (bound - rank q)%nat).
Qed.

(** The loops of [updateSegments] and [moveBaseTo] over the roots:
    [f] is what the loop writes into a root before it lays out what
    hangs below it. *)
Fixpoint placeRoots (f : Segment -> Segment) (fuel : nat)
    (roots : list string) (b : Body) : option Body :=
  match roots with
  | [] => Some b
  | rootName :: rest =>
      match updateChildSegments fuel rootName (setSegment rootName f b) with
      | Some b' => placeRoots f fuel rest b'
      | None => None
      end
  end.

Definition placed (f : Segment -> Segment) (b b' : Body) (roots : list string)
    : Prop :=
  sameNames b b'
  /\ (forall q, (exists r, In r roots /\ under (connections b) r q)
                \/ getSegment b' q = getSegment b q)
  /\ (forall r q c, In r roots -> under (connections b) r q ->
                    isEdge (connections b) q c -> attached b' q c)
  /\ (forall r s', In r roots -> getSegment b' r = Some s' -> exists s, s' = f s).

Lemma placeRoots_placed rank f fuel :
  forall roots b b',
    forest rank b ->
    (forall r, In r roots -> forall p, ~ isEdge (connections b) p r) ->
    placeRoots f fuel roots b = Some b' ->
    placed f b b' roots.
Proof.
  induction roots as [| r rest IH]; intros b b' Hf Hroots H.
  - cbn in H. injection H as <-. split; [apply sameNames_refl | ].
    split; [now right | ]. split; [intros ? ? ? [] | intros ? ? []].
  - cbn [placeRoots] in H.
    assert (Hr := forest_ranked rank b Hf).
    set (b1 := setSegment r f b) in *.
    assert (Hn1 : sameNames b b1) by apply sameNames_setSegment.
    assert (Hf1 : forest rank b1) by now apply (forest_sameNames rank b).
    destruct (updateChildSegments fuel r b1) as [b2 |] eqn:E2; [ | discriminate].
    destruct (updateChildSegments_laidOut rank fuel r b1 b2 Hf1 E2)
      as (Hn2 & HD2 & HA2).
    assert (Hc1 : connections b1 = connections b) by reflexivity.
    rewrite Hc1 in HD2, HA2.
    assert (Hf2 : forest rank b2) by now apply (forest_sameNames rank b1).
    assert (Hc2 : connections b2 = connections b)
      by (destruct Hn2 as ((_ & _ & ->) & _); exact Hc1).
    assert (Hrest : forall r', In r' rest ->
                               forall p, ~ isEdge (connections b2) p r')
      by (intros r' Hr'; rewrite Hc2; apply Hroots; now right).
    destruct (IH b2 b' Hf2 Hrest H) as (Hn3 & HD3 & HA3 & HS3).
    rewrite Hc2 in HA3.
    assert (HD3' : forall q, (exists r', In r' rest /\ under (connections b) r' q)
                             \/ getSegment b' q = getSegment b2 q)
      by (intros q; rewrite <- Hc2; apply HD3).
    clear HD3.
    assert (Hrr : ~ reach (connections b) r r)
      by (intros Hx; pose proof (reach_rank rank b r r Hr Hx); lia).
    assert (Hkeep : ~ In r rest -> forall x, under (connections b) r x ->
                                   getSegment b' x = getSegment b2 x).
    { intros Hnin x Hx. destruct (HD3' x) as [(r' & Hr' & Hu) | Hk]; [ | exact Hk].
      exfalso. apply (roots_disjoint rank b r r' x Hf); auto.
      - apply Hroots. now left.
      - apply Hroots. now right.
      - intros ->. contradiction. }
    split; [ | split; [ | split]].
    + apply (sameNames_trans b b2 b'); [ | assumption].
      now apply (sameNames_trans b b1 b2).
    + intros q.
      destruct (HD3' q) as [(r' & Hr' & Hu) | E3];
        [left; exists r'; split; [now right | exact Hu] | ].
      destruct (HD2 q) as [Hx | E2'];
        [left; exists r; split; [now left | now right] | ].
      destruct (string_dec q r) as [-> | Hne];
        [left; exists r; split; now left | ].
      right. rewrite E3, E2'. now apply getSegment_setSegment_other.
    + intros r0 q c Hin Hu He.
      destruct (in_dec string_dec r0 rest) as [Hin' | Hnin];
        [exact (HA3 r0 q c Hin' Hu He) | ].
      destruct Hin as [<- | Hin]; [ | contradiction].
      apply (attached_same b2).
      * now apply Hkeep.
      * apply Hkeep; [assumption | ]. right. now apply (under_step _ r q).
      * now apply HA2.
    + intros r0 s' Hin Hs'.
      destruct (in_dec string_dec r0 rest) as [Hin' | Hnin];
        [exact (HS3 r0 s' Hin' Hs') | ].
      destruct Hin as [<- | Hin]; [ | contradiction].
      rewrite (Hkeep Hnin r (or_introl eq_refl)) in Hs'.
      destruct (HD2 r) as [Hx | Ex]; [contradiction | ].
      rewrite Ex in Hs'. unfold b1 in Hs'.
      rewrite getSegment_setSegment_same in Hs'.
      destruct (getSegment b r) as [s |]; [ | discriminate].
      exists s. now injection Hs' as <-.
Qed.

Lemma placeRoots_ext f g fuel roots b :
  (forall s, f s = g s) -> placeRoots f fuel roots b = placeRoots g fuel roots b.
Proof.
  intros Hfg. revert b. induction roots as [| r rest IH]; intros b; [reflexivity | ].
  cbn [placeRoots].
  assert (E : setSegment r f b = setSegment r g b).
  { unfold setSegment. f_equal. generalize (segments b).
    induction l as [| [k v] l IHl]; cbn; [reflexivity | ].
    destruct (String.eqb r k); [now rewrite Hfg | now rewrite IHl]. }
  rewrite E. destruct (updateChildSegments fuel r _); [apply IH | reflexivity].
Qed.

Lemma updateChildSegments_sameFrame fuel p b b' :
  updateChildSegments fuel p b = Some b' -> sameFrame b b'.
Proof.
  intros H.
  assert (Hp : paired (segments b) (segments b) b b)
    by (repeat split; apply since_start, sameShape_refl).
  pose proof (updateChildSegments_paired _ _ fuel p b b Hp) as Hl.
  rewrite H in Hl. apply Hl. intros s s'. congruence.
Qed.

Lemma layoutRoots_placeRoots fuel roots :
  forall b, layoutRoots fuel roots b
            = placeRoots (setStart (getBasePosition b)) fuel roots b.
Proof.
  induction roots as [| r rest IH]; intros b; [reflexivity | ].
  cbn [layoutRoots placeRoots].
  destruct (updateChildSegments fuel r _) as [b2 |] eqn:E; [ | reflexivity].
  rewrite IH. apply updateChildSegments_sameFrame in E.
  destruct E as (Hb & _). cbn in Hb. now rewrite Hb.
Qed.

Lemma moveRoots_placeRoots fuel displacement names :
  forall b, moveRoots fuel displacement names b
            = placeRoots (fun s => setStart (Vec.plus (getStart s) displacement) s)
                fuel (filter (fun name => negb (isChild b name)) names) b.
Proof.
  induction names as [| n rest IH]; intros b; [reflexivity | ].
  cbn [moveRoots filter]. destruct (negb (isChild b n)); [ | apply IH].
  cbn [placeRoots].
  destruct (updateChildSegments fuel n _) as [b2 |] eqn:E; [ | reflexivity].
  rewrite IH. apply updateChildSegments_sameFrame in E.
  destruct E as (_ & _ & Hc). cbn in Hc.
  f_equal. apply filter_ext. intros name. f_equal.
  now apply isChild_frame.
Qed.

(** Every edge is exact: the child starts at the very point where
    its parent ends. *)
Definition exactlyConnected (b : Body) : Prop :=
  forall p c, isEdge (connections b) p c -> attached b p c.

Lemma exactlyConnected_connected b : exactlyConnected b -> connected b.
Proof.
  intros H p children c Hf Hin. apply attached_edgeHolds, H. now exists children.
Qed.

Lemma placeRoots_exact rank f fuel names b b' :
  forest rank b -> NoDup (map fst (connections b)) ->
  (forall name, (rank name < fuel)%nat) ->
  (forall q, In q (map fst (segments b)) -> isChild b q = false -> In q names) ->
  placeRoots f fuel (filter (fun name => negb (isChild b name)) names) b = Some b' ->
  exactlyConnected b'
  /\ sameNames b b'
  /\ (forall r s', In r names -> isChild b r = false ->
                   getSegment b' r = Some s' -> exists s, s' = f s).
Proof.
  intros Hf Hnd Hfuel Hall H.
  apply (placeRoots_placed rank) in H; [ | exact Hf | ].
  2: { intros r Hr p He. apply filter_In in Hr. destruct Hr as (_ & Hr).
       rewrite (isChild_edge b p r He) in Hr. discriminate. }
  destruct H as (Hn & _ & HA & HS).
  split; [ | split; [exact Hn | ]].
  - intros p c He.
    assert (Hc : connections b' = connections b) by (destruct Hn as ((_ & _ & Hc) & _); exact Hc).
    rewrite Hc in He.
    destruct (forest_exists rank b Hf p c He) as (Hp & _).
    destruct (has_root rank fuel b Hf Hnd Hfuel p Hp) as (r & Hin & Hroot & Hu).
    apply (HA r p c); auto. apply filter_In. split; [now apply Hall | ].
    now rewrite Hroot.
  - intros r s' Hin Hroot. apply HS. apply filter_In. split; [exact Hin | ].
    now rewrite Hroot.
Qed.

Lemma placeRoots_returns rank f fuel :
  (forall name, (rank name < fuel)%nat) ->
  forall roots b, ranked rank b -> exists b', placeRoots f fuel roots b = Some b'.
Proof.
  intros Hfuel. induction roots as [| r rest IH]; intros b Hr;
    [now exists b | ].
  cbn [placeRoots].
  destruct (updateChildSegments_returns rank fuel r (setSegment r f b))
    as (b1 & -> & Hf1); [apply Hfuel | exact Hr | ].
  apply IH. apply (ranked_frame rank b); [ | assumption].
  eapply sameFrame_trans; [apply sameFrame_setSegment | exact Hf1].
Qed.

Lemma updateSegments_exact :
  forall (rank : string -> nat) (fuel : nat) (b : Body),
    forest rank b -> NoDup (map fst (connections b)) ->
    (forall name, (rank name < fuel)%nat) ->
    exists b',
      updateSegments fuel b = Some b'
      /\ exactlyConnected b'
      /\ sameNames b b'
      /\ (forall name s, isChild b name = false ->
                         getSegment b' name = Some s ->
                         getStart s = getBasePosition b).
Proof.
  intros rank fuel b Hf Hnd Hfuel.
  unfold updateSegments. rewrite layoutRoots_placeRoots.
  destruct (placeRoots_returns rank (setStart (getBasePosition b)) fuel Hfuel
              (filter (fun name => negb (isChild b name)) (map fst (segments b)))
              b (forest_ranked rank b Hf)) as (b' & H).
  exists b'. split; [exact H | ].
  destruct (placeRoots_exact rank _ fuel _ b b' Hf Hnd Hfuel (fun q Hq _ => Hq) H)
    as (He & Hn & HS).
  split; [exact He | ]. split; [exact Hn | ].
  intros name s Hroot Hs.
  destruct (HS name s) as (s0 & ->); auto.
  destruct Hn as (_ & <-). now apply (find_some_keys name s).
Qed.

(** X6.  On a forest a layout pass returns once the fuel exceeds every
    rank, and its result is connected: every child starts at the very
    end of its parent, every root starts at the base position, and
    names, base, ground level and connections are those of the
    body the pass started from. *)
Theorem updateSegments_connects :
  forall (rank : string -> nat) (fuel : nat) (b : Body),
    forest rank b -> NoDup (map fst (connections b)) ->
    (forall name, (rank name < fuel)%nat) ->
    exists b',
      updateSegments fuel b = Some b'
      /\ exactlyConnected b' /\ connected b'
      /\ getSegmentNames b' = getSegmentNames b
      /\ getBasePosition b' = getBasePosition b
      /\ getGroundLevel b' = getGroundLevel b
      /\ connections b' = connections b
      /\ (forall name s, isChild b name = false ->
                         getSegment b' name = Some s ->
                         getStart s = getBasePosition b).
Proof.
  intros rank fuel b Hf Hnd Hfuel.
  destruct (updateSegments_exact rank fuel b Hf Hnd Hfuel)
    as (b' & H & Hex & ((Hb & Hg & Hc) & Hk) & Hroot).
  exists b'. split; [exact H | ]. split; [exact Hex | ].
  split; [exact (exactlyConnected_connected b' Hex) | ].
  split; [exact Hk | ]. split; [exact Hb | ]. split; [exact Hg | ].
  split; [exact Hc | exact Hroot].
Qed.

(** X8.  On a forest [moveBaseTo] returns once the fuel exceeds every
    rank; the result has the new base position, the same names,
    ground level and connections, and is connected: every child
    starts at the very end of its parent. *)
Theorem moveBaseTo_connects :
  forall (rank : string -> nat) (fuel : nat) (newBase : Vector2D) (b : Body),
    forest rank b -> NoDup (map fst (connections b)) ->
    (forall name, (rank name < fuel)%nat) ->
    exists b',
      moveBaseTo fuel newBase b = Some b'
      /\ exactlyConnected b' /\ connected b'
      /\ getBasePosition b' = newBase
      /\ getGroundLevel b' = getGroundLevel b
      /\ connections b' = connections b
      /\ map fst (segments b') = map fst (segments b).
Proof.
  intros rank fuel newBase b Hf Hnd Hfuel.
  unfold moveBaseTo. cbv zeta. rewrite moveRoots_placeRoots.
  set (b1 := mkBody newBase (getGroundLevel b) (segments b) (connections b)).
  assert (Hf1 : forest rank b1) by (destruct Hf; now split).
  match goal with |- context [placeRoots ?f fuel ?roots b1] =>
    destruct (placeRoots_returns rank f fuel Hfuel roots b1
                (forest_ranked rank b1 Hf1)) as (b' & H);
    destruct (placeRoots_exact rank f fuel _ b1 b' Hf1 Hnd Hfuel
                (fun q Hq _ => Hq) H) as (He & ((Hb & Hg & Hc) & Hk) & _)
  end.
  exists b'. split; [exact H | ].
  split; [exact He | ]. split; [now apply exactlyConnected_connected | ].
  auto.
Qed.

(** ** Moving the base is a rigid translation *)

Lemma sameShape_find k l l' :
  sameShape l l' ->
  match find k l, find k l' with
  | Some s, Some s' => sameJoint s s'
  | None, None => True
  | _, _ => False
  end.
Proof.
  induction 1 as [| k' s s' l l' Hj _ IH]; cbn; [exact I | ].
  destruct (String.eqb k k'); [exact Hj | exact IH].
Qed.


















(** ** The body of the constructor *)

(** The edges of a map of connections, key by key. *)
Definition edgesOf (conns : list (string * list string))
    : list (string * string) :=
  flat_map (fun conn => map (pair (fst conn)) (snd conn)) conns.

(** A check of [forest] that runs. *)
Definition forestb (rank : string -> nat) (b : Body) : bool :=
  let es := edgesOf (connections b) in
  let names := map fst (segments b) in
  forallb
    (fun e =>
       (rank (snd e) <? rank (fst e))%nat
       && existsb (String.eqb (fst e)) names
       && existsb (String.eqb (snd e)) names
       && forallb (fun e' => negb (String.eqb (snd e) (snd e'))
                             || String.eqb (fst e) (fst e')) es)
    es.

Lemma isEdge_edgesOf conns p c : isEdge conns p c -> In (p, c) (edgesOf conns).
Proof.
  intros (cs & Hf & Hin). apply find_In in Hf.
  unfold edgesOf. apply in_flat_map. exists (p, cs). split; [exact Hf | ].
  cbn. now apply in_map.
Qed.

Lemma existsb_eqb_In k l : existsb (String.eqb k) l = true -> In k l.
Proof.
  intros H. apply existsb_exists in H. destruct H as (k' & Hin & E).
  apply String.eqb_eq in E. now subst k'.
Qed.

Lemma forestb_sound rank b : forestb rank b = true -> forest rank b.
Proof.
  unfold forestb. cbv zeta. intros H.
  assert (Hall := proj1 (forallb_forall _ _) H). clear H.
  assert (Hedge : forall p c, isEdge (connections b) p c ->
            (rank c < rank p)%nat
            /\ In p (map fst (segments b)) /\ In c (map fst (segments b))
            /\ forall p', isEdge (connections b) p' c -> p = p').
  { intros p c He. specialize (Hall (p, c) (isEdge_edgesOf _ p c He)).
    cbn in Hall.
    apply andb_prop in Hall. destruct Hall as (Hall & Hu).
    apply andb_prop in Hall. destruct Hall as (Hall & Hc).
    apply andb_prop in Hall. destruct Hall as (Hlt & Hp).
    apply Nat.ltb_lt in Hlt.
    repeat split; auto using existsb_eqb_In.
    intros p' He'.
    pose proof (proj1 (forallb_forall _ _) Hu (p', c) (isEdge_edgesOf _ p' c He')) as Hx.
    cbn in Hx. rewrite String.eqb_refl in Hx. cbn in Hx.
    now apply String.eqb_eq in Hx. }
  split.
  - intros p cs c Hf Hin. apply (Hedge p c). now exists cs.
  - intros p p' c He He'. now apply (Hedge p c He).
  - intros p c He. split; now apply (Hedge p c He).
Qed.

(** How far a segment of the humanoid is from the tips. *)
Definition humanoid_rank (name : string) : nat :=
  if String.eqb name "torso" then 3
  else if existsb (String.eqb name)
            ["left_upper_arm"; "right_upper_arm";
             "left_upper_leg"; "right_upper_leg"] then 2
  else if existsb (String.eqb name)
            ["left_lower_arm"; "right_lower_arm";
             "left_lower_leg"; "right_lower_leg"] then 1
  else 0.

Lemma humanoid_rank_bound name : (humanoid_rank name < 16)%nat.
Proof.
  unfold humanoid_rank.
  repeat match goal with |- context [if ?c then _ else _] => destruct c end; lia.
Qed.

Lemma humanoid_forest junk base ground :
  forest humanoid_rank (humanoid junk base ground).
Proof. apply forestb_sound. eval_body. reflexivity. Qed.

Lemma humanoid_connection_keys junk base ground :
  NoDup (map fst (connections (humanoid junk base ground))).
Proof. eval_body. repeat constructor; cbn; intuition discriminate. Qed.

Lemma humanoid_segment_keys junk base ground :
  NoDup (map fst (segments (humanoid junk base ground))).
Proof. eval_body. repeat constructor; cbn; intuition discriminate. Qed.

Lemma updateSegments_connects_witness :
  exists b',
    updateSegments 16 (humanoid stand_junk (mkVector2D 100 400) 400) = Some b'
    /\ exactlyConnected b' /\ connected b'
    /\ getSegmentNames b'
       = getSegmentNames (humanoid stand_junk (mkVector2D 100 400) 400)
    /\ getBasePosition b'
       = getBasePosition (humanoid stand_junk (mkVector2D 100 400) 400)
    /\ getGroundLevel b'
       = getGroundLevel (humanoid stand_junk (mkVector2D 100 400) 400)
    /\ connections b'
       = connections (humanoid stand_junk (mkVector2D 100 400) 400)
    /\ (forall name s,
          isChild (humanoid stand_junk (mkVector2D 100 400) 400) name = false ->
          getSegment b' name = Some s ->
          getStart s
          = getBasePosition (humanoid stand_junk (mkVector2D 100 400) 400)).
Proof.
  apply (updateSegments_connects humanoid_rank 16
           (humanoid stand_junk (mkVector2D 100 400) 400)).
  - exact (humanoid_forest _ _ _).
  - exact (humanoid_connection_keys _ _ _).
  - exact humanoid_rank_bound.
Defined.

Lemma moveBaseTo_connects_witness :
  exists b',
    moveBaseTo 16 (mkVector2D 0 0)
      (humanoid stand_junk (mkVector2D 100 400) 400) = Some b'
    /\ exactlyConnected b' /\ connected b'
    /\ getBasePosition b' = mkVector2D 0 0
    /\ getGroundLevel b'
       = getGroundLevel (humanoid stand_junk (mkVector2D 100 400) 400)
    /\ connections b'
       = connections (humanoid stand_junk (mkVector2D 100 400) 400)
    /\ map fst (segments b')
       = map fst (segments (humanoid stand_junk (mkVector2D 100 400) 400)).
Proof.
  apply (moveBaseTo_connects humanoid_rank 16 (mkVector2D 0 0)
           (humanoid stand_junk (mkVector2D 100 400) 400)).
  - exact (humanoid_forest _ _ _).
  - exact (humanoid_connection_keys _ _ _).
  - exact humanoid_rank_bound.
Defined.

(** What the constructor returns is a forest with unique names whose
    edges are exact. *)
Lemma Body_new_forest junk base ground :
  exists b0,
    Body_new junk 16 base ground = Some b0
    /\ forest humanoid_rank b0
    /\ NoDup (map fst (connections b0))
    /\ NoDup (map fst (segments b0))
    /\ exactlyConnected b0.
Proof.
  destruct (updateSegments_exact humanoid_rank 16 (humanoid junk base ground)
              (humanoid_forest junk base ground)
              (humanoid_connection_keys junk base ground)
              humanoid_rank_bound)
    as (b0 & H & Hex & Hn & _).
  exists b0. split; [exact H | ].
  split; [exact (forest_sameNames humanoid_rank _ _ Hn
                   (humanoid_forest junk base ground)) | ].
  destruct Hn as ((_ & _ & Hc) & Hk). rewrite Hc, Hk.
  split; [exact (humanoid_connection_keys _ _ _) | ].
  split; [exact (humanoid_segment_keys _ _ _) | exact Hex].
Qed.

Lemma humanoid_arm_rotates junk base ground b0 :
  Body_new junk 16 base ground = Some b0 ->
  exists b1, rotateSegmentTo 16 "right_upper_arm" 0 b0 = Some (true, b1).
Proof.
  intros H. unfold Body_new in H.
  eval_body_in H. injection H as <-.
  unfold rotateSegmentTo. eval_body.
  rewrite clamp_arm_zero, (eqb_true 0 0) by reflexivity.
  cbn [negb]. eexists. reflexivity.
Qed.

Lemma successful_rotation_keeps_connected_witness :
  exists b0 b1,
    Body_new stand_junk 16 (mkVector2D 100 400) 400 = Some b0
    /\ rotateSegmentTo 16 "right_upper_arm" 0 b0 = Some (true, b1)
    /\ connected b1
    /\ sameNames b0 b1
    /\ (forall q, under (connections b0) "right_upper_arm" q
                  \/ getSegment b1 q = getSegment b0 q).
Proof.
  destruct (Body_new_forest stand_junk (mkVector2D 100 400) 400)
    as (b0 & H0 & Hf & _ & _ & Hex).
  destruct (humanoid_arm_rotates _ _ _ b0 H0) as (b1 & H1).
  exists b0, b1. split; [exact H0 | ]. split; [exact H1 | ].
  apply (successful_rotation_keeps_connected humanoid_rank 16
           "right_upper_arm" 0 b0 b1 Hf).
  - exact (exactlyConnected_connected b0 Hex).
  - right. exact H1.
Defined.



Lemma humanoid_names junk base ground :
  getSegmentNames (humanoid junk base ground)
  = ["head"; "left_foot"; "left_hand"; "left_lower_arm"; "left_lower_leg";
     "left_upper_arm"; "left_upper_leg"; "right_foot"; "right_hand";
     "right_lower_arm"; "right_lower_leg"; "right_upper_arm";
     "right_upper_leg"; "torso"].
Proof. eval_body. reflexivity. Qed.

Lemma humanoid_connections junk base ground :
  connections (humanoid junk base ground)
  = [("left_lower_arm", ["left_hand"]);
     ("left_lower_leg", ["left_foot"]);
     ("left_upper_arm", ["left_lower_arm"]);
     ("left_upper_leg", ["left_lower_leg"]);
     ("right_lower_arm", ["right_hand"]);
     ("right_lower_leg", ["right_foot"]);
     ("right_upper_arm", ["right_lower_arm"]);
     ("right_upper_leg", ["right_lower_leg"]);
     ("torso", ["head"; "left_upper_arm"; "right_upper_arm";
                "left_upper_leg"; "right_upper_leg"])].
Proof. eval_body. reflexivity. Qed.



End Articulation.

(* ================================================================== *)
(** * Part XIII.  The simulation loop                                  *)
(* ================================================================== *)

Section Driving.

Import Kin.
Local Open Scope string_scope.
Local Open Scope list_scope.
Local Open Scope R_scope.

(** ** Walker mode *)

Lemma placeRoots_sameFrame f fuel :
  forall roots b b', placeRoots f fuel roots b = Some b' -> sameFrame b b'.
Proof.
  induction roots as [| r rest IH]; intros b b' H.
  - injection H as <-. apply sameFrame_refl.
  - cbn [placeRoots] in H.
    destruct (updateChildSegments fuel r _) as [b2 |] eqn:E; [ | discriminate].
    apply updateChildSegments_sameFrame in E. apply IH in H.
    eapply sameFrame_trans; [ | exact H].
    eapply sameFrame_trans; [apply sameFrame_setSegment | exact E].
Qed.

Lemma moveBaseTo_connections fuel newBase b b' :
  moveBaseTo fuel newBase b = Some b' -> connections b' = connections b.
Proof.
  unfold moveBaseTo. cbv zeta. rewrite moveRoots_placeRoots. intros H.
  apply placeRoots_sameFrame in H. destruct H as (_ & _ & Hc). exact Hc.
Qed.

Lemma rotateSegment_connections fuel name deltaAngle b ok b' :
  rotateSegment fuel name deltaAngle b = Some (ok, b') ->
  connections b' = connections b.
Proof.
  unfold rotateSegment. destruct (getSegment b name) as [s |].
  2: { now intros [= _ <-]. }
  cbv zeta. destruct (fst (rotate deltaAngle s)).
  2: { now intros [= _ <-]. }
  destruct (updateChildSegments fuel name _) as [b2 |] eqn:E; [ | discriminate].
  intros [= _ <-]. apply updateChildSegments_sameFrame in E.
  destruct E as (_ & _ & Hc). exact Hc.
Qed.

(** No move of the walker touches the connections of the Body. *)
Lemma executeNextMove_connections fuel w b target ok w' b' :
  executeNextMove fuel w b target = Some (ok, w', b') ->
  connections b' = connections b.
Proof.
  unfold executeNextMove. destruct (plannedMoves w) as [| m rest].
  { now intros [= _ _ <-]. }
  destruct m as [position | segmentName position rotationAmount | ].
  - unfold executeWalkMove.
    destruct (negb (hasMinimumGroundContacts b (minGroundContacts w))).
    { now intros [= _ _ <-]. }
    destruct (moveBaseTo fuel position b) as [b1 |] eqn:E; [ | discriminate].
    intros [= _ _ <-]. now apply (moveBaseTo_connections fuel position).
  - unfold executeReachMove.
    destruct (negb (hasMinimumGroundContacts b (minGroundContacts w))).
    { now intros [= _ _ <-]. }
    destruct (getSegment b segmentName).
    2: { now intros [= _ _ <-]. }
    destruct (rotateSegment fuel segmentName rotationAmount b)
      as [[ok1 b1] |] eqn:E; [ | discriminate].
    intros [= _ _ <-].
    now apply (rotateSegment_connections fuel segmentName rotationAmount b ok1).
  - destruct target as [t |]; [ | discriminate].
    destruct (canReachObject b t (minObjectContacts w));
      now intros [= _ _ <-].
Qed.

Lemma executeNextMove_step rank fuel w b t move rest :
  ranked rank b -> (forall name, (rank name < fuel)%nat) ->
  plannedMoves w = move :: rest ->
  exists ok w' b',
    executeNextMove fuel w b (Some t) = Some (ok, w', b')
    /\ plannedMoves w' = rest /\ ranked rank b'.
Proof.
  intros Hr Hfuel Hm. unfold executeNextMove. rewrite Hm.
  assert (Hk : forall b', connections b' = connections b -> ranked rank b')
    by (intros b' Hc; unfold ranked; rewrite Hc; exact Hr).
  destruct move as [position | segmentName position rotationAmount | ].
  - unfold executeWalkMove.
    destruct (negb (hasMinimumGroundContacts b (minGroundContacts w))).
    { eexists _, _, _. split; [reflexivity | ]. split; [reflexivity | exact Hr]. }
    destruct (moveBaseTo_returns rank fuel position b Hr Hfuel) as (b1 & E).
    rewrite E. eexists _, _, _. split; [reflexivity | ].
    split; [reflexivity | ].
    apply Hk. now apply (moveBaseTo_connections fuel position).
  - unfold executeReachMove.
    destruct (negb (hasMinimumGroundContacts b (minGroundContacts w))).
    { eexists _, _, _. split; [reflexivity | ]. split; [reflexivity | exact Hr]. }
    destruct (getSegment b segmentName).
    2: { eexists _, _, _. split; [reflexivity | ].
         split; [reflexivity | exact Hr]. }
    destruct (rotateSegment_returns rank fuel segmentName rotationAmount b
                Hr Hfuel) as (ok & b1 & E).
    rewrite E. eexists _, _, _. split; [reflexivity | ].
    split; [reflexivity | ].
    apply Hk.
    now apply (rotateSegment_connections fuel segmentName rotationAmount b ok).
  - destruct (canReachObject b t (minObjectContacts w));
      eexists _, _, _; (split; [reflexivity | ]);
      (split; [reflexivity | exact Hr]).
Qed.

(** X11.  In walker mode, on a Body without cycles and with a target,
    the simulation takes exactly one update for each planned move:
    after as many updates as there are moves the queue is empty and
    the simulation is not yet complete; the next update marks it
    complete and changes nothing else; every later update changes
    nothing at all. *)
Theorem walker_simulation_completes :
  forall (rank : string -> nat) (fuel : nat) (w : WalkerStrategy) (b : Body)
         (t : Circle) (deltaTimes : list float),
    ranked rank b -> (forall name, (rank name < fuel)%nat) ->
    List.length deltaTimes = List.length (plannedMoves w) ->
    exists w' b',
      Sim.updates fuel deltaTimes
        (Sim.mkSimulation Sim.WALKER false (Some (Sim.Walker w b (Some t))))
      = Some (Sim.mkSimulation Sim.WALKER false
                (Some (Sim.Walker w' b' (Some t))))
      /\ plannedMoves w' = []
      /\ connections b' = connections b
      /\ forall deltaTime more,
           Sim.updates fuel (deltaTime :: more)
             (Sim.mkSimulation Sim.WALKER false
                (Some (Sim.Walker w' b' (Some t))))
           = Some (Sim.mkSimulation Sim.WALKER true
                     (Some (Sim.Walker w' b' (Some t)))).
Proof.
  intros rank fuel w b t dts. revert w b.
  induction dts as [| dt dts IH]; intros w b Hr Hfuel Hlen.
  - destruct (plannedMoves w) as [| m rest] eqn:Hm; [ | discriminate].
    exists w, b. split; [reflexivity | ]. split; [exact Hm | ].
    split; [reflexivity | ].
    intros deltaTime more. cbn [Sim.updates]. unfold Sim.update.
    cbn [Sim.simulationComplete Sim.currentStrategy Sim.isSequenceComplete
         Sim.currentMode].
    unfold isSequenceComplete. rewrite Hm. cbn [negb].
    induction more as [| dt' more IHm]; [reflexivity | exact IHm].
  - destruct (plannedMoves w) as [| m rest] eqn:Hm; [discriminate | ].
    destruct (executeNextMove_step rank fuel w b t m rest Hr Hfuel Hm)
      as (ok & w1 & b1 & E & Hrest & Hr1).
    destruct (IH w1 b1 Hr1 Hfuel) as (w' & b' & Hrun & Hempty & Hc & Hdone).
    { rewrite Hrest. cbn in Hlen. lia. }
    exists w', b'. split; [ | split; [exact Hempty | split; [ | exact Hdone]]].
    + cbn [Sim.updates]. unfold Sim.update at 1.
      cbn [Sim.simulationComplete Sim.currentStrategy Sim.isSequenceComplete
           Sim.currentMode Sim.executeNextMove].
      unfold isSequenceComplete. rewrite Hm. cbn [negb]. rewrite E.
      exact Hrun.
    + rewrite Hc. now apply (executeNextMove_connections fuel w b (Some t) ok w1).
Qed.

Lemma walker_simulation_completes_witness :
  exists w' b',
    Sim.updates 1 [0.1; 0.1]%float
      (Sim.mkSimulation Sim.WALKER false
         (Some (Sim.Walker late_walker hanging_body (Some ball))))
    = Some (Sim.mkSimulation Sim.WALKER false
              (Some (Sim.Walker w' b' (Some ball))))
    /\ plannedMoves w' = []
    /\ connections b' = connections hanging_body
    /\ forall deltaTime more,
         Sim.updates 1 (deltaTime :: more)
           (Sim.mkSimulation Sim.WALKER false
              (Some (Sim.Walker w' b' (Some ball))))
         = Some (Sim.mkSimulation Sim.WALKER true
                   (Some (Sim.Walker w' b' (Some ball)))).
Proof.
  apply (walker_simulation_completes (fun _ => 0%nat) 1 late_walker
           hanging_body ball [0.1; 0.1]%float).
  - intros p cs c H. discriminate H.
  - intros name. lia.
  - reflexivity.
Defined.

(** ** Snowball mode *)

(** X12.  [Simulation::update] never throws the snowball.  Whatever
    state the snowball strategy is in, [update] returns, and the
    strategy it leaves is the one it found, advanced by one tick of
    the flight when the simulation was not complete, the mode is
    snowball and the snowball was active: the call of
    [executeNextMove] is guarded by a test that holds only while the
    snowball is in flight, and then refuses to throw.  In particular
    after [initializeSnowballMode] the first update marks the
    simulation complete and the snowball stays where the constructor
    put it, never thrown, whatever updates follow. *)
Theorem snowball_mode_never_throws :
  forall (fuel : nat) (deltaTime : float),
    (forall (mode : Sim.Mode) (complete : bool) (s : Ieee.SnowballStrategy),
       Sim.update fuel deltaTime
         (Sim.mkSimulation mode complete (Some (Sim.Snowball s)))
       = Some (Sim.mkSimulation mode
                 (complete || Ieee.isSequenceComplete s)
                 (Some (Sim.Snowball
                          (match complete, mode with
                           | false, Sim.SNOWBALL => Ieee.update deltaTime s
                           | _, _ => s
                           end))))
       /\ (Ieee.active s = false ->
           Ieee.active (Ieee.update deltaTime s) = false))
    /\ (forall (body : option Ieee.Body) (target : option Ieee.Circle)
               (more : list float),
          Sim.updates fuel (deltaTime :: more)
            (Sim.mkSimulation Sim.SNOWBALL false
               (Some (Sim.initializeSnowballMode body target)))
          = Some (Sim.mkSimulation Sim.SNOWBALL true
                    (Some (Sim.initializeSnowballMode body target)))
          /\ Ieee.active (Ieee.planSequence (Ieee.create body target 10 9.8))
             = false).
Proof.
  intros fuel dt. split.
  - intros mode complete s. split.
    + unfold Sim.update.
      cbn [Sim.simulationComplete Sim.currentStrategy Sim.currentMode
           Sim.isSequenceComplete Sim.executeNextMove].
      destruct complete; [destruct mode; reflexivity | ]. cbn [orb].
      unfold Ieee.isSequenceComplete, Ieee.executeNextMove, Ieee.update.
      destruct (Ieee.active s) eqn:Ea, (Ieee.hitTarget s) eqn:Et,
               (Ieee.hitGround s) eqn:Eg, mode;
        cbn [negb orb andb Sim.currentMode Sim.currentStrategy
             Sim.simulationComplete];
        rewrite ?Ea; try reflexivity.
    + intros Ha. unfold Ieee.update. now rewrite Ha.
  - intros body target more. split; [ | reflexivity].
    cbn [Sim.updates]. unfold Sim.update at 1.
    cbn -[Sim.updates].
    induction more as [| dt' more IH]; [reflexivity | exact IH].
Qed.

End Driving.


(* ================================================================== *)
(** * Part XIV.  The builder                                           *)
(* ================================================================== *)

Section Building.

Import Kin.
Local Open Scope string_scope.
Local Open Scope list_scope.
Local Open Scope R_scope.

(** Evaluation that leaves the arithmetic of the reals alone. *)
Ltac eval_body :=
  lazy -[IZR Rplus Rminus Rmult Rdiv Ropp Rinv cos sin PI M_PI Rabs sqrt atan
         Int_part Rlt_dec Rle_dec Req_dec_T clampBetween std_max std_min
         ltb leb eqb Vec.EPSILON].

(** ** What [build] keeps of the constructor's segments *)

(** Every segment of [l] is in [l'] under its name, with the same
    joint; the start may differ. *)
Definition jointsKept (l l' : list (string * Segment)) : Prop :=
  forall name s, find name l = Some s ->
                 exists s', find name l' = Some s' /\ sameJoint s s'.

Lemma jointsKept_refl l : jointsKept l l.
Proof. intros name s H. exists s. split; [exact H | apply sameJoint_refl]. Qed.

Lemma jointsKept_trans l1 l2 l3 :
  jointsKept l1 l2 -> jointsKept l2 l3 -> jointsKept l1 l3.
Proof.
  intros H12 H23 name s H. destruct (H12 name s H) as (s2 & H2 & J2).
  destruct (H23 name s2 H2) as (s3 & H3 & J3). exists s3. split; [exact H3 | ].
  unfold sameJoint in *. intuition congruence.
Qed.

Lemma sameShape_jointsKept l l' : sameShape l l' -> jointsKept l l'.
Proof.
  intros Hs name s H. pose proof (sameShape_find name l l' Hs) as Hf.
  rewrite H in Hf. destruct (find name l') as [s' |]; [ | contradiction].
  now exists s'.
Qed.

Lemma addSegment_jointsKept junk name len ang lo hi b :
  jointsKept (segments b) (segments (addSegment junk name len ang lo hi b)).
Proof.
  unfold addSegment. destruct (find name (segments b)) eqn:E;
    [apply jointsKept_refl | ].
  intros q s H. cbn [segments]. rewrite find_insert.
  destruct (String.eqb q name) eqn:Eq.
  - apply String.eqb_eq in Eq. subst q. congruence.
  - exists s. split; [exact H | apply sameJoint_refl].
Qed.

Lemma addSegments_jointsKept junk specs :
  forall b, jointsKept (segments b) (segments (Builder.addSegments junk specs b)).
Proof.
  unfold Builder.addSegments.
  induction specs as [| spec specs IH]; intros b; [apply jointsKept_refl | ].
  cbn [fold_left]. eapply jointsKept_trans; [ | apply IH].
  apply addSegment_jointsKept.
Qed.

Lemma connectSegment_shape p c b :
  sameShape (segments b) (segments (connectSegment p c b)).
Proof.
  unfold connectSegment.
  destruct (getSegment b p) as [ps |]; [ | apply sameShape_refl].
  destruct (getSegment b c); [ | apply sameShape_refl].
  cbn [setSegment segments]. apply sameShape_adjust.
Qed.

Lemma connectAll_shape conns :
  forall b, sameShape (segments b) (segments (Builder.connectAll conns b)).
Proof.
  unfold Builder.connectAll.
  induction conns as [| conn conns IH]; intros b; [apply sameShape_refl | ].
  cbn [fold_left]. eapply sameShape_trans; [ | apply IH].
  apply connectSegment_shape.
Qed.

Lemma match_some {A B} (o : option A) (f : A -> option B) (b : B) :
  match o with Some a => f a | None => None end = Some b ->
  exists a, o = Some a /\ f a = Some b.
Proof. destruct o as [a |]; [eauto | discriminate]. Qed.

(** [Body_new] is the layout of the humanoid. *)
Lemma Body_new_unfold junk fuel base ground :
  Body_new junk fuel base ground
  = updateSegments fuel (humanoid junk base ground).
Proof. exact (eq_refl (updateSegments fuel (humanoid junk base ground))). Qed.

Lemma build_jointsKept junk fuel bd b :
  Builder.build junk fuel bd = Some b ->
  jointsKept
    (segments (humanoid junk (Builder.basePosition bd) (Builder.groundLevel bd)))
    (segments b).
Proof.
  unfold Builder.build. intros H.
  apply match_some in H. destruct H as (b0 & E0 & H).
  rewrite Body_new_unfold in E0.
  apply updateSegments_frame in E0. destruct E0 as (_ & Hs0).
  apply updateSegments_frame in H. destruct H as (_ & Hs).
  eapply jointsKept_trans; [apply sameShape_jointsKept; exact Hs0 | ].
  eapply jointsKept_trans; [apply addSegments_jointsKept | ].
  eapply jointsKept_trans; [apply sameShape_jointsKept, connectAll_shape | ].
  apply sameShape_jointsKept. exact Hs.
Qed.

Lemma getSegmentNames_keys b : getSegmentNames b = map fst (segments b).
Proof. reflexivity. Qed.

Lemma getSegment_find b name : getSegment b name = find name (segments b).
Proof. reflexivity. Qed.

(** X13.  A Body that [build] returns has every segment of the
    constructor's humanoid, with the length, angle and limits the
    constructor gave it: what the builder specifies under one of
    those fourteen names is ignored. *)
Theorem build_keeps_constructor_segments :
  forall (junk : string -> R * R) (fuel : nat) (bd : Builder.BodyBuilder)
         (b : Body) (name : string) (s0 : Segment),
    Builder.build junk fuel bd = Some b ->
    getSegment
      (humanoid junk (Builder.basePosition bd) (Builder.groundLevel bd)) name
    = Some s0 ->
    exists s,
      getSegment b name = Some s
      /\ getId s = getId s0 /\ getLength s = getLength s0
      /\ getAngle s = getAngle s0
      /\ getMinAngle s = getMinAngle s0 /\ getMaxAngle s = getMaxAngle s0.
Proof.
  intros junk fuel bd b name s0 Hb Hs0. rewrite getSegment_find in *.
  destruct (build_jointsKept junk fuel bd b Hb name s0 Hs0) as (s & Hs & J).
  exists s. split; [exact Hs | ]. unfold sameJoint in J. intuition congruence.
Qed.

(** ** Names and connections, as the builder's loops leave them *)

Fixpoint insertKey (k : string) (ks : list string) : list string :=
  match ks with
  | [] => [k]
  | k' :: ks' =>
      match String.compare k k' with
      | Lt => k :: ks
      | Eq => k :: ks'
      | Gt => k' :: insertKey k ks'
      end
  end.

Definition addName (names : list string) (name : string) : list string :=
  if existsb (String.eqb name) names then names else insertKey name names.

Definition recordEdge (names : list string)
    (conns : list (string * list string)) (conn : string * string)
    : list (string * list string) :=
  if existsb (String.eqb (fst conn)) names
     && existsb (String.eqb (snd conn)) names
  then insert (fst conn)
         (match find (fst conn) conns with Some cs => cs | None => [] end
          ++ [snd conn])
         conns
  else conns.

Lemma insert_keys {A} k (v : A) m : map fst (insert k v m) = insertKey k (map fst m).
Proof.
  induction m as [| [k' v'] m IH]; cbn; [reflexivity | ].
  destruct (String.compare k k'); cbn; congruence.
Qed.

Lemma find_existsb {A} k (m : list (string * A)) :
  existsb (String.eqb k) (map fst m)
  = match find k m with Some _ => true | None => false end.
Proof.
  induction m as [| [k' v] m IH]; cbn; [reflexivity | ].
  destruct (String.eqb k k'); [reflexivity | exact IH].
Qed.

Lemma addSegment_names junk name len ang lo hi b :
  getSegmentNames (addSegment junk name len ang lo hi b)
  = addName (getSegmentNames b) name
  /\ connections (addSegment junk name len ang lo hi b) = connections b.
Proof.
  unfold addSegment, addName, getSegmentNames. rewrite find_existsb.
  destruct (find name (segments b)); [split; reflexivity | ].
  cbn [segments connections]. split; [apply insert_keys | reflexivity].
Qed.

Lemma addSegments_names junk specs :
  forall b,
    getSegmentNames (Builder.addSegments junk specs b)
    = fold_left addName (map fst specs) (getSegmentNames b)
    /\ connections (Builder.addSegments junk specs b) = connections b.
Proof.
  unfold Builder.addSegments.
  induction specs as [| spec specs IH]; intros b; [split; reflexivity | ].
  cbn [fold_left map].
  destruct (IH (addSegment (junk (fst spec)) (fst spec)
                  (Builder.length (snd spec)) (Builder.angle (snd spec))
                  (Builder.minAngle (snd spec)) (Builder.maxAngle (snd spec)) b))
    as (-> & ->).
  destruct (addSegment_names (junk (fst spec)) (fst spec)
              (Builder.length (snd spec)) (Builder.angle (snd spec))
              (Builder.minAngle (snd spec)) (Builder.maxAngle (snd spec)) b)
    as (-> & ->).
  split; reflexivity.
Qed.

Lemma connectSegment_names p c b :
  getSegmentNames (connectSegment p c b) = getSegmentNames b
  /\ connections (connectSegment p c b)
     = recordEdge (getSegmentNames b) (connections b) (p, c).
Proof.
  unfold connectSegment, recordEdge, getSegmentNames, getSegment.
  cbn [fst snd]. rewrite !find_existsb.
  destruct (find p (segments b)) as [ps |]; [ | split; reflexivity].
  destruct (find c (segments b)); [ | split; reflexivity].
  cbn [andb setSegment segments connections]. split; [apply adjust_keys | reflexivity].
Qed.

Lemma connectAll_names conns :
  forall b,
    getSegmentNames (Builder.connectAll conns b) = getSegmentNames b
    /\ connections (Builder.connectAll conns b)
       = fold_left (recordEdge (getSegmentNames b)) conns (connections b).
Proof.
  unfold Builder.connectAll.
  induction conns as [| [p c] conns IH]; intros b; [split; reflexivity | ].
  cbn [fold_left fst snd].
  destruct (IH (connectSegment p c b)) as (-> & ->).
  destruct (connectSegment_names p c b) as (-> & ->).
  split; reflexivity.
Qed.

Lemma addSegments_base junk specs :
  forall b,
    getBasePosition (Builder.addSegments junk specs b) = getBasePosition b
    /\ getGroundLevel (Builder.addSegments junk specs b) = getGroundLevel b.
Proof.
  unfold Builder.addSegments.
  induction specs as [| spec specs IH]; intros b; [split; reflexivity | ].
  cbn [fold_left].
  destruct (IH (addSegment (junk (fst spec)) (fst spec)
                  (Builder.length (snd spec)) (Builder.angle (snd spec))
                  (Builder.minAngle (snd spec)) (Builder.maxAngle (snd spec)) b))
    as (-> & ->).
  unfold addSegment. destruct (find (fst spec) (segments b)); split; reflexivity.
Qed.

Lemma connectAll_base conns :
  forall b,
    getBasePosition (Builder.connectAll conns b) = getBasePosition b
    /\ getGroundLevel (Builder.connectAll conns b) = getGroundLevel b.
Proof.
  unfold Builder.connectAll.
  induction conns as [| conn conns IH]; intros b; [split; reflexivity | ].
  cbn [fold_left].
  destruct (IH (connectSegment (fst conn) (snd conn) b)) as (-> & ->).
  unfold connectSegment. destruct (getSegment b (fst conn)); [ | split; reflexivity].
  destruct (getSegment b (snd conn)); split; reflexivity.
Qed.

(** The names and the connections of the constructor's humanoid. *)
Definition humanoidNames : list string :=
  ["head"; "left_foot"; "left_hand"; "left_lower_arm"; "left_lower_leg";
   "left_upper_arm"; "left_upper_leg"; "right_foot"; "right_hand";
   "right_lower_arm"; "right_lower_leg"; "right_upper_arm";
   "right_upper_leg"; "torso"].

Definition humanoidConnections : list (string * list string) :=
  [("left_lower_arm", ["left_hand"]);
   ("left_lower_leg", ["left_foot"]);
   ("left_upper_arm", ["left_lower_arm"]);
   ("left_upper_leg", ["left_lower_leg"]);
   ("right_lower_arm", ["right_hand"]);
   ("right_lower_leg", ["right_foot"]);
   ("right_upper_arm", ["right_lower_arm"]);
   ("right_upper_leg", ["right_lower_leg"]);
   ("torso", ["head"; "left_upper_arm"; "right_upper_arm";
              "left_upper_leg"; "right_upper_leg"])].

(** The names and the connections of the Body [build] lays out. *)
Definition builtNames (bd : Builder.BodyBuilder) : list string :=
  fold_left addName (map fst (Builder.segmentSpecs bd)) humanoidNames.

Definition builtConnections (bd : Builder.BodyBuilder)
    : list (string * list string) :=
  fold_left (recordEdge (builtNames bd)) (Builder.connections bd)
            humanoidConnections.

(** [forest], read off the names and the connections. *)
Definition forestOver (rank : string -> nat) (names : list string)
    (conns : list (string * list string)) : Prop :=
  (forall p c, isEdge conns p c -> (rank c < rank p)%nat)
  /\ (forall p p' c, isEdge conns p c -> isEdge conns p' c -> p = p')
  /\ (forall p c, isEdge conns p c -> In p names /\ In c names).

Lemma forestOver_forest rank b :
  forestOver rank (getSegmentNames b) (connections b) -> forest rank b.
Proof.
  intros (Hr & Hp & He). split.
  - intros p cs c Hf Hin. apply Hr. now exists cs.
  - exact Hp.
  - exact He.
Qed.

(** The check of [forest], on names and connections. *)
Definition forestOverb (rank : string -> nat) (names : list string)
    (conns : list (string * list string)) : bool :=
  forestb rank
    (mkBody (mkVector2D 0 0) 0
       (map (fun name => (name, mkSegment name (mkVector2D 0 0) 0 0 0 0)) names)
       conns).

Lemma forestOverb_sound rank names conns :
  forestOverb rank names conns = true -> forestOver rank names conns.
Proof.
  intros H. apply forestb_sound in H. destruct H as [Hr Hp He].
  cbn [connections segments] in *. rewrite map_map in He. cbn [fst] in He.
  rewrite map_id in He. split; [ | split; [exact Hp | exact He]].
  intros p c (cs & Hf & Hin). exact (Hr p cs c Hf Hin).
Qed.

(** What the constructor returns: the names and connections of the
    humanoid. *)
Lemma Body_new_shape junk base ground :
  exists b0,
    Body_new junk 16 base ground = Some b0
    /\ getBasePosition b0 = base /\ getGroundLevel b0 = ground
    /\ getSegmentNames b0 = humanoidNames
    /\ connections b0 = humanoidConnections.
Proof.
  destruct (updateSegments_returns humanoid_rank 16 (humanoid junk base ground)
              (forest_ranked _ _ (humanoid_forest junk base ground))
              humanoid_rank_bound) as (b0 & H).
  exists b0. split; [exact H | ].
  destruct (updateSegments_frame 16 _ b0 H) as ((Hb & Hg & Hc) & Hs).
  split; [exact Hb | ]. split; [exact Hg | ].
  split.
  - rewrite getSegmentNames_keys, <- (sameShape_keys _ _ Hs).
    rewrite <- getSegmentNames_keys. apply humanoid_names.
  - rewrite Hc. apply humanoid_connections.
Qed.

Lemma build_layout :
  forall (rank : string -> nat) (junk : string -> R * R)
         (bd : Builder.BodyBuilder),
    forestOver rank (builtNames bd) (builtConnections bd) ->
    NoDup (map fst (builtConnections bd)) ->
    (forall name, (rank name < 16)%nat) ->
    exists b,
      Builder.build junk 16 bd = Some b
      /\ getSegmentNames b = builtNames bd
      /\ connections b = builtConnections bd
      /\ getBasePosition b = Builder.basePosition bd
      /\ getGroundLevel b = Builder.groundLevel bd
      /\ exactlyConnected b.
Proof.
  intros rank junk bd Hforest Hnd Hrank.
  destruct (Body_new_shape junk (Builder.basePosition bd) (Builder.groundLevel bd))
    as (b0 & H0 & Hb0 & Hg0 & Hn0 & Hc0).
  unfold Builder.build. rewrite H0.
  set (added := Builder.addSegments junk (Builder.segmentSpecs bd) b0).
  set (pre := Builder.connectAll (Builder.connections bd) added).
  assert (Hna : getSegmentNames added = builtNames bd
                /\ connections added = humanoidConnections).
  { subst added.
    destruct (addSegments_names junk (Builder.segmentSpecs bd) b0) as (-> & ->).
    rewrite Hn0, Hc0. split; reflexivity. }
  destruct Hna as (Hna & Hca).
  assert (Hnp : getSegmentNames pre = builtNames bd
                /\ connections pre = builtConnections bd).
  { subst pre.
    destruct (connectAll_names (Builder.connections bd) added) as (-> & ->).
    rewrite Hna, Hca. split; reflexivity. }
  destruct Hnp as (Hn & Hc).
  assert (Hf : forest rank pre)
    by (apply forestOver_forest; rewrite Hn, Hc; exact Hforest).
  assert (Hnd' : NoDup (map fst (connections pre))) by (rewrite Hc; exact Hnd).
  destruct (updateSegments_exact rank 16 pre Hf Hnd' Hrank)
    as (b & H & Hex & ((Hb & Hg & Hcb) & Hk) & _).
  exists b. split; [exact H | ].
  split; [rewrite getSegmentNames_keys, Hk, <- getSegmentNames_keys; exact Hn | ].
  split; [congruence | ].
  assert (Hframe : getBasePosition pre = getBasePosition b0
                   /\ getGroundLevel pre = getGroundLevel b0).
  { subst pre.
    destruct (connectAll_base (Builder.connections bd) added) as (-> & ->).
    apply addSegments_base. }
  destruct Hframe as (Hpb & Hpg).
  split; [congruence | ]. split; [congruence | exact Hex].
Qed.

(** X14.  When the names and connections that the constructor and the
    builder add up to form a forest of depth below 16, [build]
    returns a Body with those names and connections, the base
    position and ground level of the builder, and every child
    starting at the very end of its parent.  The names are those of
    the humanoid and the new names of the builder; a connection is
    recorded when both its ends are among them, after those of the
    humanoid. *)
Theorem build_connects :
  forall (rank : string -> nat) (junk : string -> R * R)
         (bd : Builder.BodyBuilder),
    forestOver rank (builtNames bd) (builtConnections bd) ->
    NoDup (map fst (builtConnections bd)) ->
    (forall name, (rank name < 16)%nat) ->
    exists b,
      Builder.build junk 16 bd = Some b
      /\ getSegmentNames b = builtNames bd
      /\ getSegmentCount b = List.length (builtNames bd)
      /\ connections b = builtConnections bd
      /\ getBasePosition b = Builder.basePosition bd
      /\ getGroundLevel b = Builder.groundLevel bd
      /\ exactlyConnected b /\ connected b.
Proof.
  intros rank junk bd Hforest Hnd Hrank.
  destruct (build_layout rank junk bd Hforest Hnd Hrank)
    as (b & H & Hn & Hc & Hb & Hg & Hex).
  exists b. split; [exact H | ]. split; [exact Hn | ].
  split.
  { unfold getSegmentCount. rewrite <- (length_map fst).
    rewrite <- getSegmentNames_keys. now rewrite Hn. }
  split; [exact Hc | ]. split; [exact Hb | ]. split; [exact Hg | ].
  split; [exact Hex | now apply exactlyConnected_connected].
Qed.

(** ** The two presets *)

Lemma humanoid_preset bd :
  builtNames (Builder.buildHumanoidBody bd) = humanoidNames
  /\ builtConnections (Builder.buildHumanoidBody bd)
     = map (fun conn : string * list string => (fst conn, snd conn ++ snd conn))
           humanoidConnections.
Proof.
  assert (Hn : builtNames (Builder.buildHumanoidBody bd) = humanoidNames)
    by (eval_body; reflexivity).
  split; [exact Hn | ]. unfold builtConnections. rewrite Hn.
  eval_body. reflexivity.
Qed.

Lemma simple_preset bd :
  builtNames (Builder.buildSimpleBody bd)
  = ["head"; "left_arm"; "left_foot"; "left_hand"; "left_leg";
     "left_lower_arm"; "left_lower_leg"; "left_upper_arm"; "left_upper_leg";
     "right_arm"; "right_foot"; "right_hand"; "right_leg";
     "right_lower_arm"; "right_lower_leg"; "right_upper_arm";
     "right_upper_leg"; "torso"]
  /\ builtConnections (Builder.buildSimpleBody bd)
     = [("left_lower_arm", ["left_hand"]);
        ("left_lower_leg", ["left_foot"]);
        ("left_upper_arm", ["left_lower_arm"]);
        ("left_upper_leg", ["left_lower_leg"]);
        ("right_lower_arm", ["right_hand"]);
        ("right_lower_leg", ["right_foot"]);
        ("right_upper_arm", ["right_lower_arm"]);
        ("right_upper_leg", ["right_lower_leg"]);
        ("torso", ["head"; "left_upper_arm"; "right_upper_arm";
                   "left_upper_leg"; "right_upper_leg";
                   "left_arm"; "right_arm"; "left_leg"; "right_leg"])].
Proof.
  match goal with |- ?l = ?r /\ _ =>
    assert (Hn : l = r) by (eval_body; reflexivity) end.
  split; [exact Hn | ]. unfold builtConnections. rewrite Hn.
  eval_body. reflexivity.
Qed.

Lemma preset_forest names conns :
  forestOverb humanoid_rank names conns = true ->
  forestOver humanoid_rank names conns.
Proof. apply forestOverb_sound. Qed.

(** X15.  The humanoid preset: the Body that [build] returns after
    [buildHumanoidBody] has the fourteen segments of the
    constructor and every connection twice, the constructor having
    connected the humanoid before the builder does; every child
    starts at the very end of its parent. *)
Theorem built_humanoid_doubles_connections :
  forall (junk : string -> R * R) (bd : Builder.BodyBuilder),
  exists b,
    Builder.build junk 16 (Builder.buildHumanoidBody bd) = Some b
    /\ getSegmentNames b = humanoidNames
    /\ getSegmentCount b = 14%nat
    /\ connections b
       = map (fun conn : string * list string => (fst conn, snd conn ++ snd conn))
             (connections (humanoid junk (Builder.basePosition bd)
                                    (Builder.groundLevel bd)))
    /\ children b "torso"
       = ["head"; "left_upper_arm"; "right_upper_arm"; "left_upper_leg";
          "right_upper_leg"; "head"; "left_upper_arm"; "right_upper_arm";
          "left_upper_leg"; "right_upper_leg"]
    /\ getBasePosition b = Builder.basePosition bd
    /\ getGroundLevel b = Builder.groundLevel bd
    /\ exactlyConnected b.
Proof.
  intros junk bd.
  destruct (humanoid_preset bd) as (Hn & Hc).
  destruct (build_layout humanoid_rank junk (Builder.buildHumanoidBody bd))
    as (b & H & Hnb & Hcb & Hb & Hg & Hex).
  - rewrite Hn, Hc. apply preset_forest. vm_compute. reflexivity.
  - rewrite Hc. vm_compute. repeat constructor; cbn; intuition discriminate.
  - apply humanoid_rank_bound.
  - exists b. split; [exact H | ]. rewrite Hn in Hnb. rewrite Hc in Hcb.
    split; [exact Hnb | ].
    split.
    { unfold getSegmentCount. rewrite <- (length_map fst).
      rewrite <- getSegmentNames_keys, Hnb. reflexivity. }
    split; [rewrite humanoid_connections; exact Hcb | ].
    split; [unfold children; rewrite Hcb; reflexivity | ].
    split; [exact Hb | ]. split; [exact Hg | exact Hex].
Qed.

Lemma humanoid_torso junk base ground :
  exists torso,
    getSegment (humanoid junk base ground) "torso" = Some torso
    /\ getLength torso = 60.
Proof.
  eexists. split; [eval_body; reflexivity | ].
  cbn [getLength]. apply std_max_floor. lra.
Qed.

Lemma simple_preset_builds junk bd :
  exists b,
    Builder.build junk 16 (Builder.buildSimpleBody bd) = Some b
    /\ getSegmentNames b = builtNames (Builder.buildSimpleBody bd)
    /\ connections b = builtConnections (Builder.buildSimpleBody bd)
    /\ exactlyConnected b.
Proof.
  destruct (simple_preset bd) as (Hn & Hc).
  destruct (build_layout humanoid_rank junk (Builder.buildSimpleBody bd))
    as (b & H & Hnb & Hcb & _ & _ & Hex).
  - rewrite Hn, Hc. apply preset_forest. vm_compute. reflexivity.
  - rewrite Hc. vm_compute. repeat constructor; cbn; intuition discriminate.
  - apply humanoid_rank_bound.
  - exists b. auto.
Qed.

(** X16.  The simple preset is not simple: the Body that [build]
    returns after [buildSimpleBody] has eighteen segments, the
    fourteen of the constructor's humanoid and the four limbs of the
    preset, which hang on the torso after the five children it had;
    the torso is the constructor's, of length 60, not the one of
    length 50 the preset specifies; every child starts at the very
    end of its parent. *)
Theorem built_simple_body_extends_humanoid :
  forall (junk : string -> R * R) (bd : Builder.BodyBuilder),
  exists b,
    Builder.build junk 16 (Builder.buildSimpleBody bd) = Some b
    /\ getSegmentCount b = 18%nat
    /\ (forall name, In name humanoidNames -> In name (getSegmentNames b))
    /\ children b "torso"
       = ["head"; "left_upper_arm"; "right_upper_arm"; "left_upper_leg";
          "right_upper_leg"; "left_arm"; "right_arm"; "left_leg"; "right_leg"]
    /\ (exists spec,
          find "torso" (Builder.segmentSpecs (Builder.buildSimpleBody bd))
          = Some spec /\ Builder.length spec = 50)
    /\ (exists torso, getSegment b "torso" = Some torso /\ getLength torso = 60)
    /\ exactlyConnected b.
Proof.
  intros junk bd.
  destruct (simple_preset_builds junk bd) as (b & H & Hn & Hc & Hex).
  destruct (simple_preset bd) as (En & Ec). rewrite En in Hn. rewrite Ec in Hc.
  exists b. split; [exact H | ].
  split.
  { unfold getSegmentCount. rewrite <- (length_map fst).
    rewrite <- getSegmentNames_keys, Hn. reflexivity. }
  split.
  { intros name Hin. rewrite Hn. unfold humanoidNames in Hin.
    repeat (destruct Hin as [<- | Hin];
            [repeat first [left; reflexivity | right] | ]).
    contradiction. }
  split; [unfold children; rewrite Hc; reflexivity | ].
  split; [eexists; split; [eval_body; reflexivity | reflexivity] | ].
  split; [ | exact Hex].
  destruct (humanoid_torso junk (Builder.basePosition (Builder.buildSimpleBody bd))
              (Builder.groundLevel (Builder.buildSimpleBody bd)))
    as (torso0 & Ht0 & Hlen).
  rewrite getSegment_find in Ht0.
  destruct (build_jointsKept junk 16 _ b H "torso" torso0 Ht0)
    as (torso & Ht & J).
  exists torso. split; [exact Ht | ].
  destruct J as (_ & <- & _). exact Hlen.
Qed.

Lemma build_keeps_constructor_segments_witness :
  exists b s0,
    Builder.build stand_junk 16 (Builder.buildSimpleBody Builder.create) = Some b
    /\ getSegment
         (humanoid stand_junk
            (Builder.basePosition (Builder.buildSimpleBody Builder.create))
            (Builder.groundLevel (Builder.buildSimpleBody Builder.create)))
         "torso" = Some s0
    /\ exists s,
         getSegment b "torso" = Some s
         /\ getId s = getId s0 /\ getLength s = getLength s0
         /\ getAngle s = getAngle s0
         /\ getMinAngle s = getMinAngle s0 /\ getMaxAngle s = getMaxAngle s0.
Proof.
  destruct (simple_preset_builds stand_junk Builder.create) as (b & H & _).
  destruct (humanoid_torso stand_junk
              (Builder.basePosition (Builder.buildSimpleBody Builder.create))
              (Builder.groundLevel (Builder.buildSimpleBody Builder.create)))
    as (s0 & Hs0 & _).
  exists b, s0. split; [exact H | ]. split; [exact Hs0 | ].
  exact (build_keeps_constructor_segments stand_junk 16
           (Builder.buildSimpleBody Builder.create) b "torso" s0 H Hs0).
Defined.

Lemma build_connects_witness :
  exists b,
    Builder.build stand_junk 16 (Builder.buildSimpleBody Builder.create) = Some b
    /\ getSegmentNames b = builtNames (Builder.buildSimpleBody Builder.create)
    /\ getSegmentCount b
       = List.length (builtNames (Builder.buildSimpleBody Builder.create))
    /\ connections b = builtConnections (Builder.buildSimpleBody Builder.create)
    /\ getBasePosition b
       = Builder.basePosition (Builder.buildSimpleBody Builder.create)
    /\ getGroundLevel b
       = Builder.groundLevel (Builder.buildSimpleBody Builder.create)
    /\ exactlyConnected b /\ connected b.
Proof.
  apply (build_connects humanoid_rank stand_junk
           (Builder.buildSimpleBody Builder.create)).
  - destruct (simple_preset Builder.create) as (Hn & Hc). rewrite Hn, Hc.
    apply preset_forest. vm_compute. reflexivity.
  - destruct (simple_preset Builder.create) as (_ & Hc). rewrite Hc.
    vm_compute. repeat constructor; cbn; intuition discriminate.
  - exact humanoid_rank_bound.
Defined.

End Building.

(* ================================================================== *)
(** * Part XV.  The plan of the walker                                 *)
(* ================================================================== *)

Section Planning.

Import Kin.
Local Open Scope string_scope.
Local Open Scope list_scope.
Local Open Scope R_scope.

(** ** The direction of a vector *)







(** ** Reach moves *)







(** ** Walk moves *)





End Planning.

(* ================================================================== *)
(** * Part XVI.  The snowball strategy before and after the flight     *)
(* ================================================================== *)

Section Idle.

Import Ieee.
Local Open Scope float_scope.

(** X19.  In every state the strategy can be brought to, the sequence
    counts as complete exactly when no snowball is in flight: so it
    counts as complete before anything is thrown, as it does right
    after [planSequence]; a strategy whose sequence is not complete
    refuses the next move; and a tick changes nothing once the
    sequence is complete. *)
Theorem sequence_complete_iff_idle :
  forall s : SnowballStrategy,
    reachable s ->
    isSequenceComplete s = negb (active s)
    /\ isSequenceComplete (planSequence s) = true
    /\ (isSequenceComplete s = false -> executeNextMove s = Some (false, s))
    /\ (isSequenceComplete s = true -> forall dt, update dt s = s).
Proof.
  intros s Hr. destruct (reachable_flags_consistent s Hr) as [Ha _].
  unfold isSequenceComplete, executeNextMove, update.
  destruct (active s) eqn:Eact.
  - destruct (Ha eq_refl) as [-> ->]. cbn. repeat split; discriminate.
  - cbn [negb]. rewrite !orb_true_r. repeat split; try discriminate.
Qed.

Lemma sequence_complete_iff_idle_witness :
  isSequenceComplete thrower_behind = negb (active thrower_behind)
  /\ isSequenceComplete (planSequence thrower_behind) = true
  /\ (isSequenceComplete thrower_behind = false ->
      executeNextMove thrower_behind = Some (false, thrower_behind))
  /\ (isSequenceComplete thrower_behind = true ->
      forall dt, update dt thrower_behind = thrower_behind).
Proof.
  apply (sequence_complete_iff_idle thrower_behind).
  unfold thrower_behind. apply reach_create.
Defined.

End Idle.

(* ================================================================== *)
(** * Part XVII.  Vectors and circles                                  *)
(* ================================================================== *)

Section Geometry.

Import Kin.
Local Open Scope string_scope.
Local Open Scope list_scope.
Local Open Scope R_scope.

(** ** Vector2D *)






(** X22.  [operator==] compares up to 0.000001 on each component: it
    is reflexive and symmetric, and [operator!=] is its negation,
    but it is not transitive. *)
Theorem equal_is_not_transitive :
  (forall a, Vec.equal a a = true)
  /\ (forall a v, Vec.equal a v = Vec.equal v a)
  /\ (forall a v, Vec.notEqual a v = negb (Vec.equal a v))
  /\ exists a v w,
       Vec.equal a v = true /\ Vec.equal v w = true /\ Vec.equal a w = false.
Proof.
  split; [apply Vec_equal_refl | ]. split.
  - intros a v. unfold Vec.equal.
    rewrite (Rabs_minus_sym (x a) (x v)), (Rabs_minus_sym (y a) (y v)).
    reflexivity.
  - split; [reflexivity | ].
    exists (mkVector2D 0 0), (mkVector2D (6 / 10000000) 0),
           (mkVector2D (12 / 10000000) 0).
    unfold Vec.equal, Vec.EPSILON. cbn [x y].
    repeat split.
    + rewrite !ltb_true; [reflexivity | | ];
        (rewrite Rabs_left1 || rewrite Rabs_right); lra.
    + rewrite !ltb_true; [reflexivity | | ];
        (rewrite Rabs_left1 || rewrite Rabs_right); lra.
    + rewrite (ltb_false (Rabs (0 - 12 / 10000000))); [reflexivity | ].
      rewrite Rabs_left1; lra.
Qed.

(** ** Circle *)



End Geometry.

(* ================================================================== *)
(** * Part XVIII.  The first snowball: flags that stick                *)
(* ================================================================== *)

Section Sticking.

Import Ieee.
Local Open Scope float_scope.

Lemma update_flags dt s :
  (Prelim.hitGround s = true ->
   Prelim.hitGround (Prelim.update dt s) = true
   /\ Prelim.hitTarget (Prelim.update dt s) = Prelim.hitTarget s)
  /\ (Prelim.hitTarget s = true ->
      Prelim.hitTarget (Prelim.update dt s) = true).
Proof.
  destruct s as [c g a ht hg gl t].
  unfold Prelim.update, Prelim.checkTargetHit.
  cbn [Prelim.active Prelim.hitTarget Prelim.hitGround Prelim.target
       Prelim.snowball Prelim.groundLevel Prelim.snowballGravity].
  destruct a; cbn [negb]; [ | tauto]. cbv zeta.
  destruct (Prelim.isOnGround _ gl), ht, hg;
    cbn [Prelim.active Prelim.hitTarget Prelim.hitGround Prelim.target
         negb orb snd];
    try tauto; split; discriminate.
Qed.

(** X24.  The flags of the first snowball stick: [throwSnowball] does
    not clear them, so until a throw is prepared again or the
    snowball is reset, a snowball that has hit the ground stays
    marked so and can never be marked as having hit the target,
    however often it is thrown again; and one that has hit the
    target stays marked so. *)
Theorem snowball_flags_stick :
  forall s s' : Prelim.Snowball,
    Prelim.flies s s' ->
    (Prelim.hitGround s = true ->
     Prelim.hitGround s' = true
     /\ Prelim.hitTarget s' = Prelim.hitTarget s)
    /\ (Prelim.hitTarget s = true -> Prelim.hitTarget s' = true).
Proof.
  intros s s' H.
  induction H as [s | s s' _ IH | dt s s' _ IH | t s s' _ IH | b s s' _ IH].
  - auto.
  - exact IH.
  - destruct IH as [IHg IHt]. destruct (update_flags dt s') as [Ug Ut]. split.
    + intros Hg. destruct (IHg Hg) as [Hg' Ht'].
      destruct (Ug Hg') as [-> ->]. auto.
    + intros Ht. apply Ut. now apply IHt.
  - exact IH.
  - destruct b; exact IH.
Qed.

(** A snowball prepared on its target: the first tick hits the
    target; thrown again, it falls, and the third tick hits the
    ground. *)
Definition on_target : Prelim.Snowball :=
  Prelim.throwSnowball
    (Prelim.prepareThrow (mkVector2D 100 300) (mkVector2D 0 0)
       (Prelim.setTarget
          (Some (Prelim.Circle_new (mkVector2D 100 300) 20))
          (Prelim.Snowball_new 10 9.8))).

Lemma snowball_flags_stick_witness :
  Prelim.hitTarget (Prelim.update 0.1 on_target) = true
  /\ Prelim.hitTarget
       (Prelim.update 100
          (Prelim.update 1
             (Prelim.throwSnowball (Prelim.update 0.1 on_target)))) = true
  /\ Prelim.hitGround
       (Prelim.update 100
          (Prelim.update 1
             (Prelim.throwSnowball (Prelim.update 0.1 on_target)))) = true.
Proof.
  split; [vm_compute; reflexivity | ]. split.
  - apply (snowball_flags_stick (Prelim.update 0.1 on_target)).
    + apply Prelim.flies_update, Prelim.flies_update, Prelim.flies_throw,
        Prelim.flies_here.
    + vm_compute. reflexivity.
  - vm_compute. reflexivity.
Defined.

End Sticking.
